(** * workers-firebase: the Firestore reference / query / transaction layer

    A shallow embedding of [src/firestore/reference.ts] (references and the
    query builder) and [src/firestore/firestore.ts] (the store facade:
    [runTransaction], [batchGet]), with the properties stated by the
    specification proved or refuted against it. *)

From Stdlib Require Import ZArith String Ascii List Bool Lia Permutation.
From stdpp Require Import base option list gmap strings.

Set Warnings "-register-all".

Local Open Scope string_scope.
Local Open Scope list_scope.

(** ** Errors

    The source throws a bare [Error] carrying a message (and the runtime
    throws [TypeError] on a property read of [undefined]).  Each throw site
    is one constructor; [message] gives the text the source builds and
    [kind] the class of the specification's taxonomy it falls in. *)

Inductive error : Type :=
  | DocumentSegmentsOdd (received : string)
  | CollectionSegmentsEven (received : string)
  | WhereValueUndefined
  | TooManyCursorValues
  | CursorValueMissing (fieldPath : string)
  | SnapshotFieldMissing
  | LimitToLastWithoutOrderBy
  | ResultError (msg : string)
  | StatusError (code : Z) (msg : string)
  | TypeError (what : string)
  | Thrown (msg : string).

Inductive error_kind : Type :=
  | InvalidPath
  | InvalidArgument
  | RemoteError
  | RuntimeError
  | UserError.

Definition kind (e : error) : error_kind :=
  match e with
  | DocumentSegmentsOdd _ | CollectionSegmentsEven _ => InvalidPath
  | WhereValueUndefined | TooManyCursorValues | CursorValueMissing _
  | SnapshotFieldMissing | LimitToLastWithoutOrderBy => InvalidArgument
  | ResultError _ | StatusError _ _ => RemoteError
  | TypeError _ => RuntimeError
  | Thrown _ => UserError
  end.

Definition dquote : string := String (ascii_of_nat 34) EmptyString.

Definition message (e : error) : string :=
  match e with
  | DocumentSegmentsOdd r =>
      "A document reference must have an even number of segments, received " ++ r
  | CollectionSegmentsEven r =>
      "A collection reference must have an odd number of segments, received " ++ r
  | WhereValueUndefined => "Where value cannot be undefined"
  | TooManyCursorValues =>
      "Too many cursor values specified. The specified " ++
      "values must match the orderBy() constraints of the query."
  | CursorValueMissing f => "A cursor value must be provided for the " ++ f ++ " field."
  | SnapshotFieldMissing =>
      "Field " ++ dquote ++ "[object Object]" ++ dquote ++
      " is missing in the provided DocumentSnapshot. " ++
      "Please provide a document that contains values for all specified " ++
      "orderBy() and where() constraints."
  | LimitToLastWithoutOrderBy =>
      "limitToLast() queries require specifying at least one orderBy() clause."
  | ResultError m | StatusError _ m | TypeError m | Thrown m => m
  end.

Inductive result (A : Type) : Type :=
  | Ok (a : A)
  | Err (e : error).
Arguments Ok {A} a.
Arguments Err {A} e.

Definition bind {A B : Type} (r : result A) (k : A -> result B) : result B :=
  match r with
  | Ok a => k a
  | Err e => Err e
  end.

#[global] Instance result_ret : MRet result := @Ok.
#[global] Instance result_bind : MBind result := fun A B k r => bind r k.
#[global] Instance result_fmap : FMap result :=
  fun A B f r => bind r (fun a => Ok (f a)).

Definition is_ok {A : Type} (r : result A) : bool :=
  match r with Ok _ => true | Err _ => false end.

Definition fails_with {A : Type} (k : error_kind) (r : result A) : Prop :=
  exists e, r = Err e /\ kind e = k.

Fixpoint mapR {A B : Type} (f : A -> result B) (l : list A) : result (list B) :=
  match l with
  | [] => Ok []
  | x :: xs => y ← f x; ys ← mapR f xs; Ok (y :: ys)
  end.

(** ** Paths: [trim], [String.prototype.split], [Array.prototype.join] *)

Module Path.

Definition slash : ascii := "/"%char.

(** [s.split('/')]: one more piece than there are separators. *)
Fixpoint split (s : string) : list string :=
  match s with
  | EmptyString => [EmptyString]
  | String c s' =>
      if Ascii.eqb c slash then EmptyString :: split s'
      else match split s' with
           | [] => [String c EmptyString]
           | w :: ws => String c w :: ws
           end
  end.

(** [l.join('/')]. *)
Fixpoint join (l : list string) : string :=
  match l with
  | [] => EmptyString
  | [x] => x
  | x :: (_ :: _) as rest => x ++ "/" ++ join rest
  end.

(** Removal of one trailing slash: the [\/$] alternative. *)
Fixpoint drop_trailing (s : string) : string :=
  match s with
  | EmptyString => EmptyString
  | String c EmptyString => if Ascii.eqb c slash then EmptyString else s
  | String c s' => String c (drop_trailing s')
  end.

(** [path.replace(/^\/|\/$/g, '')]: one leading slash, then one trailing
    slash of what is left. *)
Definition trim (path : string) : string :=
  match path with
  | String c rest => if Ascii.eqb c slash then drop_trailing rest
                     else drop_trailing path
  | EmptyString => EmptyString
  end.

(** [Boolean(s)] on a string: the empty string is falsy. *)
Definition truthy (s : string) : bool :=
  match s with EmptyString => false | _ => true end.

(** [l.filter(Boolean)]. *)
Definition filter_Boolean (l : list string) : list string :=
  List.filter truthy l.

(** [l.slice(0, -1)]. *)
Definition slice_init (l : list string) : list string := removelast l.

End Path.

(** [n % 2 === 0] on an array length. *)
Definition even_length {A : Type} (l : list A) : bool := Nat.even (length l).

(** ** Values

    JavaScript numbers, as far as the code looks at them: [isNaN] and
    truthiness. *)

Inductive number : Type :=
  | NaN
  | Infinity (negative : bool)
  | Finite (num : Z) (den : positive).


(** Modelled from the spec: the wire value of [src/firestore/types.ts]
    ([api.Value]), a union tagged with its wire type name (section 4.2). *)
Inductive api_Value : Type :=
  | nullValue
  | booleanValue (b : bool)
  | integerValue (z : Z)
  | doubleValue (n : number)
  | stringValue (s : string)
  | bytesValue (s : string)
  | timestampValue (s : string)
  | geoPointValue (latitude longitude : number)
  | referenceValue (name : string)
  | arrayValue (values : list api_Value)
  | mapValue (fields : list (string * api_Value)).

(** [api.Document]: the wire document, as the sources read it ([name]) and
    hand it on (the rest). *)
Record Document : Type := mkDocument {
  name : string;
  fields : list (string * api_Value);
}.

(** Modelled from the spec: the options of [beginTransaction] and the
    consistency selector of a read ([api.TransactionOptions],
    [ReadTransactionOptions] and [ConsistencyOptions] of
    [src/firestore/types.ts]).  The store passes the first on as it is and
    spreads the second into the [batchGet] request, whose optional
    [transaction] is in section 6; the two other keys are those of the
    REST interface the README points to. *)
Inductive TransactionOptions : Type :=
  | readOnly (readTime : option string)
  | readWrite (retryTransaction : option string).

Record ConsistencyOptions : Type := mkConsistency {
  c_transaction : option string;
  c_newTransaction : option TransactionOptions;
  c_readTime : option string;
}.

(** The immutable part of a [Firestore] instance: what a reference reads
    through its [firestore] field. *)
Record Firestore : Type := mkFirestore {
  basePath : string;
}.

Record DocumentReference : Type := mkDocumentReference {
  doc_firestore : Firestore;
  doc_segments : list string;
  doc_transactionOptions : option ConsistencyOptions;
}.

Record CollectionReference : Type := mkCollectionReference {
  col_firestore : Firestore;
  col_segments : list string;
  col_transactionOptions : option ConsistencyOptions;
}.

(** [new DocumentSnapshot(ref, doc, readTime)]; [doc] is [null] for a
    missing document. *)
Record DocumentSnapshot : Type := mkDocumentSnapshot {
  snap_ref : DocumentReference;
  snap_doc : option Document;
  snap_readTime : option string;
}.

(** What a caller can hand to [where] and to the cursor methods
    ([unknown] in the source). *)
Inductive value : Type :=
  | VUndefined
  | VNull
  | VBoolean (b : bool)
  | VNumber (n : number)
  | VString (s : string)
  | VArray (items : list value)
  | VObject (props : list (string * value))
  | VReference (r : DocumentReference)
  | VSnapshot (s : DocumentSnapshot).

(** [!v]. *)
Definition falsy (v : value) : bool :=
  match v with
  | VUndefined | VNull | VBoolean false | VNumber NaN | VString EmptyString => true
  | VNumber (Finite 0 _) => true
  | _ => false
  end.

(** The [path] argument of the constructors: [string | string[]]. *)
Inductive PathArg : Type :=
  | PString (s : string)
  | PSegments (l : list string).

(** ** References *)

(** [new DocumentReference(firestore, path, transactionOptions)]. *)
Definition newDocumentReference (fs : Firestore) (path : PathArg)
    (opts : option ConsistencyOptions) : result DocumentReference :=
  let segments :=
    match path with
    | PString s => Path.filter_Boolean (Path.split (Path.trim s))
    | PSegments l => l
    end in
  if negb (even_length segments)
  then Err (DocumentSegmentsOdd (Path.join segments))
  else Ok (mkDocumentReference fs segments opts).

(** [new CollectionReference(firestore, path, transactionOptions)]. *)
Definition newCollectionReference (fs : Firestore) (path : PathArg)
    (opts : option ConsistencyOptions) : result CollectionReference :=
  let segments :=
    match path with
    | PString s => Path.split (Path.trim s)
    | PSegments l => l
    end in
  if even_length segments
  then Err (CollectionSegmentsEven (Path.join segments))
  else Ok (mkCollectionReference fs segments opts).

(** What [new Reference(firestore, path)] returns: the constructor returns
    an object of one of the two other classes. *)
Inductive Reference : Type :=
  | IsDocument (d : DocumentReference)
  | IsCollection (c : CollectionReference).

Definition newReference (fs : Firestore) (path : PathArg) : result Reference :=
  let segments :=
    match path with
    | PString s => Path.split (Path.trim s)
    | PSegments l => l
    end in
  if even_length segments
  then IsDocument <$> newDocumentReference fs (PSegments segments) None
  else IsCollection <$> newCollectionReference fs (PSegments segments) None.

Definition DocumentReference_path (d : DocumentReference) : string := Path.join (doc_segments d).
Definition CollectionReference_path (c : CollectionReference) : string := Path.join (col_segments c).

Definition ref_path (r : Reference) : string :=
  match r with
  | IsDocument d => DocumentReference_path d
  | IsCollection c => CollectionReference_path c
  end.

Definition ref_segments (r : Reference) : list string :=
  match r with
  | IsDocument d => doc_segments d
  | IsCollection c => col_segments c
  end.

Definition is_document (r : Reference) : bool :=
  match r with IsDocument _ => true | IsCollection _ => false end.

Definition DocumentReference_qualifiedPath (d : DocumentReference) : string :=
  basePath (doc_firestore d) ++ "/" ++ Path.join (doc_segments d).

Definition CollectionReference_qualifiedPath (c : CollectionReference) : string :=
  basePath (col_firestore c) ++ "/" ++ Path.join (col_segments c).

(** [DocumentReference.collection(path)]. *)
Definition DocumentReference_collection (d : DocumentReference) (path : string)
    : result CollectionReference :=
  newCollectionReference (doc_firestore d)
    (PSegments (doc_segments d ++ Path.split (Path.trim path))) None.

(** [DocumentReference.parent]. *)
Definition DocumentReference_parent (d : DocumentReference) : result CollectionReference :=
  newCollectionReference (doc_firestore d)
    (PString (Path.join (Path.slice_init (Path.split (DocumentReference_path d))))) None.

(** [CollectionReference.parent]. *)
Definition CollectionReference_parent (c : CollectionReference) : result DocumentReference :=
  newDocumentReference (col_firestore c)
    (PString (Path.join (Path.slice_init (Path.split (CollectionReference_path c))))) None.

(** [CollectionReference.doc(path)] applied to a string; [fresh] is what
    [firestore.autoId()] returns should the call reach it ([!path]).  *)
Definition CollectionReference_doc (c : CollectionReference) (path : option string) (fresh : string)
    : result DocumentReference :=
  let path :=
    match path with
    | Some (String _ _ as p) => p
    | Some EmptyString | None => fresh
    end in
  newDocumentReference (col_firestore c)
    (PSegments (col_segments c ++ Path.split (Path.trim path))) None.

(** The same method applied to whatever a caller passed: a falsy argument
    takes the generated id, and [trim] finds no [replace] on a truthy
    non-string. *)
Definition CollectionReference_doc_any (c : CollectionReference) (v : value) (fresh : string)
    : result DocumentReference :=
  match v with
  | VString s => CollectionReference_doc c (Some s) fresh
  | _ => if falsy v then CollectionReference_doc c None fresh
         else Err (TypeError "path.replace is not a function")
  end.

(** ** Structured queries *)

Inductive Direction : Type := ASCENDING | DESCENDING.

(** [OrderByDirection]: the argument of [orderBy]. *)
Inductive OrderByDirection : Type := asc | desc.

Inductive FieldFilterOperator : Type :=
  | LESS_THAN | LESS_THAN_OR_EQUAL | EQUAL | NOT_EQUAL
  | GREATER_THAN | GREATER_THAN_OR_EQUAL
  | ARRAY_CONTAINS | IN | NOT_IN | ARRAY_CONTAINS_ANY.

Inductive UnaryFilterOperator : Type :=
  | IS_NULL | IS_NAN | IS_NOT_NULL | IS_NOT_NAN.

(** [WhereFilterOp]: the operator strings [where] accepts. *)
Inductive WhereFilterOp : Type :=
  | op_lt | op_le | op_eq | op_ne | op_gt | op_ge
  | op_array_contains | op_in | op_not_in | op_array_contains_any.

Record FieldReference : Type := mkField { fieldPath : string }.

Inductive CompositeOperator : Type := AND.

Inductive Filter : Type :=
  | unaryFilter (field : FieldReference) (op : UnaryFilterOperator)
  | fieldFilter (field : FieldReference) (op : FieldFilterOperator) (v : api_Value)
  | compositeFilter (op : CompositeOperator) (filters : list Filter).

Record Order : Type := mkOrder {
  field : FieldReference;
  direction : option Direction;
}.

Record Cursor : Type := mkCursor {
  values : list api_Value;
  before : bool;
}.

Record CollectionSelector : Type := mkSelector { collectionId : option string }.

(** [QueryOptions]: [api.StructuredQuery] extended with [filters] and
    [reverse]. *)
Record QueryOptions : Type := mkQueryOptions {
  select : option (list FieldReference);
  from : list CollectionSelector;
  where_ : option Filter;
  orderBy : list Order;
  startAt : option Cursor;
  endAt : option Cursor;
  offset : option number;
  limit : option number;
  filters : list Filter;
  reverse : bool;
}.

(** What [get] sends: the options without [reverse] and [filters]. *)
Record StructuredQuery : Type := mkStructuredQuery {
  sq_select : option (list FieldReference);
  sq_from : list CollectionSelector;
  sq_where : option Filter;
  sq_orderBy : list Order;
  sq_startAt : option Cursor;
  sq_endAt : option Cursor;
  sq_offset : option number;
  sq_limit : option number;
}.

(** A [Query] object: its anchor [ref] and the state kept under
    [querySymbol]. *)
Record Query : Type := mkQuery {
  ref : CollectionReference;
  state : QueryOptions;
}.

(** The [Query] a [CollectionReference] is: [super(null, { from, filters: [],
    orderBy: [] })] followed by [this.ref = this]. *)
Definition collection_query (c : CollectionReference) : Query :=
  mkQuery c
    {| select := None;
       from := [mkSelector (last (col_segments c))];
       where_ := None; orderBy := []; startAt := None; endAt := None;
       offset := None; limit := None; filters := []; reverse := false |}.

Definition documentId : string := "__name__".

Definition directionOperators (d : option OrderByDirection) : option Direction :=
  match d with
  | Some asc => Some ASCENDING
  | Some desc => Some DESCENDING
  | None => None
  end.

Definition comparisonOperators (op : WhereFilterOp) : FieldFilterOperator :=
  match op with
  | op_lt => LESS_THAN
  | op_le => LESS_THAN_OR_EQUAL
  | op_eq => EQUAL
  | op_ne => NOT_EQUAL
  | op_gt => GREATER_THAN
  | op_ge => GREATER_THAN_OR_EQUAL
  | op_array_contains => ARRAY_CONTAINS
  | op_in => IN
  | op_not_in => NOT_IN
  | op_array_contains_any => ARRAY_CONTAINS_ANY
  end.


(** [unaryOperators[opStr][value]], looked up where [where] uses it: for
    [==] or [!=] and a value that is [null] or [NaN]. *)
Definition unaryOperators (op : WhereFilterOp) (v : value) : option UnaryFilterOperator :=
  match op, v with
  | op_eq, VNull => Some IS_NULL
  | op_eq, VNumber NaN => Some IS_NAN
  | op_ne, VNull => Some IS_NOT_NULL
  | op_ne, VNumber NaN => Some IS_NOT_NAN
  | _, _ => None
  end.

Definition inequalityFilters (op : FieldFilterOperator) : bool :=
  match op with
  | GREATER_THAN | GREATER_THAN_OR_EQUAL | LESS_THAN | LESS_THAN_OR_EQUAL => true
  | _ => false
  end.

(** The functions of [src/firestore/serializer.ts] and
    [src/firestore/document.ts] the query layer calls: their sources are
    not at hand, so the development is parametric in them. *)
Class Codec : Type := {
  encodeValue : value -> api_Value;
  decodePath : string -> string;
  snapshot_get : DocumentSnapshot -> string -> value;
}.

(** ** The query builder *)

Section Builder.
Context `{Codec}.

(** [{ ...this[querySymbol], key: v }] for each key the builder sets. *)
Definition with_filters (o : QueryOptions) (fs : list Filter) : QueryOptions :=
  {| select := select o; from := from o; where_ := where_ o; orderBy := orderBy o;
     startAt := startAt o; endAt := endAt o; offset := offset o; limit := limit o;
     filters := fs; reverse := reverse o |}.

Definition with_select (o : QueryOptions) (s : list FieldReference) : QueryOptions :=
  {| select := Some s; from := from o; where_ := where_ o; orderBy := orderBy o;
     startAt := startAt o; endAt := endAt o; offset := offset o; limit := limit o;
     filters := filters o; reverse := reverse o |}.

Definition with_orderBy (o : QueryOptions) (os : list Order) : QueryOptions :=
  {| select := select o; from := from o; where_ := where_ o; orderBy := os;
     startAt := startAt o; endAt := endAt o; offset := offset o; limit := limit o;
     filters := filters o; reverse := reverse o |}.

Definition with_limit (o : QueryOptions) (n : number) (rev : bool) : QueryOptions :=
  {| select := select o; from := from o; where_ := where_ o; orderBy := orderBy o;
     startAt := startAt o; endAt := endAt o; offset := offset o; limit := Some n;
     filters := filters o; reverse := rev |}.

Definition with_offset (o : QueryOptions) (n : number) : QueryOptions :=
  {| select := select o; from := from o; where_ := where_ o; orderBy := orderBy o;
     startAt := startAt o; endAt := endAt o; offset := Some n; limit := limit o;
     filters := filters o; reverse := reverse o |}.

Definition with_startAt (o : QueryOptions) (c : Cursor) : QueryOptions :=
  {| select := select o; from := from o; where_ := where_ o; orderBy := orderBy o;
     startAt := Some c; endAt := endAt o; offset := offset o; limit := limit o;
     filters := filters o; reverse := reverse o |}.

Definition with_endAt (o : QueryOptions) (c : Cursor) : QueryOptions :=
  {| select := select o; from := from o; where_ := where_ o; orderBy := orderBy o;
     startAt := startAt o; endAt := Some c; offset := offset o; limit := limit o;
     filters := filters o; reverse := reverse o |}.

(** [l.map((v, i) => f(i, v))] with a callback that can throw; the first
    index is [i]. *)
Fixpoint mapR_from {A B : Type} (f : nat -> A -> result B) (i : nat) (l : list A)
    : result (list B) :=
  match l with
  | [] => Ok []
  | x :: xs => y ← f i x; ys ← mapR_from f (S i) xs; Ok (y :: ys)
  end.

(** The operand of [where] on the document-id field: a string, or an
    array whose first element is a string, is resolved against the anchor
    collection.  [ids k] is the [k]-th id the generator hands out during
    the call. *)
Definition resolveDocumentId (ids : nat -> string) (c : CollectionReference)
    (fp : string) (v : value) : result value :=
  if String.eqb fp documentId then
    match v with
    | VString s => VReference <$> CollectionReference_doc c (Some s) (ids 0%nat)
    | VArray (VString _ :: _ as items) =>
        VArray <$> mapR_from (fun k x => VReference <$> CollectionReference_doc_any c x (ids k)) 0 items
    | _ => Ok v
    end
  else Ok v.

(** The filter [where] builds from the resolved operand.
    [unaryOperators op v] is defined exactly when the guard of the source
    holds: [op] is [==] or [!=] and [v] is [null] or [NaN]. *)
Definition makeFilter (fp : string) (op : WhereFilterOp) (v : value) : Filter :=
  match unaryOperators op v with
  | Some u => unaryFilter (mkField fp) u
  | None => fieldFilter (mkField fp) (comparisonOperators op) (encodeValue v)
  end.

(** [Query.where(fieldPath, opStr, value)]. *)
Definition Query_where (ids : nat -> string) (q : Query) (fp : string)
    (op : WhereFilterOp) (v : value) : result Query :=
  match v with
  | VUndefined => Err WhereValueUndefined
  | _ =>
      v' ← resolveDocumentId ids (ref q) fp v;
      Ok (mkQuery (ref q)
            (with_filters (state q) (filters (state q) ++ [makeFilter fp op v'])))
  end.

(** [Query.select(...fieldPaths)]. *)
Definition Query_select (q : Query) (fieldPaths : list string) : Query :=
  let fieldPaths :=
    match fieldPaths with
    | [] => [documentId]
    | _ => fieldPaths
    end in
  mkQuery (ref q) (with_select (state q) (map mkField fieldPaths)).

(** [Query.orderBy(fieldPath, directionStr)]. *)
Definition Query_orderBy (q : Query) (fp : string) (d : option OrderByDirection) : Query :=
  mkQuery (ref q)
    (with_orderBy (state q)
       (orderBy (state q) ++ [mkOrder (mkField fp) (directionOperators d)])).

(** [Query.limit(limit)]: the rest pattern leaves [reverse] out. *)
Definition Query_limit (q : Query) (n : number) : Query :=
  mkQuery (ref q) (with_limit (state q) n false).

(** [Query.limitToLast(limit)]. *)
Definition Query_limitToLast (q : Query) (n : number) : Query :=
  mkQuery (ref q) (with_limit (state q) n true).

(** [Query.offset(offset)]. *)
Definition Query_offset (q : Query) (n : number) : Query :=
  mkQuery (ref q) (with_offset (state q) n).

(** [o.field === FieldPath.documentId]: [o.field] is the object
    [{ fieldPath }] and the right-hand side a string, and strict equality
    of an object with a string is [false]. *)
Definition field_strict_equals (f : FieldReference) (s : string) : bool := false.

(** The first field filter with an inequality operator, as an order
    without direction. *)
Fixpoint firstInequality (fs : list Filter) : list Order :=
  match fs with
  | [] => []
  | fieldFilter f op _ :: rest =>
      if inequalityFilters op then [mkOrder f None] else firstInequality rest
  | _ :: rest => firstInequality rest
  end.

(** [getFieldOrders(query)]. *)
Definition getFieldOrders (o : QueryOptions) : list Order :=
  let fieldOrders := orderBy o in
  let fieldOrders :=
    match fieldOrders with
    | [] => firstInequality (filters o)
    | _ => fieldOrders
    end in
  if negb (existsb (fun x => field_strict_equals (field x) documentId) fieldOrders)
  then fieldOrders ++ [mkOrder (mkField documentId) None]
  else fieldOrders.

(** [extractFieldValues(documentSnapshot, fieldOrders)]. *)
Fixpoint extractFieldValues (s : DocumentSnapshot) (fieldOrders : list Order)
    : result (list value) :=
  match fieldOrders with
  | [] => Ok []
  | o :: rest =>
      v ← (if String.eqb (fieldPath (field o)) documentId
           then Ok (VReference (snap_ref s))
           else match snapshot_get s (fieldPath (field o)) with
                | VUndefined => Err SnapshotFieldMissing
                | fv => Ok fv
                end);
      vs ← extractFieldValues s rest;
      Ok (v :: vs)
  end.

(** The loop of [createCursor]: one encoded value per field value, the
    [i]-th read against the [i]-th field order. *)
Fixpoint cursorValues (ids : nat -> string) (c : CollectionReference)
    (fieldOrders : list Order) (fieldValues : list value) (i : nat)
    {struct fieldValues} : result (list api_Value) :=
  match fieldValues, fieldOrders with
  | [], _ => Ok []
  | _ :: _, [] => Err (TypeError "Cannot read properties of undefined (reading 'field')")
  | fv :: fvs, o :: os =>
      fv' ← (match fv with
             | VString s =>
                 if field_strict_equals (field o) documentId
                 then VReference <$> CollectionReference_doc c (Some s) (ids i)
                 else Ok fv
             | _ => Ok fv
             end);
      match fv' with
      | VUndefined => Err (CursorValueMissing (fieldPath (field o)))
      | _ => vs ← cursorValues ids c os fvs (S i); Ok (encodeValue fv' :: vs)
      end
  end.

(** [Query[createCursorSymbol](cursorValuesOrDocumentSnapshot, before)]. *)
Definition createCursor (ids : nat -> string) (q : Query)
    (args : list value) (before : bool) : result Cursor :=
  let fieldOrders := getFieldOrders (state q) in
  fieldValues ← (match args with
                 | [VSnapshot s] => extractFieldValues s fieldOrders
                 | _ => Ok args
                 end);
  if (length fieldOrders <? length fieldValues)%nat
  then Err TooManyCursorValues
  else vs ← cursorValues ids (ref q) fieldOrders fieldValues 0;
       Ok (mkCursor vs before).

(** [Query.startAt(...values)], [startAfter], [endAt] and [endAfter]. *)
Definition Query_startAt (ids : nat -> string) (q : Query) (args : list value) : result Query :=
  c ← createCursor ids q args true; Ok (mkQuery (ref q) (with_startAt (state q) c)).

Definition Query_startAfter (ids : nat -> string) (q : Query) (args : list value) : result Query :=
  c ← createCursor ids q args false; Ok (mkQuery (ref q) (with_startAt (state q) c)).

Definition Query_endAt (ids : nat -> string) (q : Query) (args : list value) : result Query :=
  c ← createCursor ids q args true; Ok (mkQuery (ref q) (with_endAt (state q) c)).

Definition Query_endAfter (ids : nat -> string) (q : Query) (args : list value) : result Query :=
  c ← createCursor ids q args false; Ok (mkQuery (ref q) (with_endAt (state q) c)).

End Builder.

(** ** The remote service

    What the store sends through [request] and what comes back.  *)

(** Modelled from the spec: [api.Write] of [src/firestore/types.ts], a
    variant over create, set (with an optional merge mask), update and
    delete, each with the qualified path of its target (section 3). *)
Inductive Write : Type :=
  | WriteCreate (target : string) (data : list (string * api_Value))
  | WriteSet (target : string) (data : list (string * api_Value))
             (mask : option (list string))
  | WriteUpdate (target : string) (data : list (string * api_Value))
  | WriteDelete (target : string).

Inductive RequestBody : Type :=
  | BeginTransactionRequest (options : option TransactionOptions)
  | CommitRequest (writes : option (list Write)) (transaction : option string)
  | BatchGetRequest (documents : list string) (mask : option (list string))
                    (newTransaction : option TransactionOptions)
                    (readTime : option string)
                    (transaction : option string)
  | RunQueryRequest (structuredQuery : StructuredQuery) (transaction : option string).

Record Request : Type := mkRequest {
  req_path : string;
  req_body : RequestBody;
}.

Record BatchGetResponse : Type := mkBatchGetResponse {
  found : option Document;
  missing : option string;
  bg_readTime : option string;
}.

Record RunQueryResponse : Type := mkRunQueryResponse {
  document : option Document;
  rq_readTime : option string;
  skippedResults : option Z;
  rq_error : option string;
}.

Inductive Response : Type :=
  | BeginTransactionResponse (transaction : option string)
  | CommitResponse
  | BatchGetResponses (l : list BatchGetResponse)
  | RunQueryResponses (l : list RunQueryResponse).

(** The world outside the store: the service, which answers a request
    knowing all earlier ones (or makes [request] throw), and the id
    generator behind [autoId], by the number of the draw. *)
Class Runtime : Type := {
  fetch : list Request -> Request -> result Response;
  createId : nat -> string;
}.

(** The mutable side of a [Firestore] instance: the fields under
    [transactionSymbol] and [writesSymbol], with the requests sent so far
    and the number of ids drawn. *)
Record Store : Type := mkStore {
  config : Firestore;
  transaction : option string;
  writes : option (list Write);
  log : list Request;
  drawn : nat;
}.

(** [new Firestore(settings, apiKey)], with [basePath] already built. *)
Definition newStore (fs : Firestore) : Store := mkStore fs None None [] 0.

Definition set_transaction (st : Store) (t : option string) (w : option (list Write))
    : Store :=
  mkStore (config st) t w (log st) (drawn st).

Definition add_drawn (st : Store) (n : nat) : Store :=
  mkStore (config st) (transaction st) (writes st) (log st) (drawn st + n).

Record QuerySnapshot : Type := mkQuerySnapshot {
  qs_query : Query;
  qs_readTime : option string;
  size : nat;
  docs : list DocumentSnapshot;
}.

Section Remote.
Context `{Codec} `{Runtime}.

(** [Firestore.request(method, path, body)]: the path is put under
    [basePath], with a slash unless it starts with [:] or [/]. *)
Definition request_path (fs : Firestore) (path : string) : string :=
  match path with
  | EmptyString => basePath fs ++ path
  | String c _ =>
      if Ascii.eqb c ":"%char || Ascii.eqb c "/"%char
      then basePath fs ++ path
      else basePath fs ++ "/" ++ path
  end.

Definition request (st : Store) (path : string) (body : RequestBody)
    : result Response * Store :=
  let r := mkRequest (request_path (config st) path) body in
  (fetch (log st) r,
   mkStore (config st) (transaction st) (writes st) (log st ++ [r]) (drawn st)).

(** *** [Firestore.batchGet] *)

(** [result.missing || result.found.name]. *)
Definition result_key (r : BatchGetResponse) : result string :=
  match missing r with
  | Some (String _ _ as m) => Ok m
  | _ => match found r with
         | Some d => Ok (name d)
         | None => Err (TypeError "Cannot read properties of undefined (reading 'name')")
         end
  end.

(** [response.forEach(result => docMap.set(key, result))]. *)
Fixpoint fill_docMap (docMap : gmap string BatchGetResponse)
    (response : list BatchGetResponse) : result (gmap string BatchGetResponse) :=
  match response with
  | [] => Ok docMap
  | r :: rest => k ← result_key r; fill_docMap (<[k := r]> docMap) rest
  end.

(** [result.missing ? null : result.found]. *)
Definition result_document (res : BatchGetResponse) : option Document :=
  match missing res with
  | Some (String _ _) => None
  | _ => found res
  end.

(** The callback of [request.documents.map]: [name] is the qualified path
    of [refs[i]]. *)
Definition snapshot_of (docMap : gmap string BatchGetResponse)
    (r : DocumentReference) : result DocumentSnapshot :=
  match docMap !! DocumentReference_qualifiedPath r with
  | None => Err (TypeError "Cannot read properties of undefined (reading 'missing')")
  | Some res => Ok (mkDocumentSnapshot r (result_document res) (bg_readTime res))
  end.

(** [{ documents, mask, ...consistency, transaction: this[transactionSymbol] }]:
    the key written last replaces a [transaction] spread from
    [consistency]. *)
Definition batchGet_request (st : Store) (refs : list DocumentReference)
    (fields : option (list string)) (consistency : option ConsistencyOptions)
    : RequestBody :=
  BatchGetRequest (map DocumentReference_qualifiedPath refs) fields
    (consistency ≫= c_newTransaction) (consistency ≫= c_readTime)
    (transaction st).

Definition Firestore_batchGet (st : Store) (refs : list DocumentReference)
    (fields : option (list string)) (consistency : option ConsistencyOptions)
    : result (list DocumentSnapshot) * Store :=
  let '(r, st') := request st ":batchGet" (batchGet_request st refs fields consistency) in
  (resp ← r;
   match resp with
   | BatchGetResponses response =>
       docMap ← fill_docMap ∅ response;
       mapR (snapshot_of docMap) refs
   | _ => Err (TypeError "response.forEach is not a function")
   end, st').


(** *** [Query.get] *)

(** [direction === 'DESCENDING' ? 'ASCENDING' : 'DESCENDING']. *)
Definition flip_direction (d : option Direction) : option Direction :=
  match d with
  | Some DESCENDING => Some ASCENDING
  | _ => Some DESCENDING
  end.

Definition flip_order (o : Order) : Order :=
  mkOrder (field o) (flip_direction (direction o)).

(** [c ? { values: c.values, before: !c.before } : undefined]. *)
Definition flip_cursor (c : option Cursor) : option Cursor :=
  match c with
  | Some c => Some (mkCursor (values c) (negb (before c)))
  | None => None
  end.

(** The first statements of [get], up to the request: the structured
    query built from the state.  In the reverse branch the second
    assignment reads [query.startAt] after the first has written it. *)
Definition compile (o : QueryOptions) : result StructuredQuery :=
  let where' :=
    match filters o with
    | [] => where_ o
    | [f] => Some f
    | fs => Some (compositeFilter AND fs)
    end in
  if reverse o then
    match orderBy o with
    | [] => Err LimitToLastWithoutOrderBy
    | _ =>
        let orderBy' := map flip_order (orderBy o) in
        let startAt' := flip_cursor (endAt o) in
        let endAt' := flip_cursor startAt' in
        Ok (mkStructuredQuery (select o) (from o) where' orderBy' startAt' endAt'
              (offset o) (limit o))
    end
  else
    Ok (mkStructuredQuery (select o) (from o) where' (orderBy o) (startAt o) (endAt o)
          (offset o) (limit o)).

(** [s.replace(pattern, '')] with a string pattern: the first occurrence
    goes. *)
Fixpoint replace_first (pattern s : string) : string :=
  if String.prefix pattern s
  then String.substring (String.length pattern)
         (String.length s - String.length pattern) s
  else match s with
       | EmptyString => EmptyString
       | String c s' => String c (replace_first pattern s')
       end.

(** [Boolean(n)] on [skippedResults]. *)
Definition truthy_count (n : option Z) : bool :=
  match n with
  | Some z => negb (z =? 0)%Z
  | None => false
  end.

(** The callback of [response.filter(e => e.document).map(...)], on an
    entry that has a document. *)
Definition materialize (c : CollectionReference) (d : Document)
    (readTime : option string) (fresh : string) : result DocumentSnapshot :=
  r ← CollectionReference_doc c
        (Some (replace_first (CollectionReference_path c) (decodePath (name d)))) fresh;
  Ok (mkDocumentSnapshot r (Some d) readTime).

Fixpoint materialize_all (ids : nat -> string) (c : CollectionReference)
    (response : list RunQueryResponse) (i : nat) : result (list DocumentSnapshot) :=
  match response with
  | [] => Ok []
  | e :: rest =>
      match document e with
      | None => materialize_all ids c rest i
      | Some d =>
          s ← materialize c d (rq_readTime e) (ids i);
          ss ← materialize_all ids c rest (S i);
          Ok (s :: ss)
      end
  end.

(** The statements of [get] after the request. *)
Definition process (ids : nat -> string) (q : Query) (response : list RunQueryResponse)
    : result QuerySnapshot :=
  match response with
  | [] => Err (TypeError "Cannot read properties of undefined (reading 'readTime')")
  | first :: rest =>
      let readTime := rq_readTime first in
      match rq_error first with
      | Some msg => Err (ResultError msg)
      | None =>
          let response := if truthy_count (skippedResults first) then rest else response in
          let response := if reverse (state q) then rev response else response in
          ds ← materialize_all ids (ref q) response 0;
          Ok (mkQuerySnapshot q readTime (length response) ds)
      end
  end.

(** [Query.get()], on the store the anchor belongs to. *)
Definition Query_get (st : Store) (q : Query) : result QuerySnapshot * Store :=
  match compile (state q) with
  | Err e => (Err e, st)
  | Ok sq =>
      match CollectionReference_parent (ref q) with
      | Err e => (Err e, st)
      | Ok parent =>
          let '(r, st') :=
            request st (DocumentReference_path parent ++ ":runQuery")
              (RunQueryRequest sq (transaction st)) in
          match r with
          | Err e => (Err e, st')
          | Ok (RunQueryResponses response) =>
              (process (fun i => createId (drawn st' + i)) q response,
               add_drawn st' (length response))
          | Ok _ => (Err (TypeError "response is not an array"), st')
          end
      end
  end.

End Remote.

(** ** Transactions *)

(** The body handed to [runTransaction], as the store sees it: the calls it
    makes on the store, each continued with what the call gave (a value or
    a thrown error the body may catch), until it returns or throws.  A
    body does not start a transaction of its own and runs alone on its
    store: the specification leaves nested and concurrent transactions
    undefined. *)
Inductive Body (T : Type) : Type :=
  | Return (t : T)
  | Throw (e : error)
  | CallBatchGet (refs : list DocumentReference) (fields : option (list string))
                 (consistency : option ConsistencyOptions)
                 (k : result (list DocumentSnapshot) -> Body T)
  | CallGet (q : Query) (k : result QuerySnapshot -> Body T)
  | CallWrite (w : Write) (k : Body T).
Arguments Return {T} t.
Arguments Throw {T} e.
Arguments CallBatchGet {T} refs fields consistency k.
Arguments CallGet {T} q k.
Arguments CallWrite {T} w k.

Section Transactions.
Context `{Codec} `{Runtime}.

(** Modelled from the spec: [src/firestore/write-batch.ts] is not at
    hand; inside a transaction a write is not sent but appended to the
    store's pending-writes list (section 4.6). *)
Definition buffer_write (st : Store) (w : Write) : Store :=
  set_transaction st (transaction st) ((fun ws => ws ++ [w]) <$> writes st).

(** [await updateFunction()]. *)
Fixpoint run_body {T : Type} (b : Body T) (st : Store) : result T * Store :=
  match b with
  | Return t => (Ok t, st)
  | Throw e => (Err e, st)
  | CallBatchGet refs fields consistency k =>
      let '(r, st') := Firestore_batchGet st refs fields consistency in
      run_body (k r) st'
  | CallGet q k =>
      let '(r, st') := Query_get st q in
      run_body (k r) st'
  | CallWrite w k => run_body k (buffer_write st w)
  end.

(** [Firestore.runTransaction(updateFunction, options)]. *)
Definition Firestore_runTransaction {T : Type} (st : Store) (updateFunction : Body T)
    (options : option TransactionOptions) : result T * Store :=
  let '(r, st) := request st ":beginTransaction" (BeginTransactionRequest options) in
  match r with
  | Err e => (Err e, st)
  | Ok resp =>
      let token := match resp with
                   | BeginTransactionResponse t => t
                   | _ => None
                   end in
      let st := set_transaction st token (Some []) in
      let '(result, st) := run_body updateFunction st in
      match result with
      | Err e => (Err e, st)
      | Ok result =>
          let '(c, st) :=
            request st ":commit" (CommitRequest (writes st) (transaction st)) in
          match c with
          | Err e => (Err e, st)
          | Ok _ => (Ok result, set_transaction st None None)
          end
      end
  end.

End Transactions.

(** ** The specification's reading of a path

    The normalized form the specification speaks of: slashes trimmed at
    both ends and empty segments removed.  It is what the constructor of
    [DocumentReference] computes from a string. *)
Definition spec_normalized_segments (path : PathArg) : list string :=
  match path with
  | PString s => Path.filter_Boolean (Path.split (Path.trim s))
  | PSegments l => Path.filter_Boolean l
  end.

Definition spec_normalized_path (path : PathArg) : string :=
  Path.join (spec_normalized_segments path).

(** ** Vocabulary of the statements *)

(** [x] is a field filter on [f] with one of the four inequality
    operators. *)
Definition is_inequality_on (f : FieldReference) (x : Filter) : Prop :=
  exists op v, x = fieldFilter f op v /\ inequalityFilters op = true.

(** The arguments of a cursor method are literal values, not the single
    document snapshot. *)
Definition literal_values (args : list value) : Prop :=
  forall s, args <> [VSnapshot s].


(** [q] with one more filter. *)
Definition add_filter (q : Query) (f : Filter) : Query :=
  mkQuery (ref q) (with_filters (state q) (filters (state q) ++ [f])).


(** No document of the response resolves to the empty path under the
    collection, for which [doc] would generate an id. *)
Definition no_generated_ids `{Codec} (c : CollectionReference)
    (response : list RunQueryResponse) : Prop :=
  forall e d, In e response -> document e = Some d ->
    replace_first (CollectionReference_path c) (decodePath (name d)) <> "".

(** Snapshot [a] holds the documents of snapshot [b] in the opposite order,
    with the same size and read time. *)
Definition same_in_reverse (a b : QuerySnapshot) : Prop :=
  docs a = rev (docs b) /\ size a = size b /\ qs_readTime a = qs_readTime b.

(** A request body carries the transaction token [tok]. *)
Definition carries (tok : string) (r : Request) : Prop :=
  match req_body r with
  | BeginTransactionRequest _ => False
  | CommitRequest _ t | BatchGetRequest _ _ _ _ t | RunQueryRequest _ t => t = Some tok
  end.

(** The documents of a response with their read times, in order. *)
Definition documents_of (response : list RunQueryResponse)
    : list (Document * option string) :=
  flat_map (fun e => match document e with
                     | Some d => [(d, rq_readTime e)]
                     | None => []
                     end) response.

(** ** A concrete codec, service and data set, to evaluate the code on *)

Module Example.

Definition store_config : Firestore :=
  mkFirestore "projects/demo/databases/(default)/documents".

(** Modelled from the spec: [encodeValue] of
    [src/firestore/serializer.ts], each value tagged with its wire type
    (section 4.2). *)
Fixpoint encode (v : value) : api_Value :=
  match v with
  | VUndefined | VNull | VSnapshot _ => nullValue
  | VBoolean b => booleanValue b
  | VNumber (Finite z 1) => integerValue z
  | VNumber n => doubleValue n
  | VString s => stringValue s
  | VArray items => arrayValue (map encode items)
  | VObject props => mapValue (map (fun p => (fst p, encode (snd p))) props)
  | VReference r => referenceValue (DocumentReference_qualifiedPath r)
  end.

(** Modelled from the spec: [DocumentSnapshot.get] of
    [src/firestore/document.ts] on a top-level field, [undefined] when
    the field is absent (section 3). *)
Definition get (s : DocumentSnapshot) (fp : string) : value :=
  match snap_doc s with
  | None => VUndefined
  | Some d =>
      match List.find (fun p => String.eqb (fst p) fp) (fields d) with
      | Some (_, integerValue z) => VNumber (Finite z 1)
      | Some (_, stringValue x) => VString x
      | Some (_, booleanValue b) => VBoolean b
      | Some (_, _) => VNull
      | None => VUndefined
      end
  end.

(** [decodePath]: the document name without the prefix of the database. *)
Definition decode (qualified : string) : string :=
  replace_first (basePath store_config ++ "/") qualified.

#[export] Instance codec : Codec :=
  {| encodeValue := encode; decodePath := decode; snapshot_get := get |}.

Definition users : CollectionReference :=
  mkCollectionReference store_config ["users"] None.

Definition no_ids : nat -> string := fun _ => "generated".

(** *** A small query engine

    It holds four documents of the collection [users], sorts them by the
    ordering clauses of the structured query (integer fields, compared
    clause by clause) and keeps the first [limit]; filters, cursors and
    offset are not interpreted.  [batchGet] answers in the opposite of the
    requested order. *)

Definition qualified (id : string) : string :=
  basePath store_config ++ "/users/" ++ id.

Definition user (id : string) (x y : Z) : Document :=
  mkDocument (qualified id) [("x", integerValue x); ("y", integerValue y)].

Definition data : list Document :=
  [user "u1" 1 1; user "u2" 2 2; user "u3" 3 1; user "u4" 4 2].

Definition field_of (d : Document) (fp : string) : Z :=
  match List.find (fun p => String.eqb (fst p) fp) (fields d) with
  | Some (_, integerValue z) => z
  | _ => 0
  end.

Fixpoint compare_by (os : list Order) (a b : Document) : comparison :=
  match os with
  | [] => Eq
  | o :: rest =>
      let c := Z.compare (field_of a (fieldPath (field o))) (field_of b (fieldPath (field o))) in
      let c := match direction o with Some DESCENDING => CompOpp c | _ => c end in
      match c with
      | Eq => compare_by rest a b
      | _ => c
      end
  end.

Fixpoint insert_by (os : list Order) (d : Document) (l : list Document) : list Document :=
  match l with
  | [] => [d]
  | e :: rest =>
      match compare_by os d e with
      | Gt => e :: insert_by os d rest
      | _ => d :: l
      end
  end.

Definition sort_by (os : list Order) (l : list Document) : list Document :=
  fold_right (insert_by os) [] l.

Definition keep (n : option number) (l : list Document) : list Document :=
  match n with
  | Some (Finite z 1) => firstn (Z.to_nat z) l
  | _ => l
  end.

Definition entry (d : Document) : RunQueryResponse :=
  mkRunQueryResponse (Some d) (Some "t0") None None.

Definition runQuery (sq : StructuredQuery) : list RunQueryResponse :=
  match keep (sq_limit sq) (sort_by (sq_orderBy sq) data) with
  | [] => [mkRunQueryResponse None (Some "t0") None None]
  | ds => map entry ds
  end.

Definition lookup (qname : string) : BatchGetResponse :=
  match List.find (fun d => String.eqb (name d) qname) data with
  | Some d => mkBatchGetResponse (Some d) None (Some "t0")
  | None => mkBatchGetResponse None (Some qname) (Some "t0")
  end.

Definition serve (history : list Request) (r : Request) : result Response :=
  match req_body r with
  | BeginTransactionRequest _ => Ok (BeginTransactionResponse (Some "tx-1"))
  | CommitRequest _ _ => Ok CommitResponse
  | BatchGetRequest documents _ _ _ _ => Ok (BatchGetResponses (rev (map lookup documents)))
  | RunQueryRequest sq _ => Ok (RunQueryResponses (runQuery sq))
  end.

#[export] Instance runtime : Runtime :=
  {| fetch := serve; createId := fun _ => "generated" |}.

Definition store : Store := newStore store_config.

End Example.

(** ** The builder on the object store

    The query objects as JavaScript has them: a [Query] points to the
    options object kept under [querySymbol], which points to its arrays and
    cursors.  A spread copies these pointers, so a query and the queries
    derived from it share arrays; [push] writes an array in place. *)

Module Heap.

Abbreviation loc := positive.

Record Options : Type := mkOptions {
  o_select : option (list FieldReference);
  o_from : list CollectionSelector;
  o_where : option Filter;
  o_orderBy : loc;
  o_startAt : option loc;
  o_endAt : option loc;
  o_offset : option number;
  o_limit : option number;
  o_filters : loc;
  o_reverse : bool;
}.

Inductive cell : Type :=
  | FilterArray (l : list Filter)
  | OrderArray (l : list Order)
  | StringArray (l : list string)
  | ValueArray (l : list api_Value)
  | CursorObject (values : loc) (before : bool)
  | OptionsObject (o : Options)
  | QueryObject (ref : CollectionReference) (options : loc).

Abbreviation heap := (gmap positive cell).

(** A computation on the store: a value or a thrown error, and the store
    it leaves. *)
Definition M (A : Type) : Type := heap -> result A * heap.

Definition ret {A : Type} (a : A) : M A := fun h => (Ok a, h).

Definition throw {A : Type} (e : error) : M A := fun h => (Err e, h).

Definition lift {A : Type} (r : result A) : M A := fun h => (r, h).

Definition bindM {A B : Type} (m : M A) (k : A -> M B) : M B :=
  fun h => match m h with
           | (Ok a, h') => k a h'
           | (Err e, h') => (Err e, h')
           end.

#[export] Instance M_ret : MRet M := @ret.
#[export] Instance M_bind : MBind M := fun A B k m => bindM m k.

(** A new object. *)
Definition alloc (c : cell) : M loc :=
  fun h => let l := fresh (dom h) in (Ok l, <[l := c]> h).

Definition load (l : loc) : M cell :=
  fun h => match h !! l with
           | Some c => (Ok c, h)
           | None => (Err (TypeError "undefined"), h)
           end.

(** An object written in place. *)
Definition store (l : loc) (c : cell) : M unit :=
  fun h => (Ok tt, <[l := c]> h).

Definition load_filters (l : loc) : M (list Filter) :=
  c ← load l; match c with FilterArray x => ret x | _ => throw (TypeError "filters") end.

Definition load_orders (l : loc) : M (list Order) :=
  c ← load l; match c with OrderArray x => ret x | _ => throw (TypeError "orderBy") end.

Definition load_strings (l : loc) : M (list string) :=
  c ← load l; match c with StringArray x => ret x | _ => throw (TypeError "fieldPaths") end.

Definition load_values (l : loc) : M (list api_Value) :=
  c ← load l; match c with ValueArray x => ret x | _ => throw (TypeError "values") end.

Definition load_options (l : loc) : M Options :=
  c ← load l; match c with OptionsObject o => ret o | _ => throw (TypeError "options") end.

Definition load_query (l : loc) : M (CollectionReference * loc) :=
  c ← load l;
  match c with QueryObject r o => ret (r, o) | _ => throw (TypeError "query") end.

(** [array.push(x)]. *)
Definition push_order (l : loc) (x : Order) : M unit :=
  xs ← load_orders l; store l (OrderArray (xs ++ [x])).

Definition push_string (l : loc) (x : string) : M unit :=
  xs ← load_strings l; store l (StringArray (xs ++ [x])).

Definition push_value (l : loc) (x : api_Value) : M unit :=
  xs ← load_values l; store l (ValueArray (xs ++ [x])).

Section Methods.
Context `{Codec}.

(** [getFieldOrders(query)]: the copy made by [slice] is what the two
    [push] calls write. *)
Definition getFieldOrders (o : Options) : M loc :=
  explicit ← load_orders (o_orderBy o);
  fieldOrders ← alloc (OrderArray explicit);
  _ ← match explicit with
      | [] =>
          fs ← load_filters (o_filters o);
          match firstInequality fs with
          | first :: _ => push_order fieldOrders first
          | [] => ret tt
          end
      | _ => ret tt
      end;
  current ← load_orders fieldOrders;
  _ ← (if negb (existsb (fun x => field_strict_equals (field x) documentId) current)
       then push_order fieldOrders (mkOrder (mkField documentId) None)
       else ret tt);
  ret fieldOrders.

(** The loop of [createCursor], pushing onto [cursor.values]. *)
Fixpoint cursorLoop (ids : nat -> string) (c : CollectionReference)
    (fieldOrders : list Order) (fieldValues : list value) (i : nat) (vals : loc)
    {struct fieldValues} : M unit :=
  match fieldValues, fieldOrders with
  | [], _ => ret tt
  | _ :: _, [] => throw (TypeError "Cannot read properties of undefined (reading 'field')")
  | fv :: fvs, o :: os =>
      fv' ← lift (match fv with
                  | VString s =>
                      if field_strict_equals (field o) documentId
                      then VReference <$> CollectionReference_doc c (Some s) (ids i)
                      else Ok fv
                  | _ => Ok fv
                  end);
      match fv' with
      | VUndefined => throw (CursorValueMissing (fieldPath (field o)))
      | _ => _ ← push_value vals (encodeValue fv');
             cursorLoop ids c os fvs (S i) vals
      end
  end.

(** [this[createCursorSymbol](args, before)]. *)
Definition createCursor (ids : nat -> string) (c : CollectionReference) (o : Options)
    (args : list value) (before : bool) : M loc :=
  fo ← getFieldOrders o;
  fieldOrders ← load_orders fo;
  fieldValues ← lift (match args with
                      | [VSnapshot s] => extractFieldValues s fieldOrders
                      | _ => Ok args
                      end);
  if (length fieldOrders <? length fieldValues)%nat
  then throw TooManyCursorValues
  else vals ← alloc (ValueArray []);
       cursor ← alloc (CursorObject vals before);
       _ ← cursorLoop ids c fieldOrders fieldValues 0 vals;
       ret cursor.

(** [new Query(this.ref, { ...this[querySymbol], ... })]: the options are
    read, the changed copy and the new query are new objects. *)
Definition derive (this : loc) (change : CollectionReference -> Options -> M Options)
    : M loc :=
  q ← load_query this;
  o ← load_options q.2;
  o' ← change q.1 o;
  options ← alloc (OptionsObject o');
  alloc (QueryObject q.1 options).

Definition set_filters (o : Options) (l : loc) : Options :=
  mkOptions (o_select o) (o_from o) (o_where o) (o_orderBy o) (o_startAt o) (o_endAt o)
    (o_offset o) (o_limit o) l (o_reverse o).

Definition set_select (o : Options) (s : list FieldReference) : Options :=
  mkOptions (Some s) (o_from o) (o_where o) (o_orderBy o) (o_startAt o) (o_endAt o)
    (o_offset o) (o_limit o) (o_filters o) (o_reverse o).

Definition set_orderBy (o : Options) (l : loc) : Options :=
  mkOptions (o_select o) (o_from o) (o_where o) l (o_startAt o) (o_endAt o)
    (o_offset o) (o_limit o) (o_filters o) (o_reverse o).

Definition set_limit (o : Options) (n : number) (rev : bool) : Options :=
  mkOptions (o_select o) (o_from o) (o_where o) (o_orderBy o) (o_startAt o) (o_endAt o)
    (o_offset o) (Some n) (o_filters o) rev.

Definition set_offset (o : Options) (n : number) : Options :=
  mkOptions (o_select o) (o_from o) (o_where o) (o_orderBy o) (o_startAt o) (o_endAt o)
    (Some n) (o_limit o) (o_filters o) (o_reverse o).

Definition set_startAt (o : Options) (l : loc) : Options :=
  mkOptions (o_select o) (o_from o) (o_where o) (o_orderBy o) (Some l) (o_endAt o)
    (o_offset o) (o_limit o) (o_filters o) (o_reverse o).

Definition set_endAt (o : Options) (l : loc) : Options :=
  mkOptions (o_select o) (o_from o) (o_where o) (o_orderBy o) (o_startAt o) (Some l)
    (o_offset o) (o_limit o) (o_filters o) (o_reverse o).

Definition Query_where (ids : nat -> string) (this : loc) (fp : string)
    (op : WhereFilterOp) (v : value) : M loc :=
  match v with
  | VUndefined => throw WhereValueUndefined
  | _ =>
      derive this (fun r o =>
        v' ← lift (resolveDocumentId ids r fp v);
        fs ← load_filters (o_filters o);
        filters ← alloc (FilterArray (fs ++ [makeFilter fp op v']));
        ret (set_filters o filters))
  end.

Definition Query_select (this : loc) (fieldPaths : list string) : M loc :=
  args ← alloc (StringArray fieldPaths);
  given ← load_strings args;
  _ ← match given with
      | [] => push_string args documentId
      | _ => ret tt
      end;
  derive this (fun r o =>
    paths ← load_strings args;
    ret (set_select o (map mkField paths))).

Definition Query_orderBy (this : loc) (fp : string) (d : option OrderByDirection)
    : M loc :=
  derive this (fun r o =>
    os ← load_orders (o_orderBy o);
    orders ← alloc (OrderArray (os ++ [mkOrder (mkField fp) (directionOperators d)]));
    ret (set_orderBy o orders)).

Definition Query_limit (this : loc) (n : number) : M loc :=
  derive this (fun r o => ret (set_limit o n false)).

Definition Query_limitToLast (this : loc) (n : number) : M loc :=
  derive this (fun r o => ret (set_limit o n true)).

Definition Query_offset (this : loc) (n : number) : M loc :=
  derive this (fun r o => ret (set_offset o n)).

Definition Query_startAt (ids : nat -> string) (this : loc) (args : list value) : M loc :=
  derive this (fun r o => c ← createCursor ids r o args true; ret (set_startAt o c)).

Definition Query_startAfter (ids : nat -> string) (this : loc) (args : list value)
    : M loc :=
  derive this (fun r o => c ← createCursor ids r o args false; ret (set_startAt o c)).

Definition Query_endAt (ids : nat -> string) (this : loc) (args : list value) : M loc :=
  derive this (fun r o => c ← createCursor ids r o args true; ret (set_endAt o c)).

Definition Query_endAfter (ids : nat -> string) (this : loc) (args : list value)
    : M loc :=
  derive this (fun r o => c ← createCursor ids r o args false; ret (set_endAt o c)).

End Methods.

(** A call of a builder method, with its arguments. *)
Inductive call : Type :=
  | DoWhere (fp : string) (op : WhereFilterOp) (v : value)
  | DoSelect (fieldPaths : list string)
  | DoOrderBy (fp : string) (d : option OrderByDirection)
  | DoLimit (n : number)
  | DoLimitToLast (n : number)
  | DoOffset (n : number)
  | DoStartAt (args : list value)
  | DoStartAfter (args : list value)
  | DoEndAt (args : list value)
  | DoEndAfter (args : list value).

Definition run_call `{Codec} (ids : nat -> string) (c : call) (this : loc) : M loc :=
  match c with
  | DoWhere fp op v => Query_where ids this fp op v
  | DoSelect fieldPaths => Query_select this fieldPaths
  | DoOrderBy fp d => Query_orderBy this fp d
  | DoLimit n => Query_limit this n
  | DoLimitToLast n => Query_limitToLast this n
  | DoOffset n => Query_offset this n
  | DoStartAt args => Query_startAt ids this args
  | DoStartAfter args => Query_startAfter ids this args
  | DoEndAt args => Query_endAt ids this args
  | DoEndAfter args => Query_endAfter ids this args
  end.

(** [new CollectionReference(...)] as an object: [super(null, { from,
    filters: [], orderBy: [] })]. *)
Definition newCollection (c : CollectionReference) : M loc :=
  filters ← alloc (FilterArray []);
  orders ← alloc (OrderArray []);
  options ← alloc (OptionsObject
                     (mkOptions None [mkSelector (last (col_segments c))] None orders
                        None None None None filters false));
  alloc (QueryObject c options).

(** *** Reading a query back from the store *)

Definition read_cursor (h : heap) (l : option loc) : option (option Cursor) :=
  match l with
  | None => Some None
  | Some l =>
      match h !! l with
      | Some (CursorObject vl b) =>
          match h !! vl with
          | Some (ValueArray vs) => Some (Some (mkCursor vs b))
          | _ => None
          end
      | _ => None
      end
  end.

Definition read_options (h : heap) (o : Options) : option QueryOptions :=
  match h !! o_orderBy o, h !! o_filters o,
        read_cursor h (o_startAt o), read_cursor h (o_endAt o) with
  | Some (OrderArray os), Some (FilterArray fs), Some sa, Some ea =>
      Some (mkQueryOptions (o_select o) (o_from o) (o_where o) os sa ea
              (o_offset o) (o_limit o) fs (o_reverse o))
  | _, _, _, _ => None
  end.

(** The query state of the object at [l], read through its pointers. *)
Definition read_query (h : heap) (l : loc) : option Query :=
  match h !! l with
  | Some (QueryObject r ol) =>
      match h !! ol with
      | Some (OptionsObject o) => mkQuery r <$> read_options h o
      | _ => None
      end
  | _ => None
  end.

(** A computation keeps the objects of [h0] as they are, whatever store
    containing them it starts from, and its result satisfies [Q]. *)
Definition preserves {A : Type} (h0 : heap) (m : M A) (Q : A -> Prop) : Prop :=
  forall h, h0 ⊆ h -> h0 ⊆ (m h).2 /\ forall a, (m h).1 = Ok a -> Q a.

End Heap.

(** The same call on the query as a value. *)
Definition pure_call `{Codec} (ids : nat -> string) (c : Heap.call) (q : Query) : result Query :=
  match c with
  | Heap.DoWhere fp op v => Query_where ids q fp op v
  | Heap.DoSelect fieldPaths => Ok (Query_select q fieldPaths)
  | Heap.DoOrderBy fp d => Ok (Query_orderBy q fp d)
  | Heap.DoLimit n => Ok (Query_limit q n)
  | Heap.DoLimitToLast n => Ok (Query_limitToLast q n)
  | Heap.DoOffset n => Ok (Query_offset q n)
  | Heap.DoStartAt args => Query_startAt ids q args
  | Heap.DoStartAfter args => Query_startAfter ids q args
  | Heap.DoEndAt args => Query_endAt ids q args
  | Heap.DoEndAfter args => Query_endAfter ids q args
  end.

(** The outcome of a method on the store against the outcome of the method
    on the value [q]: the same error, or a new object that reads as the
    new value. *)
Definition refines_query (out : result positive * gmap positive Heap.cell)
    (pure : result Query) : Prop :=
  match out.1, pure with
  | Ok l, Ok q' => Heap.read_query out.2 l = Some q'
  | Err e, Err e' => e = e'
  | _, _ => False
  end.

Definition refines_options (out : result Heap.Options * gmap positive Heap.cell)
    (pure : result QueryOptions) : Prop :=
  match out.1, pure with
  | Ok o', Ok s' => Heap.read_options out.2 o' = Some s'
  | Err e, Err e' => e = e'
  | _, _ => False
  end.

Definition refines_cursor (out : result positive * gmap positive Heap.cell)
    (pure : result Cursor) : Prop :=
  match out.1, pure with
  | Ok l, Ok c => Heap.read_cursor out.2 (Some l) = Some (Some c)
  | Err e, Err e' => e = e'
  | _, _ => False
  end.

(** ** Further methods of the reference layer *)

(** A string without slash. *)
Fixpoint no_slash (s : string) : bool :=
  match s with
  | EmptyString => true
  | String c s' => negb (Ascii.eqb c Path.slash) && no_slash s'
  end.

(** A segment as a well-formed path has them: not empty and without
    slash. *)
Definition clean (s : string) : bool := Path.truthy s && no_slash s.

(** [segments[segments.length - 1] || null]. *)
Definition last_or_null (segments : list string) : option string :=
  match last segments with
  | Some (String _ _ as s) => Some s
  | _ => None
  end.

(** [DocumentReference.id] and [CollectionReference.id]. *)
Definition DocumentReference_id (d : DocumentReference) : option string :=
  last_or_null (doc_segments d).

Definition CollectionReference_id (c : CollectionReference) : option string :=
  last_or_null (col_segments c).

(** [CollectionReference.collection(path)]. *)
Definition CollectionReference_collection (c : CollectionReference) (path : string)
    : result CollectionReference :=
  newCollectionReference (col_firestore c)
    (PSegments (col_segments c ++ Path.split (Path.trim path))) None.

(** [Firestore.collection(path)] and [Firestore.doc(path)]. *)
Definition Firestore_collection (fs : Firestore) (path : string)
    : result CollectionReference :=
  newCollectionReference fs (PString path) None.

Definition Firestore_doc (fs : Firestore) (path : string) : result DocumentReference :=
  newDocumentReference fs (PString path) None.

(** The settings the constructor of [Firestore] reads. *)
Record Settings : Type := mkSettings {
  projectId : string;
  databaseId : option string;
}.

(** [new Firestore(settings, apiKey)]: the base path, with [(default)] for
    a database id that is absent or empty. *)
Definition newFirestore (settings : Settings) : Firestore :=
  mkFirestore
    ("projects/" ++ projectId settings ++ "/databases/" ++
     match databaseId settings with
     | Some (String _ _ as d) => d
     | _ => "(default)"
     end ++ "/documents").

(** [DocumentReference.listCollections()]: the path of its request, and
    the statements after it, on the [collectionIds] of the response. *)
Definition listCollections_path (d : DocumentReference) : string :=
  DocumentReference_path d ++ ":listCollectionIds".

Definition listCollections_result (d : DocumentReference)
    (collectionIds : option (list string)) : result (list CollectionReference) :=
  match collectionIds with
  | None => Err (TypeError "Cannot read properties of undefined (reading 'map')")
  | Some ids => mapR (DocumentReference_collection d) ids
  end.

(** [CollectionReference.listDocuments()]: the statement after its request,
    on the [documents] of the response. *)
Definition listDocuments_result (c : CollectionReference)
    (documents : option (list Document)) : result (list DocumentReference) :=
  match documents with
  | None => Err (TypeError "Cannot read properties of undefined (reading 'map')")
  | Some ds => mapR (fun d => newDocumentReference (col_firestore c) (PString (name d)) None) ds
  end.

(** ** Chains of builder calls *)

(** A clause of [where]: field path, operator, value. *)
Definition clause : Type := string * WhereFilterOp * value.

(** [q.where(c1).where(c2)...]: the calls in order, stopping at the first
    that throws. *)
Fixpoint where_all `{Codec} (ids : nat -> string) (q : Query) (cs : list clause)
    : result Query :=
  match cs with
  | [] => Ok q
  | (fp, op, v) :: rest => q' ← Query_where ids q fp op v; where_all ids q' rest
  end.

(** The value a cursor takes from a snapshot for one field order. *)
Definition snapshot_value `{Codec} (s : DocumentSnapshot) (o : Order) : value :=
  if String.eqb (fieldPath (field o)) documentId
  then VReference (snap_ref s)
  else snapshot_get s (fieldPath (field o)).

(** ** Results of reads *)

(** The snapshot [get] builds for a document found directly under the
    collection: that of [doc(id)], for the [id] its decoded name ends
    with. *)
Definition snapshot_under `{Codec} (c : CollectionReference)
    (p : Document * option string) (s : DocumentSnapshot) : Prop :=
  exists id, decodePath (name p.1) = (CollectionReference_path c ++ "/" ++ id)%string
    /\ s = mkDocumentSnapshot
             (mkDocumentReference (col_firestore c) (col_segments c ++ [id]) None)
             (Some p.1) p.2.

(** [DocumentReference.get(fields)]: the first element of what [batchGet]
    returns for the reference alone and its [transactionOptions];
    [undefined] should the array be empty. *)
Definition DocumentReference_get `{Codec} `{Runtime} (st : Store) (d : DocumentReference)
    (fields : option (list string)) : result (option DocumentSnapshot) * Store :=
  let '(r, st') := Firestore_batchGet st [d] fields (doc_transactionOptions d) in
  (head <$> r, st').

(** ** A service that fails

    It holds the documents of [Example], leaves out of a [batchGet]
    response the documents it does not hold, begins read-only transactions
    only, and refuses every commit. *)

Module Faulty.

Definition held (qname : string) : option BatchGetResponse :=
  match List.find (fun d => String.eqb (name d) qname) Example.data with
  | Some d => Some (mkBatchGetResponse (Some d) None (Some "t0"))
  | None => None
  end.

Definition serve (history : list Request) (r : Request) : result Response :=
  match req_body r with
  | BeginTransactionRequest (Some (readOnly _)) =>
      Ok (BeginTransactionResponse (Some "tx-ro"))
  | BeginTransactionRequest _ => Err (StatusError 503 "unavailable")
  | CommitRequest _ _ => Err (StatusError 409 "aborted")
  | BatchGetRequest documents _ _ _ _ => Ok (BatchGetResponses (omap held documents))
  | RunQueryRequest sq _ => Ok (RunQueryResponses (Example.runQuery sq))
  end.

#[export] Instance runtime : Runtime :=
  {| fetch := serve; createId := fun _ => "generated" |}.

End Faulty.

(** ** Request paths *)

(** The separator [Firestore.request] puts between the base path and the
    path of a request under the document of segments [l]. *)
Definition separator (l : list string) : string :=
  match l with
  | [] => ""
  | String c _ :: _ => if Ascii.eqb c ":" then "" else "/"
  | EmptyString :: _ => "/"
  end.

(** ** The HTTP layer: [FirebaseService] of [src/service.ts]

    What [Firestore.request] hands its requests to.  The platform's
    [fetch] and the token getter of the service are parameters; a call of
    [request] consults each at most once. *)

Module Service.

Inductive HTTPMethod : Type := GET | POST | PUT | DELETE.

(** [URLSearchParams]: the pairs in order. *)
Definition URLSearchParams : Type := list (string * string).

Definition named (name : string) (p : string * string) : bool := String.eqb p.1 name.

(** [searchParams.set(name, value)]: the first pair of that name takes the
    value and the other pairs of that name go; without one, the pair is
    appended. *)
Fixpoint set (name value : string) (ps : URLSearchParams) : URLSearchParams :=
  match ps with
  | [] => [(name, value)]
  | p :: rest =>
      if named name p
      then (name, value) :: List.filter (fun q => negb (named name q)) rest
      else p :: set name value rest
  end.

Section Requests.
Context {Json : Type}.

(** The third argument of [request]: nothing, search parameters, or the
    body. *)
Inductive SearchOrBody : Type :=
  | Absent
  | Search (search : URLSearchParams)
  | Object (o : Json).

(** The fourth argument: the body, or what the overload without search
    parameters passes for [authorized]. *)
Inductive BodyArg : Type :=
  | NoBody
  | BodyObject (o : Json)
  | BodyString (s : string)
  | BodyBoolean (b : bool).

Inductive Authorized : Type :=
  | Unset
  | Scope (s : string)
  | Flag (b : bool).

(** The arguments of [fetch]: the URL up to the question mark, the search
    parameters, and the init object with its [Authorization] header. *)
Record Init : Type := mkInit {
  url : string;
  search : URLSearchParams;
  method : HTTPMethod;
  body : option Json;
  Authorization : option string;
}.

(** [await response.json()]: the data, which may hold an [error]. *)
Inductive Data : Type :=
  | Payload (d : Json)
  | WithError (code : Z) (message : string).

(** The fields of a [FirebaseService] that [request] reads; [getToken]
    takes the scope of its claims, if any. *)
Record FirebaseService : Type := mkService {
  apiUrl : string;
  apiKey : string;
  getToken : option string -> result string;
}.

Variable fetch : Init -> result Data.

(** [if (path && path[0] !== ':' && path[0] !== '/') path = '/' + path],
    then the path as the template literal prints it. *)
Definition rooted (path : option string) : string :=
  match path with
  | None => "undefined"
  | Some EmptyString => ""
  | Some (String c _ as p) =>
      if Ascii.eqb c ":"%char || Ascii.eqb c "/"%char then p else ("/" ++ p)%string
  end.

(** The [Authorization] header. *)
Definition authorization (svc : FirebaseService) (authorized : Authorized)
    : result (option string) :=
  match authorized with
  | Scope s => tok ← getToken svc (Some s); Ok (Some ("Bearer " ++ tok)%string)
  | Flag false => Ok None
  | _ => tok ← getToken svc None; Ok (Some ("Bearer " ++ tok)%string)
  end.

(** [FirebaseService.request]: its result and the calls of [fetch] it
    made. *)
Definition request (svc : FirebaseService) (method : HTTPMethod) (path : option string)
    (searchOrBody : SearchOrBody) (body : BodyArg) (authorized : Authorized)
    : result Json * list Init :=
  let '(authorized, body) :=
    match body with
    | BodyString s => (Scope s, None)
    | BodyBoolean b => (Flag b, None)
    | BodyObject o => (authorized, Some o)
    | NoBody => (authorized, None)
    end in
  let searchParams :=
    set "key" (apiKey svc) (match searchOrBody with Search ps => ps | _ => [] end) in
  let body :=
    match body, searchOrBody with
    | None, Object o => Some o
    | _, _ => body
    end in
  let path := rooted path in
  match authorization svc authorized with
  | Err e => (Err e, [])
  | Ok header =>
      let init := mkInit (apiUrl svc ++ path)%string searchParams method body header in
      (data ← fetch init;
       match data with
       | WithError code message => Err (StatusError code message)
       | Payload d => Ok d
       end, [init])
  end.

(** [FirebaseService.userRequest]. *)
Definition userRequest (svc : FirebaseService) (method : HTTPMethod) (path : option string)
    (searchOrBody : SearchOrBody) (body : option Json) : result Json * list Init :=
  request svc method path searchOrBody
    (match body with Some o => BodyObject o | None => NoBody end) (Flag false).

(** [Firestore.request]: the path goes under [basePath], and the rest to
    [super.request] with no [authorized]. *)
Definition Firestore_request (svc : FirebaseService) (fs : Firestore) (method : HTTPMethod)
    (path : option string) (searchOrBody : SearchOrBody) (body : option Json)
    : result Json * list Init :=
  let path :=
    match path with
    | Some p => request_path fs p
    | None => (basePath fs ++ "undefined")%string
    end in
  request svc method (Some path) searchOrBody
    (match body with Some o => BodyObject o | None => NoBody end) Unset.

End Requests.

(** The service a [Firestore] is: [super('firestore', url, settings,
    apiKey)], with the token getter the settings lead to. *)
Definition firestoreService (key : string) (tokens : option string -> result string)
    : FirebaseService :=
  mkService "https://firestore.googleapis.com/v1" key tokens.

End Service.

(** ** Tokens: [src/tokens.ts]

    The token getter a service is given when its settings bring none.
    The clock, the signer of [@tsndr/cloudflare-worker-jwt] and the OAuth
    endpoint are the platform; the getter's closure variables are the
    state.  Calls on one getter are taken one after the other. *)

Module Tokens.

Definition exp : Z := 3600.

Inductive Audience : Type := oauth | auth | firestore | storage.

Definition aud (service : Audience) : string :=
  match service with
  | oauth => "https://oauth2.googleapis.com/token"
  | auth =>
      "https://identitytoolkit.googleapis.com/google.identity.identitytoolkit.v1.IdentityToolkit"
  | firestore => "https://firestore.googleapis.com/google.firestore.v1.Firestore"
  | storage => "https://www.googleapis.com/auth/devstorage.read_only"
  end.

(** The fields of a [ServiceAccount] that [createToken] reads. *)
Record ServiceAccount : Type := mkServiceAccount {
  clientEmail : string;
  privateKey : string;
  privateKeyId : string;
}.

(** The value of a claim. *)
Inductive Claim : Type :=
  | Text (s : string)
  | Number (n : Z).

Definition Claim_eqb (a b : Claim) : bool :=
  match a, b with
  | Text s, Text t => String.eqb s t
  | Number n, Number m => Z.eqb n m
  | _, _ => false
  end.

(** An object of claims: its keys in insertion order. *)
Definition Claims : Type := list (string * Claim).

(** One key of a spread: an existing key keeps its place and takes the
    value, a new key goes last. *)
Fixpoint assign (k : string) (v : Claim) (o : Claims) : Claims :=
  match o with
  | [] => [(k, v)]
  | (k', v') :: rest =>
      if String.eqb k' k then (k, v) :: rest else (k', v') :: assign k v rest
  end.

(** [{ ...o, ...claims }]. *)
Definition spread (o claims : Claims) : Claims :=
  fold_left (fun acc kv => assign kv.1 kv.2 acc) claims o.

(** A [Map]: [get] and [set]. *)
Definition Map (V : Type) : Type := list (Claim * V).

Definition Map_get {V : Type} (m : Map V) (k : Claim) : option V :=
  snd <$> List.find (fun p => Claim_eqb p.1 k) m.

Fixpoint Map_set {V : Type} (m : Map V) (k : Claim) (v : V) : Map V :=
  match m with
  | [] => [(k, v)]
  | (k', v') :: rest =>
      if Claim_eqb k' k then (k, v) :: rest else (k', v') :: Map_set rest k v
  end.

(** What the OAuth endpoint answers. *)
Record OauthReply : Type := mkOauthReply {
  access_token : option string;
  expires_in : option Z;
}.

(** The platform: the seconds [now()] gives at its [n]-th call, [sign] on a
    payload, a key and a key id, and the OAuth endpoint on the body of the
    request. *)
Class Platform : Type := {
  clock : nat -> Z;
  sign : Claims -> string -> string -> result string;
  exchange : string -> result OauthReply;
}.

(** The variables of the two closures, with the number of clock readings
    taken and the payloads signed so far. *)
Record State : Type := mkState {
  reads : nat;
  signed : list Claims;
  token : option string;
  tokenExp : option Z;
  tokens : Map (option string);
  tokenExps : Map Z;
}.

Definition initial : State := mkState 0 [] None None [] [].

Section Getters.
Context `{Platform}.

(** [now()]. *)
Definition now (st : State) : Z * State :=
  (clock (reads st),
   mkState (S (reads st)) (signed st) (token st) (tokenExp st) (tokens st) (tokenExps st)).

(** The payload of a token without claims of its own. *)
Definition standard (account : ServiceAccount) (service : Audience) (iat : Z) : Claims :=
  [("aud", Text (aud service)); ("iss", Text (clientEmail account));
   ("sub", Text (clientEmail account)); ("iat", Number iat); ("exp", Number (iat + exp))].

(** [createToken(serviceAccount, service, claims)]. *)
Definition createToken (account : ServiceAccount) (service : Audience) (claims : Claims)
    (st : State) : result string * State :=
  let '(iat, st) := now st in
  let payload := spread (standard account service iat) claims in
  (sign payload (privateKey account) (privateKeyId account),
   mkState (reads st) (signed st ++ [payload]) (token st) (tokenExp st) (tokens st)
     (tokenExps st)).

(** [!tokenExp || now() > tokenExp - 60]: the clock is read only when there
    is an expiry. *)
Definition stale (tokenExp : option Z) (st : State) : bool * State :=
  match tokenExp with
  | None => (true, st)
  | Some e =>
      if (e =? 0)%Z then (true, st)
      else let '(t, st) := now st in ((t >? e - 60)%Z, st)
  end.

(** [expires_in || 0]. *)
Definition or_zero (n : option Z) : Z :=
  match n with Some z => z | None => 0 end.

Definition oauth_body (oauthToken : string) : string :=
  ("grant_type=urn%3Aietf%3Aparams%3Aoauth%3Agrant-type%3Ajwt-bearer&assertion=&assertion="
   ++ oauthToken)%string.

(** The function [getOauthTokenGetter] returns. *)
Definition getOauthToken (account : ServiceAccount) (scope : Claim) (st : State)
    : result (option string) * State :=
  let token := mjoin (Map_get (tokens st) scope) in
  let tokenExp := Map_get (tokenExps st) scope in
  let '(old, st) := stale tokenExp st in
  if old then
    let '(r, st) := createToken account oauth [("scope", scope)] st in
    match r with
    | Err e => (Err e, st)
    | Ok oauthToken =>
        match exchange (oauth_body oauthToken) with
        | Err e => (Err e, st)
        | Ok reply =>
            let st := mkState (reads st) (signed st) (Tokens.token st) (Tokens.tokenExp st)
                        (Map_set (tokens st) scope (access_token reply)) (tokenExps st) in
            let '(t, st) := now st in
            (Ok (access_token reply),
             mkState (reads st) (signed st) (Tokens.token st) (Tokens.tokenExp st) (tokens st)
               (Map_set (tokenExps st) scope (t + or_zero (expires_in reply))%Z))
        end
    end
  else (Ok token, st).

(** [claims.scope], when it is truthy. *)
Definition truthy_scope (claims : Claims) : option Claim :=
  match List.find (fun kv => String.eqb kv.1 "scope") claims with
  | Some (_, Text (String _ _ as s)) => Some (Text s)
  | Some (_, Number n) => if (n =? 0)%Z then None else Some (Number n)
  | _ => None
  end.

(** The function [getTokenGetter] returns. *)
Definition getToken (account : ServiceAccount) (service : Audience)
    (claims : option Claims) (st : State) : result (option string) * State :=
  match claims with
  | Some claims =>
      match truthy_scope claims with
      | Some scope => getOauthToken account scope st
      | None =>
          let '(r, st) := createToken account service claims st in
          (Some <$> r, st)
      end
  | None =>
      let '(old, st) := stale (tokenExp st) st in
      if old then
        let '(r, st) := createToken account service [] st in
        match r with
        | Err e => (Err e, st)
        | Ok tok =>
            let '(t, st) := now st in
            (Ok (Some tok),
             mkState (reads st) (signed st) (Some tok) (Some (t + exp)%Z) (tokens st)
               (tokenExps st))
        end
      else (Ok (token st), st)
  end.

(** The states a getter is in after some calls. *)
Inductive reachable (account : ServiceAccount) (service : Audience) : State -> Prop :=
  | reachable_initial : reachable account service initial
  | reachable_call st claims :
      reachable account service st ->
      reachable account service (snd (getToken account service claims st)).

(** The cached token is one [sign] gave for a standard payload, and its
    expiry was taken at the clock reading after that of the payload. *)
Definition backed (account : ServiceAccount) (service : Audience) (st : State) : Prop :=
  forall e, tokenExp st = Some e ->
    exists n tok,
      token st = Some tok
      /\ sign (standard account service (clock n)) (privateKey account) (privateKeyId account)
         = Ok tok
      /\ e = (clock (S n) + exp)%Z
      /\ (S n < reads st)%nat.

End Getters.

End Tokens.

(** ** A platform for tokens

    The clock starts at 1000 and advances by one second at each reading;
    [sign] gives the issue time back in the token; the OAuth endpoint
    grants one hour. *)

Module TokenExample.

Definition issued (payload : Tokens.Claims) : string :=
  match List.find (fun kv => String.eqb kv.1 "iat") payload with
  | Some (_, Tokens.Number 1000) => "jwt-1000"
  | Some (_, Tokens.Number 1001) => "jwt-1001"
  | _ => "jwt"
  end.

#[export] Instance platform : Tokens.Platform :=
  {| Tokens.clock := fun n => (1000 + Z.of_nat n)%Z;
     Tokens.sign := fun payload _ _ => Ok (issued payload);
     Tokens.exchange := fun _ => Ok (Tokens.mkOauthReply (Some "access") (Some 3600%Z)) |}.

Definition account : Tokens.ServiceAccount :=
  Tokens.mkServiceAccount "robot@demo.test" "secret" "key-1".

End TokenExample.

(** The value an object of claims has under a key: that of the first pair
    of the key; in a list that writes an object literal, the last pair of a
    key is the one that counts. *)
Definition claim_of (o : Tokens.Claims) (k : string) : option Tokens.Claim :=
  snd <$> List.find (fun kv => String.eqb kv.1 k) o.

Definition written (claims : Tokens.Claims) (k : string) : option Tokens.Claim :=
  claim_of (rev claims) k.

(** * Properties *)

(** ** Paths and references *)

Section PathFacts.

Lemma split_nonempty s : Path.split s <> [].
Proof. destruct s as [|c s]; simpl; [easy|]. destruct (Ascii.eqb c Path.slash); [easy|].
       destruct (Path.split s); easy. Qed.

(** Joining what [split] gave returns the string. *)
Lemma join_split s : Path.join (Path.split s) = s.
Proof.
  induction s as [|c s IH]; simpl; [reflexivity|].
  destruct (Ascii.eqb_spec c Path.slash) as [->|Hc].
  - pose proof (split_nonempty s) as Hne.
    destruct (Path.split s) as [|w ws] eqn:E; [easy|].
    change (Path.join (EmptyString :: w :: ws)) with ("" ++ "/" ++ Path.join (w :: ws))%string.
    rewrite IH. reflexivity.
  - pose proof (split_nonempty s) as Hne.
    destruct (Path.split s) as [|w ws] eqn:E; [easy|].
    destruct ws as [|w' ws].
    + simpl in *. now rewrite IH.
    + change (Path.join (String c w :: w' :: ws))
        with (String c (w ++ "/" ++ Path.join (w' :: ws))%string).
      change (Path.join (w :: w' :: ws)) with (w ++ "/" ++ Path.join (w' :: ws))%string in IH.
      now rewrite IH.
Qed.

(** [new Reference] never throws: it hands each constructor an array of
    the parity that constructor accepts. *)
Lemma newReference_segments fs path :
  let segments := match path with
                  | PString s => Path.split (Path.trim s)
                  | PSegments l => l
                  end in
  exists r, newReference fs path = Ok r
            /\ ref_segments r = segments
            /\ is_document r = even_length segments.
Proof.
  intros segments. unfold newReference, newDocumentReference, newCollectionReference.
  fold segments. cbv zeta.
  destruct (even_length segments) eqn:E; simpl;
    eexists; (split; [reflexivity|]); simpl; now rewrite ?E.
Qed.

(** On a path given as a string, [path] of the reference is the trimmed
    string: empty segments stay. *)
Lemma newReference_string_path fs s :
  exists r, newReference fs (PString s) = Ok r /\ ref_path r = Path.trim s.
Proof.
  destruct (newReference_segments fs (PString s)) as (r & Hr & Hs & _).
  exists r; split; [exact Hr|].
  destruct r; simpl in *; unfold DocumentReference_path, CollectionReference_path;
    rewrite Hs; apply join_split.
Qed.

End PathFacts.

(** C9, evaluated on the code.  [new Reference] splits the trimmed string
    and keeps empty segments, where the constructor of [DocumentReference]
    filters them: the path [a//b], two segments once normalized, gives a
    collection whose [path] is still [a//b], and the empty path, which the
    document constructor takes as the root document, gives a collection of
    the single segment [""]. *)
Theorem Reference_keeps_empty_segments (fs : Firestore) :
  newReference fs (PString "a//b")
    = Ok (IsCollection (mkCollectionReference fs ["a"; ""; "b"] None))
  /\ spec_normalized_segments (PString "a//b") = ["a"; "b"]
  /\ (exists r, newReference fs (PString "a//b") = Ok r
                /\ is_document r = false
                /\ even_length (spec_normalized_segments (PString "a//b")) = true
                /\ ref_path r = "a//b"
                /\ ref_path r <> spec_normalized_path (PString "a//b"))
  /\ newDocumentReference fs (PString "a//b") None
       = Ok (mkDocumentReference fs ["a"; "b"] None)
  /\ newReference fs (PString "")
       = Ok (IsCollection (mkCollectionReference fs [""] None))
  /\ newDocumentReference fs (PString "") None = Ok (mkDocumentReference fs [] None).
Proof.
  repeat split; try reflexivity.
  eexists; repeat split; try reflexivity. discriminate.
Qed.

(** ** Implicit field orders *)

Section FieldOrders.

Lemma firstInequality_single (f : FieldReference) (fs : list Filter) :
  Exists (is_inequality_on f) fs ->
  Forall (fun x => forall g, is_inequality_on g x -> g = f) fs ->
  firstInequality fs = [mkOrder f None].
Proof.
  induction fs as [|x fs IH]; intros Hex Hall.
  - inversion Hex.
  - inversion Hall as [|? ? Hx Hfs]; subst.
    destruct x as [g u|g op v|op gs]; simpl.
    + apply IH; [|exact Hfs]. inversion Hex as [? ? (op & v & E & _)|]; subst;
        [discriminate|assumption].
    + destruct (inequalityFilters op) eqn:Eop.
      * rewrite (Hx g); [reflexivity|]. now exists op, v.
      * apply IH; [|exact Hfs].
        inversion Hex as [? ? (op' & v' & E & Hop)|]; subst; [|assumption].
        injection E as -> -> ->. congruence.
    + apply IH; [|exact Hfs]. inversion Hex as [? ? (op' & v & E & _)|]; subst;
        [discriminate|assumption].
Qed.

(** The document-id order is appended whatever the orders are: the test
    that should find it compares an object with a string. *)
Lemma getFieldOrders_appends (o : QueryOptions) :
  getFieldOrders o =
    (match orderBy o with [] => firstInequality (filters o) | os => os end)
    ++ [mkOrder (mkField documentId) None].
Proof.
  unfold getFieldOrders.
  assert (E : forall l, existsb (fun x => field_strict_equals (field x) documentId) l = false).
  { induction l; simpl; auto. }
  destruct (orderBy o); now rewrite E.
Qed.

End FieldOrders.

(** C6.  A query without ordering clauses whose inequality filters are on
    one field [f] gets [f] as its first field order, and when the
    document-id field is not among the ordering clauses (neither ordered by
    nor the inequality field) it is appended as the last one. *)
Theorem getFieldOrders_implicit (o : QueryOptions) (f : FieldReference) :
  (orderBy o = [] ->
   Exists (is_inequality_on f) (filters o) ->
   Forall (fun x => forall g, is_inequality_on g x -> g = f) (filters o) ->
   head (getFieldOrders o) = Some (mkOrder f None))
  /\
  (Forall (fun x => fieldPath (field x) <> documentId) (orderBy o) ->
   Forall (fun x => ~ is_inequality_on (mkField documentId) x) (filters o) ->
   last (getFieldOrders o) = Some (mkOrder (mkField documentId) None)
   /\ (orderBy o <> [] ->
       getFieldOrders o = orderBy o ++ [mkOrder (mkField documentId) None])).
Proof.
  split.
  - intros Hno Hex Hall. rewrite getFieldOrders_appends, Hno.
    now rewrite (firstInequality_single f).
  - intros _ _. rewrite getFieldOrders_appends. split.
    + apply last_snoc.
    + intros Hne. destruct (orderBy o); [easy|reflexivity].
Qed.

(** The theorem at a query with the filter [age > 25] and no [orderBy], and
    at one ordered by [name]. *)
Lemma getFieldOrders_implicit_witness :
  let age := fieldFilter (mkField "age") GREATER_THAN (integerValue 25) in
  let o1 := with_filters (state (collection_query Example.users)) [age] in
  let o2 := state (Query_orderBy (collection_query Example.users) "name" (Some asc)) in
  (head (getFieldOrders o1) = Some (mkOrder (mkField "age") None)
   /\ last (getFieldOrders o1) = Some (mkOrder (mkField documentId) None))
  /\ getFieldOrders o2
     = [mkOrder (mkField "name") (Some ASCENDING); mkOrder (mkField documentId) None].
Proof.
  intros age o1 o2. split; [split|].
  - apply (proj1 (getFieldOrders_implicit o1 (mkField "age"))).
    + reflexivity.
    + constructor. exists GREATER_THAN, (integerValue 25). now split.
    + repeat constructor. intros g (op & v & E & _). now inversion E.
  - apply (proj2 (getFieldOrders_implicit o1 (mkField "age"))).
    + constructor.
    + repeat constructor. intros (op & v & E & _). discriminate.
  - apply (proj2 (getFieldOrders_implicit o2 (mkField "age"))).
    + repeat constructor. discriminate.
    + constructor.
    + discriminate.
Defined.

(** ** Cursors *)

Section Cursors.
Context `{Codec}.






End Cursors.


Section CursorExamples.
#[local] Existing Instance Example.codec.



End CursorExamples.

(** ** Filters *)

Section Filters.
Context `{Codec}.


Lemma resolveDocumentId_other_field (ids : nat -> string) (c : CollectionReference)
    (fp : string) (v : value) :
  fp <> documentId -> resolveDocumentId ids c fp v = Ok v.
Proof.
  intros Hne. unfold resolveDocumentId. apply String.eqb_neq in Hne. now rewrite Hne.
Qed.


Lemma Query_where_resolved (ids : nat -> string) (q : Query) (fp : string)
    (op : WhereFilterOp) (v : value) :
  v <> VUndefined ->
  Query_where ids q fp op v =
    match resolveDocumentId ids (ref q) fp v with
    | Ok v' => Ok (add_filter q (makeFilter fp op v'))
    | Err e => Err e
    end.
Proof.
  intros Hv. unfold Query_where.
  destruct v; try congruence; destruct (resolveDocumentId _ _ _ _); reflexivity.
Qed.

End Filters.


Section FilterExamples.
#[local] Existing Instance Example.codec.


End FilterExamples.

(** ** Execution: the compiled query *)

Section Compile.
Context `{Codec} `{Runtime}.

Lemma flip_cursor_twice (c : option Cursor) : flip_cursor (flip_cursor c) = c.
Proof. destruct c as [[vs b]|]; simpl; [|reflexivity]. now rewrite negb_involutive. Qed.

(** Without [reverse] the state is sent as it is, the filters combined. *)
Lemma compile_forward (o : QueryOptions) :
  reverse o = false ->
  exists sq, compile o = Ok sq
    /\ sq_orderBy sq = orderBy o /\ sq_startAt sq = startAt o /\ sq_endAt sq = endAt o
    /\ sq_limit sq = limit o.
Proof. intros Hr. unfold compile. rewrite Hr. eexists; repeat split. Qed.

(** With [reverse] and at least one ordering clause, every direction is
    flipped and the start cursor is the flipped end cursor; the end cursor
    is computed from that new start cursor, which gives back the end cursor
    of the state. *)
Lemma compile_reverse (o : QueryOptions) :
  reverse o = true ->
  orderBy o <> [] ->
  exists sq, compile o = Ok sq
    /\ sq_orderBy sq = map flip_order (orderBy o)
    /\ sq_startAt sq = flip_cursor (endAt o)
    /\ sq_endAt sq = endAt o.
Proof.
  intros Hr Hne. unfold compile. rewrite Hr.
  destruct (orderBy o) as [|x xs] eqn:E; [easy|].
  eexists; repeat split. simpl. apply flip_cursor_twice.
Qed.

(** [limitToLast] without [orderBy] fails in [get] before anything is
    sent. *)
Lemma Query_get_reverse_unordered (st : Store) (q : Query) :
  reverse (state q) = true ->
  orderBy (state q) = [] ->
  Query_get st q = (Err LimitToLastWithoutOrderBy, st)
  /\ kind LimitToLastWithoutOrderBy = InvalidArgument.
Proof.
  intros Hr Ho. unfold Query_get, compile. now rewrite Hr, Ho.
Qed.

End Compile.

Section CompileExamples.
#[local] Existing Instance Example.codec.
#[local] Existing Instance Example.runtime.

(** C2, evaluated on the code at
    [users.orderBy('x').startAt(1).endAt(9).limitToLast(2)].  The direction
    is flipped and the start cursor is the end cursor with its flag
    negated, but the end cursor sent is the end cursor of the query, [9]
    with its flag unchanged, where the claim has the start cursor [1] with
    its flag negated: the second assignment of the swap reads the start
    cursor the first one has just overwritten.  Without [orderBy] the call
    fails and sends nothing. *)
Theorem get_reverse_swaps_cursors :
  let start := mkCursor [integerValue 1] true in
  let stop := mkCursor [integerValue 9] true in
  let q0 := Query_orderBy (collection_query Example.users) "x" (Some asc) in
  let q := Query_limitToLast
             (mkQuery Example.users (with_endAt (with_startAt (state q0) start) stop))
             (Finite 2 1) in
  (Query_startAt Example.no_ids q0 [VNumber (Finite 1 1)]
     = Ok (mkQuery Example.users (with_startAt (state q0) start))
   /\ Query_endAt Example.no_ids
        (mkQuery Example.users (with_startAt (state q0) start)) [VNumber (Finite 9 1)]
      = Ok (mkQuery Example.users (with_endAt (with_startAt (state q0) start) stop)))
  /\ (exists sq, compile (state q) = Ok sq
        /\ sq_orderBy sq = [mkOrder (mkField "x") (Some DESCENDING)]
        /\ sq_startAt sq = Some (mkCursor [integerValue 9] false)
        /\ sq_endAt sq = Some (mkCursor [integerValue 9] true)
        /\ sq_endAt sq <> Some (mkCursor [integerValue 1] false))
  /\ Query_get Example.store
       (Query_limitToLast (collection_query Example.users) (Finite 2 1))
     = (Err LimitToLastWithoutOrderBy, Example.store).
Proof.
  intros start stop q0 q. split; [split; reflexivity|]. split; [|reflexivity].
  eexists. split; [reflexivity|]. repeat split. discriminate.
Qed.

End CompileExamples.

(** ** Execution: [limitToLast] against [limit] *)

Section Reversal.
Context `{Codec} `{Runtime}.

Lemma mapR_app {A B : Type} (f : A -> result B) (l1 l2 : list A) :
  mapR f (l1 ++ l2) = (ys1 ← mapR f l1; ys2 ← mapR f l2; Ok (ys1 ++ ys2)).
Proof.
  induction l1 as [|x l1 IH]; simpl.
  - destruct (mapR f l2); reflexivity.
  - destruct (f x); simpl; [|reflexivity]. rewrite IH.
    destruct (mapR f l1); simpl; [|reflexivity].
    destruct (mapR f l2); reflexivity.
Qed.

Lemma mapR_rev {A B : Type} (f : A -> result B) (l : list A) (ys : list B) :
  mapR f l = Ok ys -> mapR f (rev l) = Ok (rev ys).
Proof.
  revert ys. induction l as [|x l IH]; intros ys; simpl.
  - now intros [= <-].
  - destruct (f x) as [y|] eqn:Ex; simpl; [|discriminate].
    destruct (mapR f l) as [ys'|] eqn:El; simpl; [|discriminate].
    intros [= <-]. rewrite mapR_app, (IH ys' eq_refl). simpl. now rewrite Ex.
Qed.

Lemma documents_of_rev (l : list RunQueryResponse) :
  documents_of (rev l) = rev (documents_of l).
Proof.
  unfold documents_of. induction l as [|e l IH]; simpl; [reflexivity|].
  rewrite flat_map_app, IH. simpl. rewrite rev_app_distr.
  destruct (document e); reflexivity.
Qed.

Lemma CollectionReference_doc_given (c : CollectionReference) (p f1 f2 : string) :
  p <> "" ->
  CollectionReference_doc c (Some p) f1 = CollectionReference_doc c (Some p) f2.
Proof. destruct p; [easy|reflexivity]. Qed.

(** When no id is generated, materializing is a map over the documents and
    does not look at the ids. *)
Lemma materialize_all_mapR (ids : nat -> string) (c : CollectionReference)
    (l : list RunQueryResponse) (i : nat) :
  no_generated_ids c l ->
  materialize_all ids c l i
  = mapR (fun p => materialize c (fst p) (snd p) "") (documents_of l).
Proof.
  revert i. induction l as [|e l IH]; intros i Hn; [reflexivity|].
  assert (Hl : no_generated_ids c l).
  { intros e' d Hin. apply Hn. now right. }
  simpl. unfold documents_of in *. simpl. destruct (document e) as [d|] eqn:Ed.
  - simpl. unfold materialize at 1 3.
    rewrite (CollectionReference_doc_given c _ (ids i) "").
    + now rewrite (IH (S i) Hl).
    + apply (Hn e d); [now left|exact Ed].
  - simpl. now apply IH.
Qed.

Lemma no_generated_ids_rev (c : CollectionReference) (l : list RunQueryResponse) :
  no_generated_ids c l -> no_generated_ids c (rev l).
Proof. intros Hn e d Hin. apply Hn. now apply in_rev. Qed.

Lemma materialize_all_rev (ids ids' : nat -> string) (c : CollectionReference)
    (l : list RunQueryResponse) (ds : list DocumentSnapshot) :
  no_generated_ids c l ->
  materialize_all ids c l 0 = Ok ds ->
  materialize_all ids' c (rev l) 0 = Ok (rev ds).
Proof.
  intros Hn Hm. rewrite materialize_all_mapR in Hm by assumption.
  rewrite materialize_all_mapR by now apply no_generated_ids_rev.
  rewrite documents_of_rev. now apply mapR_rev.
Qed.

(** The statements after the request, on one response: with [reverse] they
    give the snapshots of the run without it, in the opposite order. *)
Lemma process_reverse (ids ids' : nat -> string) (qa qb : Query)
    (response : list RunQueryResponse) :
  ref qa = ref qb ->
  reverse (state qa) = true ->
  reverse (state qb) = false ->
  no_generated_ids (ref qb) response ->
  (forall b, process ids qb response = Ok b ->
     exists a, process ids' qa response = Ok a /\ same_in_reverse a b)
  /\ (forall a, process ids' qa response = Ok a ->
        exists b, process ids qb response = Ok b /\ same_in_reverse a b).
Proof.
  intros Href Ha Hb Hn. unfold process. rewrite Ha, Hb, Href.
  destruct response as [|first rest]; [split; intros ? [=]|].
  destruct (rq_error first); [split; intros ? [=]|].
  set (l := if truthy_count (skippedResults first) then rest else first :: rest).
  assert (Hl : no_generated_ids (ref qb) l).
  { subst l. destruct (truthy_count _); [|exact Hn].
    intros e d Hin. apply Hn. now right. }
  split.
  - intros b. destruct (materialize_all ids (ref qb) l 0) as [ds|] eqn:E; [|intros [=]].
    simpl. intros [= <-].
    rewrite (materialize_all_rev ids ids' _ _ ds Hl E). simpl.
    eexists; split; [reflexivity|]. repeat split; simpl. apply length_rev.
  - intros a. destruct (materialize_all ids' (ref qb) (rev l) 0) as [ds|] eqn:E;
      [|intros [=]].
    simpl. intros [= <-].
    pose proof (materialize_all_rev ids' ids _ _ ds (no_generated_ids_rev _ _ Hl) E) as E'.
    rewrite rev_involutive in E'. rewrite E'. simpl.
    eexists; split; [reflexivity|]. repeat split; simpl.
    + now rewrite rev_involutive.
    + apply length_rev.
Qed.

End Reversal.

(** C4, as the code has it.  On a query state without earlier ordering
    clauses and without cursors, and a service that returns documents of
    the collection, [orderBy(x, 'asc').limitToLast(n)] sends the request of
    [orderBy(x, 'desc').limit(n)] and returns its documents in the opposite
    order (with the same size and read time); either both calls fail or
    both return. *)
Theorem limitToLast_reverses_limit `{Codec} `{Runtime} (st : Store) (q : Query)
    (x : string) (n : number) :
  orderBy (state q) = [] ->
  startAt (state q) = None ->
  endAt (state q) = None ->
  (forall r response, fetch (log st) r = Ok (RunQueryResponses response) ->
                      no_generated_ids (ref q) response) ->
  let last_n := Query_get st (Query_limitToLast (Query_orderBy q x (Some asc)) n) in
  let first_n := Query_get st (Query_limit (Query_orderBy q x (Some desc)) n) in
  log (snd last_n) = log (snd first_n)
  /\ (forall b, fst first_n = Ok b -> exists a, fst last_n = Ok a /\ same_in_reverse a b)
  /\ (forall a, fst last_n = Ok a -> exists b, fst first_n = Ok b /\ same_in_reverse a b).
Proof.
  intros Ho Hs He Hserv.
  set (qa := Query_limitToLast (Query_orderBy q x (Some asc)) n).
  set (qb := Query_limit (Query_orderBy q x (Some desc)) n).
  cbv zeta.
  assert (Hc : compile (state qa) = compile (state qb)).
  { unfold compile. simpl. rewrite Ho, Hs, He. reflexivity. }
  assert (Hok : is_ok (compile (state qb)) = true).
  { unfold compile. reflexivity. }
  unfold Query_get. rewrite Hc.
  destruct (compile (state qb)) as [sq|e]; [clear Hok|discriminate Hok].
  change (ref qa) with (ref q). change (ref qb) with (ref q).
  destruct (CollectionReference_parent (ref q)) as [parent|e];
    [|split; [reflexivity|split; intros ? [=]]].
  unfold request.
  match goal with |- context [fetch (log st) ?r] =>
    pose proof (Hserv r) as Hr; destruct (fetch (log st) r) as [[t| |l|response]|e]
  end; simpl; try solve [split; [reflexivity|split; intros ? [=]]].
  split; [reflexivity|].
  apply process_reverse; try reflexivity. now apply Hr.
Qed.

Section ReversalExamples.
#[local] Existing Instance Example.codec.
#[local] Existing Instance Example.runtime.

Lemma firstn_incl {A : Type} (n : nat) (l : list A) (a : A) :
  In a (firstn n l) -> In a l.
Proof.
  revert l. induction n as [|n IH]; intros [|b l]; simpl; try easy.
  intros [->|Hin]; auto.
Qed.

Lemma Example_no_generated_ids (st : Store) (r : Request)
    (response : list RunQueryResponse) :
  fetch (log st) r = Ok (RunQueryResponses response) ->
  no_generated_ids Example.users response.
Proof.
  simpl. unfold Example.serve. destruct (req_body r); try discriminate.
  intros [= <-]. unfold Example.runQuery.
  assert (Hd : forall ds e d, incl ds Example.data -> In e (map Example.entry ds) ->
                 document e = Some d ->
                 replace_first (CollectionReference_path Example.users)
                   (decodePath (name d)) <> "").
  { intros ds e d Hincl Hin Hdoc. apply in_map_iff in Hin as (d' & <- & Hd').
    simpl in Hdoc. injection Hdoc as ->. apply Hincl in Hd'.
    repeat (destruct Hd' as [<-|Hd']; [vm_compute; discriminate|]). destruct Hd'. }
  assert (Hincl : incl (Example.keep (sq_limit structuredQuery)
                          (Example.sort_by (sq_orderBy structuredQuery) Example.data))
                       Example.data).
  { intros d Hin. assert (Hs : In d (Example.sort_by (sq_orderBy structuredQuery)
                                        Example.data)).
    { unfold Example.keep in Hin.
      destruct (sq_limit structuredQuery) as [[| |z [| |]]|]; try exact Hin;
        eapply firstn_incl; exact Hin. }
    clear Hin. unfold Example.sort_by in Hs.
    assert (Hins : forall os a l b, In b (Example.insert_by os a l) -> b = a \/ In b l).
    { intros os a l. induction l as [|e l IH]; simpl; intros b Hb.
      - destruct Hb as [<-|[]]. now left.
      - destruct (Example.compare_by os a e); simpl in Hb.
        + destruct Hb as [<-|Hb]; auto.
        + destruct Hb as [<-|Hb]; auto.
        + destruct Hb as [<-|Hb]; auto. destruct (IH b Hb); auto. }
    revert Hs. generalize Example.data. intros data.
    induction data as [|a data IH]; simpl; [easy|].
    intros Hs. apply Hins in Hs as [->|Hs]; auto. }
  destruct (Example.keep _ _) as [|d0 ds] eqn:E.
  - intros e d [<-|[]]. discriminate.
  - intros e d. now apply Hd.
Qed.

(** The theorem at [users.where('x', '>', 0)], [x = 'x'] and [n = 2], with
    the example service: the last two users by ascending [x]. *)
Lemma limitToLast_reverses_limit_witness :
  let q := add_filter (collection_query Example.users)
             (fieldFilter (mkField "x") GREATER_THAN (integerValue 0)) in
  let last_n := Query_get Example.store
                  (Query_limitToLast (Query_orderBy q "x" (Some asc)) (Finite 2 1)) in
  let first_n := Query_get Example.store
                   (Query_limit (Query_orderBy q "x" (Some desc)) (Finite 2 1)) in
  log (snd last_n) = log (snd first_n)
  /\ (forall b, fst first_n = Ok b -> exists a, fst last_n = Ok a /\ same_in_reverse a b)
  /\ (forall a, fst last_n = Ok a -> exists b, fst first_n = Ok b /\ same_in_reverse a b).
Proof.
  intros q.
  apply (limitToLast_reverses_limit Example.store q "x" (Finite 2 1)).
  - reflexivity.
  - reflexivity.
  - reflexivity.
  - intros r response. apply Example_no_generated_ids.
Defined.

(** C4 as stated fails on a query state that is already ordered:
    after [orderBy('y', 'asc')], [orderBy('x', 'asc').limitToLast(1)] flips
    both clauses and returns [u4], the last user by [(y, x)], while
    [orderBy('x', 'desc').limit(1)], reversed, returns [u3]. *)
Lemma limitToLast_after_orderBy_differs :
  let q := Query_orderBy (collection_query Example.users) "y" (Some asc) in
  let last_n := Query_get Example.store
                  (Query_limitToLast (Query_orderBy q "x" (Some asc)) (Finite 1 1)) in
  let first_n := Query_get Example.store
                   (Query_limit (Query_orderBy q "x" (Some desc)) (Finite 1 1)) in
  exists a b, fst last_n = Ok a /\ fst first_n = Ok b
    /\ map snap_ref (docs a)
       = [mkDocumentReference Example.store_config ["users"; "u4"] None]
    /\ map snap_ref (rev (docs b))
       = [mkDocumentReference Example.store_config ["users"; "u3"] None]
    /\ ~ same_in_reverse a b.
Proof.
  intros q last_n first_n. eexists. eexists.
  split; [vm_compute; reflexivity|]. split; [vm_compute; reflexivity|].
  split; [reflexivity|]. split; [reflexivity|].
  intros [Hd _]. vm_compute in Hd. discriminate Hd.
Qed.

(** A state with a cursor is outside the equivalence as well: after
    [startAt(2)], [limitToLast] sends no start cursor where [limit] sends
    the one of the state. *)
Lemma limitToLast_with_cursor_sends_other_query :
  let cursor := mkCursor [integerValue 2] true in
  let q := mkQuery Example.users
             (with_startAt (state (collection_query Example.users)) cursor) in
  Query_startAt Example.no_ids (collection_query Example.users) [VNumber (Finite 2 1)]
  = Ok q
  /\ (exists a b,
        compile (state (Query_limitToLast (Query_orderBy q "x" (Some asc)) (Finite 1 1)))
        = Ok a
        /\ compile (state (Query_limit (Query_orderBy q "x" (Some desc)) (Finite 1 1)))
           = Ok b
        /\ sq_startAt a = None /\ sq_startAt b = Some cursor).
Proof.
  intros cursor q. split; [reflexivity|].
  eexists. eexists. repeat split.
Qed.

End ReversalExamples.

(** ** [batchGet]: results in the order of the request *)

Section BatchGet.
Context `{Codec} `{Runtime}.

(** Filling the map from results that all have a key: it holds only
    results of the response under their own key, and every key of the
    response is bound. *)
Lemma fill_docMap_spec (l : list BatchGetResponse) (m0 : gmap string BatchGetResponse) :
  Forall (fun res => exists k, result_key res = Ok k) l ->
  exists m, fill_docMap m0 l = Ok m
    /\ (forall k res, m !! k = Some res ->
          m0 !! k = Some res \/ (In res l /\ result_key res = Ok k))
    /\ (forall k, is_Some (m0 !! k) -> is_Some (m !! k))
    /\ (forall res k, In res l -> result_key res = Ok k -> is_Some (m !! k)).
Proof.
  revert m0. induction l as [|r l IH]; intros m0 Hall.
  - exists m0. simpl. repeat split; auto. intros res k [].
  - inversion Hall as [|? ? [k Hk] Hl]; subst.
    destruct (IH (<[k := r]> m0) Hl) as (m & Hm & Hfrom & Hkeep & Hbound).
    exists m. simpl. rewrite Hk. simpl. split; [exact Hm|]. split; [|split].
    + intros k' res Hres. destruct (Hfrom k' res Hres) as [Hold|[Hin Hkey]].
      * destruct (decide (k = k')) as [<-|Hne].
        -- rewrite lookup_insert_eq in Hold. injection Hold as <-.
           right. split; [now left|exact Hk].
        -- rewrite lookup_insert_ne in Hold by exact Hne. now left.
      * right. split; [now right|exact Hkey].
    + intros k' Hs. apply Hkeep. destruct (decide (k = k')) as [<-|Hne].
      * rewrite lookup_insert_eq. eauto.
      * now rewrite lookup_insert_ne.
    + intros res k' [<-|Hin] Hkey.
      * assert (k' = k) as -> by congruence. apply Hkeep. rewrite lookup_insert_eq. eauto.
      * now apply (Hbound res).
Qed.

Lemma mapR_pointwise {A B : Type} (f : A -> result B) (P : A -> B -> Prop) (l : list A) :
  (forall x, In x l -> exists y, f x = Ok y /\ P x y) ->
  exists ys, mapR f l = Ok ys /\ Forall2 P l ys.
Proof.
  induction l as [|x l IH]; intros Hf.
  - exists []. split; [reflexivity|constructor].
  - destruct (Hf x) as (y & Hy & HP); [now left|].
    destruct IH as (ys & Hys & HF); [intros x' Hx'; apply Hf; now right|].
    exists (y :: ys). simpl. rewrite Hy. simpl. rewrite Hys. split; [reflexivity|].
    now constructor.
Qed.

Lemma Forall2_In_l {A B : Type} (P : A -> B -> Prop) (l : list A) (k : list B) (x : A) :
  Forall2 P l k -> In x l -> exists y, In y k /\ P x y.
Proof.
  induction 1 as [|a b l k Hab HF IH]; intros Hin; [inversion Hin|].
  destruct Hin as [<-|Hin].
  - exists b. split; [now left|exact Hab].
  - destruct (IH Hin) as (y & Hy & HP). exists y. split; [now right|exact HP].
Qed.

Lemma Forall2_In_r {A B : Type} (P : A -> B -> Prop) (l : list A) (k : list B) (y : B) :
  Forall2 P l k -> In y k -> exists x, In x l /\ P x y.
Proof.
  induction 1 as [|a b l k Hab HF IH]; intros Hin; [inversion Hin|].
  destruct Hin as [<-|Hin].
  - exists a. split; [now left|exact Hab].
  - destruct (IH Hin) as (x & Hx & HP). exists x. split; [now right|exact HP].
Qed.

End BatchGet.

(** The response is looked up by name: it is enough that it holds the same
    results as [results], one per requested reference, whatever their
    order and however often each occurs. *)
Lemma batchGet_by_name `{Codec} `{Runtime} (st : Store)
    (refs : list DocumentReference) (fields : option (list string))
    (consistency : option ConsistencyOptions)
    (results response : list BatchGetResponse) :
  Forall2 (fun r res => result_key res = Ok (DocumentReference_qualifiedPath r))
    refs results ->
  (forall res, In res response <-> In res results) ->
  fetch (log st)
    (mkRequest (request_path (config st) ":batchGet")
       (batchGet_request st refs fields consistency))
  = Ok (BatchGetResponses response) ->
  exists snaps,
    fst (Firestore_batchGet st refs fields consistency) = Ok snaps
    /\ length snaps = length refs
    /\ forall i r, refs !! i = Some r ->
         exists res, In res response
           /\ result_key res = Ok (DocumentReference_qualifiedPath r)
           /\ snaps !! i = Some (mkDocumentSnapshot r (result_document res) (bg_readTime res)).
Proof.
  intros Hres Hsame Hfetch.
  assert (Hkeys : Forall (fun res => exists k, result_key res = Ok k) response).
  { apply List.Forall_forall. intros res Hin. apply Hsame in Hin.
    destruct (Forall2_In_r _ _ _ _ Hres Hin) as (r & _ & Hk). eauto. }
  destruct (fill_docMap_spec response ∅ Hkeys) as (m & Hm & Hfrom & _ & Hbound).
  set (P := fun (r : DocumentReference) (s : DocumentSnapshot) =>
              exists res, In res response
                /\ result_key res = Ok (DocumentReference_qualifiedPath r)
                /\ s = mkDocumentSnapshot r (result_document res) (bg_readTime res)).
  destruct (mapR_pointwise (snapshot_of m) P refs) as (snaps & Hsnaps & HF).
  { intros r Hin. destruct (Forall2_In_l _ _ _ _ Hres Hin) as (res & Hres_in & Hk).
    apply Hsame in Hres_in.
    destruct (Hbound res _ Hres_in Hk) as [res' Hres'].
    unfold snapshot_of. rewrite Hres'. eexists. split; [reflexivity|].
    destruct (Hfrom _ _ Hres') as [Hempty|[Hin' Hk']].
    - rewrite lookup_empty in Hempty. discriminate.
    - exists res'. auto. }
  exists snaps. unfold Firestore_batchGet, request. rewrite Hfetch. simpl.
  rewrite Hm. simpl. split; [exact Hsnaps|]. split.
  - symmetry. eapply Forall2_length; exact HF.
  - intros i r Hi. destruct (Forall2_lookup_l _ _ _ _ _ HF Hi) as (s & Hs & res & Hin & Hk & ->).
    exists res. auto.
Qed.

(** C5.  When the service answers [batchGet] with one found-or-missing
    result per requested reference, in any order, the call returns one
    snapshot per reference, and the [i]-th snapshot has the [i]-th
    reference and the document and read time of a result of the response
    that bears the qualified path of that reference. *)
Theorem batchGet_restores_order `{Codec} `{Runtime} (st : Store)
    (refs : list DocumentReference) (fields : option (list string))
    (consistency : option ConsistencyOptions)
    (results response : list BatchGetResponse) :
  Forall2 (fun r res => result_key res = Ok (DocumentReference_qualifiedPath r))
    refs results ->
  Permutation response results ->
  fetch (log st)
    (mkRequest (request_path (config st) ":batchGet")
       (batchGet_request st refs fields consistency))
  = Ok (BatchGetResponses response) ->
  exists snaps,
    fst (Firestore_batchGet st refs fields consistency) = Ok snaps
    /\ length snaps = length refs
    /\ forall i r, refs !! i = Some r ->
         exists res, In res response
           /\ result_key res = Ok (DocumentReference_qualifiedPath r)
           /\ snaps !! i = Some (mkDocumentSnapshot r (result_document res) (bg_readTime res)).
Proof.
  intros Hres Hperm Hfetch.
  apply (batchGet_by_name st refs fields consistency results response Hres); [|exact Hfetch].
  intros res. split.
  - apply Permutation_in, Hperm.
  - apply Permutation_in. symmetry. exact Hperm.
Qed.

Section BatchGetExamples.
#[local] Existing Instance Example.codec.
#[local] Existing Instance Example.runtime.

(** The theorem at [batchGet([users/u1, users/nobody, users/u2])], which
    the example service answers in the opposite order. *)
Lemma batchGet_restores_order_witness :
  let ref id := mkDocumentReference Example.store_config ["users"; id] None in
  let refs := [ref "u1"; ref "nobody"; ref "u2"] in
  exists snaps,
    fst (Firestore_batchGet Example.store refs None None) = Ok snaps
    /\ length snaps = length refs
    /\ forall i r, refs !! i = Some r ->
         exists res,
           In res (rev (map Example.lookup (map DocumentReference_qualifiedPath refs)))
           /\ result_key res = Ok (DocumentReference_qualifiedPath r)
           /\ snaps !! i = Some (mkDocumentSnapshot r (result_document res) (bg_readTime res)).
Proof.
  intros ref refs.
  apply (batchGet_restores_order Example.store refs None None
           (map Example.lookup (map DocumentReference_qualifiedPath refs))).
  - repeat constructor.
  - symmetry. apply Permutation_rev.
  - reflexivity.
Defined.

End BatchGetExamples.

(** ** Transactions: the token on the requests of the body *)

Section TransactionFacts.
Context `{Codec} `{Runtime}.

(** [batchGet] sends one request, with the token of the store, and leaves
    the token and the pending writes alone. *)
Lemma Firestore_batchGet_trace (st : Store) (refs : list DocumentReference)
    (fields : option (list string)) (consistency : option ConsistencyOptions) :
  let st' := snd (Firestore_batchGet st refs fields consistency) in
  transaction st' = transaction st /\ writes st' = writes st /\ config st' = config st
  /\ exists docs mask nt rt path,
       log st' = log st ++ [mkRequest path (BatchGetRequest docs mask nt rt (transaction st))].
Proof.
  unfold Firestore_batchGet, request, batchGet_request. simpl.
  repeat split. eauto 10.
Qed.

(** [Query.get] sends at most one request, with the token of the store. *)
Lemma Query_get_trace (st : Store) (q : Query) :
  let st' := snd (Query_get st q) in
  transaction st' = transaction st /\ writes st' = writes st /\ config st' = config st
  /\ (log st' = log st
      \/ exists sq path,
           log st' = log st ++ [mkRequest path (RunQueryRequest sq (transaction st))]).
Proof.
  unfold Query_get.
  destruct (compile (state q)) as [sq|e]; [|simpl; auto].
  destruct (CollectionReference_parent (ref q)) as [parent|e]; [|simpl; auto].
  unfold request.
  match goal with |- context [fetch ?l ?r] => destruct (fetch l r) as [[| | |]|] end;
    simpl; repeat split; right; eauto.
Qed.

(** While the body runs, the token stays and every request it causes
    carries it. *)
Lemma run_body_trace {T : Type} (b : Body T) (st : Store) (tok : string) :
  transaction st = Some tok ->
  let st' := snd (run_body b st) in
  transaction st' = Some tok /\ config st' = config st
  /\ exists reqs, log st' = log st ++ reqs /\ Forall (carries tok) reqs.
Proof.
  revert st. induction b as [t|e|refs fields cons k IH|q k IH|w k IH]; intros st Htok.
  - simpl. repeat split; auto. exists []. now rewrite app_nil_r.
  - simpl. repeat split; auto. exists []. now rewrite app_nil_r.
  - cbn [run_body].
    pose proof (Firestore_batchGet_trace st refs fields cons) as Ht.
    destruct (Firestore_batchGet st refs fields cons) as [r st1]. simpl in Ht.
    destruct Ht as (Ht & _ & Hc & docs & mask & nt & rt & path & Hlog).
    destruct (IH r st1) as (Ht' & Hc' & reqs & Hlog' & Hall); [congruence|].
    split; [exact Ht'|]. split; [congruence|].
    eexists. rewrite Hlog', Hlog, <- app_assoc. split; [reflexivity|].
    constructor; [|exact Hall]. unfold carries. simpl. congruence.
  - cbn [run_body].
    pose proof (Query_get_trace st q) as Ht.
    destruct (Query_get st q) as [r st1]. simpl in Ht.
    destruct Ht as (Ht & _ & Hc & Hlog).
    destruct (IH r st1) as (Ht' & Hc' & reqs & Hlog' & Hall); [congruence|].
    split; [exact Ht'|]. split; [congruence|].
    destruct Hlog as [Hlog|(sq & path & Hlog)].
    + exists reqs. rewrite Hlog', Hlog. auto.
    + eexists. rewrite Hlog', Hlog, <- app_assoc. split; [reflexivity|].
      constructor; [|exact Hall]. unfold carries. simpl. congruence.
  - simpl. destruct (IH (buffer_write st w)) as (Ht' & Hc' & reqs & Hlog' & Hall);
      [exact Htok|].
    split; [exact Ht'|]. split; [exact Hc'|]. exists reqs. auto.
Qed.

(** A transaction that returns has committed, and the store is back to no
    token and no pending writes. *)
Lemma runTransaction_returns_clean {T : Type} (st : Store) (body : Body T)
    (options : option TransactionOptions) (t : T) :
  fst (Firestore_runTransaction st body options) = Ok t ->
  transaction (snd (Firestore_runTransaction st body options)) = None
  /\ writes (snd (Firestore_runTransaction st body options)) = None.
Proof.
  unfold Firestore_runTransaction.
  destruct (request st _ _) as [[resp|e] st1]; [|discriminate].
  destruct (run_body body _) as [[r|e] st2]; [|discriminate].
  destruct (request st2 _ _) as [[c|e] st3]; [|discriminate].
  simpl. auto.
Qed.

(** An error thrown by the body is the error of the transaction, and the
    store is left as the body left it: the two assignments that reset it
    are not reached. *)
Lemma runTransaction_body_throws {T : Type} (st : Store) (body : Body T)
    (options : option TransactionOptions) (resp : Response) (e : error) :
  fst (request st ":beginTransaction" (BeginTransactionRequest options)) = Ok resp ->
  let token := match resp with BeginTransactionResponse t => t | _ => None end in
  let st1 := set_transaction
               (snd (request st ":beginTransaction" (BeginTransactionRequest options)))
               token (Some []) in
  fst (run_body body st1) = Err e ->
  Firestore_runTransaction st body options = (Err e, snd (run_body body st1)).
Proof.
  unfold Firestore_runTransaction.
  destruct (request st _ _) as [r st0]. simpl. intros ->.
  destruct (run_body body _) as [r' st2]. simpl. now intros ->.
Qed.

(** So a body that throws leaves the token of the transaction on the
    store. *)
Lemma runTransaction_throw_leaves_token {T : Type} (st : Store) (body : Body T)
    (options : option TransactionOptions) (tok : string) (e : error) :
  fetch (log st)
    (mkRequest (request_path (config st) ":beginTransaction")
       (BeginTransactionRequest options))
  = Ok (BeginTransactionResponse (Some tok)) ->
  fst (Firestore_runTransaction st body options) = Err e ->
  transaction (snd (Firestore_runTransaction st body options)) = Some tok.
Proof.
  intros Hbegin.
  remember (Firestore_runTransaction st body options) as R eqn:HR.
  unfold Firestore_runTransaction, request in HR. rewrite Hbegin in HR.
  set (st1 := set_transaction _ (Some tok) (Some [])) in HR.
  pose proof (run_body_trace body st1 tok eq_refl) as Ht.
  destruct (run_body body st1) as [[t|e'] st2]; simpl in Ht; destruct Ht as (Htok & _).
  - destruct (fetch _ _) as [c|e'] in HR; subst R; simpl; [discriminate|].
    intros _. exact Htok.
  - subst R. simpl. intros _. exact Htok.
Qed.

End TransactionFacts.


Section TransactionExamples.
#[local] Existing Instance Example.codec.
#[local] Existing Instance Example.runtime.


(** C1, evaluated on the code.  A body that reads a document and then
    throws: the error reaches the caller, but the store keeps the token
    [tx-1] and the pending-writes list, so the next, unrelated [batchGet]
    sends the stale token.  A body that returns leaves the store without
    token and without pending writes. *)
Theorem runTransaction_throw_keeps_token :
  let u1 := mkDocumentReference Example.store_config ["users"; "u1"] None in
  let failing : Body nat :=
    CallBatchGet [u1] None None (fun _ => Throw (Thrown "boom")) in
  let after := Firestore_runTransaction Example.store failing None in
  fst after = Err (Thrown "boom")
  /\ transaction (snd after) = Some "tx-1"
  /\ writes (snd after) = Some []
  /\ batchGet_request (snd after) [u1] None None
     = BatchGetRequest [Example.qualified "u1"] None None None (Some "tx-1")
  /\ (let returning : Body nat := CallBatchGet [u1] None None (fun _ => Return 1%nat) in
      let done := Firestore_runTransaction Example.store returning None in
      fst done = Ok 1%nat /\ transaction (snd done) = None /\ writes (snd done) = None).
Proof.
  intros u1 failing after. repeat split.
Qed.

End TransactionExamples.

(** ** The builder never writes an existing object *)

Section Frame.
Context `{Codec}.
Import Heap.

Implicit Types (base : gmap positive cell) (l : positive).

Lemma preserves_ret {A : Type} base (a : A) (Q : A -> Prop) :
  Q a -> preserves base (ret a) Q.
Proof. intros Ha h Hsub. split; [exact Hsub|]. now intros a' [= <-]. Qed.

Lemma preserves_throw {A : Type} base (e : error) (Q : A -> Prop) :
  preserves base (throw e) Q.
Proof. intros h Hsub. split; [exact Hsub|]. intros a [=]. Qed.

Lemma preserves_lift {A : Type} base (r : result A) :
  preserves base (lift r) (fun _ => True).
Proof. intros h Hsub. split; [exact Hsub|]. auto. Qed.

Lemma preserves_bind {A B : Type} base (m : M A) (k : A -> M B)
    (Q : A -> Prop) (R : B -> Prop) :
  preserves base m Q ->
  (forall a, Q a -> preserves base (k a) R) ->
  preserves base (m ≫= k) R.
Proof.
  intros Hm Hk h Hsub. unfold mbind, M_bind, bindM.
  destruct (Hm h Hsub) as [Hs Hq]. destruct (m h) as [[a|e] h1]; simpl in *.
  - now apply (Hk a (Hq a eq_refl)).
  - split; [exact Hs|]. intros b [=].
Qed.

Lemma preserves_weaken {A : Type} base (m : M A) (Q R : A -> Prop) :
  preserves base m Q -> (forall a, Q a -> R a) -> preserves base m R.
Proof. intros Hm HQR h Hsub. destruct (Hm h Hsub) as [Hs Hq]. split; auto. Qed.

(** A new object is none of the old ones. *)
Lemma preserves_alloc base (c : cell) :
  preserves base (alloc c) (fun l => l ∉ dom base).
Proof.
  intros h Hsub. unfold alloc. simpl.
  assert (Hfresh : fresh (dom h) ∉ dom base).
  { intros Hin. apply (is_fresh (dom h)). now apply (subseteq_dom _ _ Hsub). }
  split.
  - apply insert_subseteq_r; [|exact Hsub]. now apply not_elem_of_dom.
  - now intros a [= <-].
Qed.

Lemma preserves_load base l : preserves base (load l) (fun _ => True).
Proof. intros h Hsub. unfold load. destruct (h !! l); simpl; auto. Qed.

(** Writing in place is harmless on an object that was not there. *)
Lemma preserves_store base l (c : cell) :
  l ∉ dom base -> preserves base (store l c) (fun _ => True).
Proof.
  intros Hl h Hsub. unfold store. simpl. split; [|auto].
  apply insert_subseteq_r; [|exact Hsub]. now apply not_elem_of_dom.
Qed.

Ltac frame_load :=
  eapply preserves_bind; [apply preserves_load|];
  intros [] _; first [apply preserves_ret; exact I | apply preserves_throw].

Lemma preserves_load_filters base l : preserves base (load_filters l) (fun _ => True).
Proof. unfold load_filters. frame_load. Qed.

Lemma preserves_load_orders base l : preserves base (load_orders l) (fun _ => True).
Proof. unfold load_orders. frame_load. Qed.

Lemma preserves_load_strings base l : preserves base (load_strings l) (fun _ => True).
Proof. unfold load_strings. frame_load. Qed.

Lemma preserves_load_values base l : preserves base (load_values l) (fun _ => True).
Proof. unfold load_values. frame_load. Qed.

Lemma preserves_load_options base l : preserves base (load_options l) (fun _ => True).
Proof. unfold load_options. frame_load. Qed.

Lemma preserves_load_query base l : preserves base (load_query l) (fun _ => True).
Proof. unfold load_query. frame_load. Qed.

Lemma preserves_push_order base l (x : Order) :
  l ∉ dom base -> preserves base (push_order l x) (fun _ => True).
Proof.
  intros Hl. unfold push_order.
  eapply preserves_bind; [apply preserves_load_orders|]. intros xs _.
  now apply preserves_store.
Qed.

Lemma preserves_push_string base l (x : string) :
  l ∉ dom base -> preserves base (push_string l x) (fun _ => True).
Proof.
  intros Hl. unfold push_string.
  eapply preserves_bind; [apply preserves_load_strings|]. intros xs _.
  now apply preserves_store.
Qed.

Lemma preserves_push_value base l (x : api_Value) :
  l ∉ dom base -> preserves base (push_value l x) (fun _ => True).
Proof.
  intros Hl. unfold push_value.
  eapply preserves_bind; [apply preserves_load_values|]. intros xs _.
  now apply preserves_store.
Qed.

(** [getFieldOrders] pushes onto the copy it has just made. *)
Lemma preserves_getFieldOrders base (o : Options) :
  preserves base (Heap.getFieldOrders o) (fun l => l ∉ dom base).
Proof.
  unfold Heap.getFieldOrders.
  eapply preserves_bind; [apply preserves_load_orders|]. intros explicit _.
  eapply preserves_bind; [apply preserves_alloc|]. intros fo Hfo.
  eapply preserves_bind with (Q := fun _ => True).
  { destruct explicit; [|now apply preserves_ret].
    eapply preserves_bind; [apply preserves_load_filters|]. intros fs _.
    destruct (firstInequality fs); [now apply preserves_ret|].
    now apply preserves_push_order. }
  intros _ _.
  eapply preserves_bind; [apply preserves_load_orders|]. intros current _.
  eapply preserves_bind with (Q := fun _ => True).
  { destruct (negb _); [now apply preserves_push_order|now apply preserves_ret]. }
  intros _ _. now apply preserves_ret.
Qed.

Lemma preserves_cursorLoop base (ids : nat -> string) (c : CollectionReference)
    (os : list Order) (vs : list value) (i : nat) (vals : positive) :
  vals ∉ dom base ->
  preserves base (cursorLoop ids c os vs i vals) (fun _ => True).
Proof.
  intros Hvals. revert os i. induction vs as [|v vs IH]; intros os i.
  - simpl. now apply preserves_ret.
  - destruct os as [|o os]; [apply preserves_throw|]. simpl.
    eapply preserves_bind; [apply preserves_lift|]. intros fv' _.
    destruct fv'; try apply preserves_throw;
      (eapply preserves_bind; [now apply preserves_push_value|]; intros _ _; apply IH).
Qed.

Lemma preserves_createCursor base (ids : nat -> string) (c : CollectionReference)
    (o : Options) (args : list value) (b : bool) :
  preserves base (Heap.createCursor ids c o args b) (fun l => l ∉ dom base).
Proof.
  unfold Heap.createCursor.
  eapply preserves_bind; [apply preserves_getFieldOrders|]. intros fo _.
  eapply preserves_bind; [apply preserves_load_orders|]. intros fieldOrders _.
  eapply preserves_bind; [apply preserves_lift|]. intros fieldValues _.
  destruct (_ <? _)%nat; [apply preserves_throw|].
  eapply preserves_bind; [apply preserves_alloc|]. intros vals Hvals.
  eapply preserves_bind; [apply preserves_alloc|]. intros cursor Hcursor.
  eapply preserves_bind; [now apply preserves_cursorLoop|]. intros _ _.
  now apply preserves_ret.
Qed.

(** A derived query is a new object, whatever the change allocates. *)
Lemma preserves_derive base (this : positive)
    (change : CollectionReference -> Options -> M Options) :
  (forall r o, preserves base (change r o) (fun _ => True)) ->
  preserves base (derive this change) (fun l => l ∉ dom base).
Proof.
  intros Hchange. unfold derive.
  eapply preserves_bind; [apply preserves_load_query|]. intros q _.
  eapply preserves_bind; [apply preserves_load_options|]. intros o _.
  eapply preserves_bind; [apply Hchange|]. intros o' _.
  eapply preserves_bind; [apply preserves_alloc|]. intros options _.
  apply preserves_alloc.
Qed.

Lemma preserves_cursor_method base (ids : nat -> string) (this : positive)
    (args : list value) (b : bool) (set : Options -> positive -> Options) :
  preserves base
    (derive this (fun r o => c ← Heap.createCursor ids r o args b; ret (set o c)))
    (fun l => l ∉ dom base).
Proof.
  apply preserves_derive. intros r o.
  eapply preserves_bind; [apply preserves_createCursor|]. intros c _.
  now apply preserves_ret.
Qed.

(** Every builder call keeps the objects of the store and returns a new
    one. *)
Lemma preserves_run_call base (ids : nat -> string) (c : call) (this : positive) :
  preserves base (run_call ids c this) (fun l => l ∉ dom base).
Proof.
  destruct c; simpl.
  - unfold Heap.Query_where.
    assert (Hd : preserves base
              (derive this (fun r o =>
                 v' ← lift (resolveDocumentId ids r fp v);
                 fs ← load_filters (o_filters o);
                 filters ← alloc (FilterArray (fs ++ [makeFilter fp op v']));
                 ret (set_filters o filters)))
              (fun l => l ∉ dom base)).
    { apply preserves_derive. intros r o.
      eapply preserves_bind; [apply preserves_lift|]. intros v' _.
      eapply preserves_bind; [apply preserves_load_filters|]. intros fs _.
      eapply preserves_bind; [apply preserves_alloc|]. intros filters _.
      now apply preserves_ret. }
    destruct v; try exact Hd. apply preserves_throw.
  - unfold Heap.Query_select.
    eapply preserves_bind; [apply preserves_alloc|]. intros args Hargs.
    eapply preserves_bind; [apply preserves_load_strings|]. intros given _.
    eapply preserves_bind with (Q := fun _ => True).
    { destruct given; [now apply preserves_push_string|now apply preserves_ret]. }
    intros _ _. apply preserves_derive. intros r o.
    eapply preserves_bind; [apply preserves_load_strings|]. intros paths _.
    now apply preserves_ret.
  - apply preserves_derive. intros r o.
    eapply preserves_bind; [apply preserves_load_orders|]. intros os _.
    eapply preserves_bind; [apply preserves_alloc|]. intros orders _.
    now apply preserves_ret.
  - apply preserves_derive. intros r o. now apply preserves_ret.
  - apply preserves_derive. intros r o. now apply preserves_ret.
  - apply preserves_derive. intros r o. now apply preserves_ret.
  - apply preserves_cursor_method.
  - apply preserves_cursor_method.
  - apply preserves_cursor_method.
  - apply preserves_cursor_method.
Qed.

(** What a query reads as depends only on the objects it reaches. *)
Lemma read_query_mono (h h' : gmap positive cell) (l : positive) (q : Query) :
  h ⊆ h' -> read_query h l = Some q -> read_query h' l = Some q.
Proof.
  intros Hsub. unfold read_query.
  destruct (h !! l) as [[| | | | | |r ol]|] eqn:El; try discriminate.
  rewrite (lookup_weaken _ _ _ _ El Hsub).
  destruct (h !! ol) as [[| | | | |o|]|] eqn:Eo; try discriminate.
  rewrite (lookup_weaken _ _ _ _ Eo Hsub).
  assert (Hc : forall c x, read_cursor h c = Some x -> read_cursor h' c = Some x).
  { intros [c|] x; simpl; [|auto].
    destruct (h !! c) as [[| | | |vl b| |]|] eqn:Ec; try discriminate.
    rewrite (lookup_weaken _ _ _ _ Ec Hsub).
    destruct (h !! vl) as [[| | |vs| | |]|] eqn:Ev; try discriminate.
    now rewrite (lookup_weaken _ _ _ _ Ev Hsub). }
  unfold read_options.
  destruct (h !! o_orderBy o) as [[|os| | | | |]|] eqn:E1; try discriminate.
  destruct (h !! o_filters o) as [[fs| | | | | |]|] eqn:E2; try discriminate.
  destruct (read_cursor h (o_startAt o)) as [sa|] eqn:E3; try discriminate.
  destruct (read_cursor h (o_endAt o)) as [ea|] eqn:E4; try discriminate.
  rewrite (lookup_weaken _ _ _ _ E1 Hsub), (lookup_weaken _ _ _ _ E2 Hsub),
    (Hc _ _ E3), (Hc _ _ E4). auto.
Qed.

End Frame.

(** ** The builder on the store computes the builder on values *)

Section Refinement.
Context `{Codec}.
#[local] Abbreviation value_getFieldOrders := getFieldOrders.
#[local] Abbreviation value_createCursor := createCursor.
Import Heap.

Implicit Types (h : gmap positive cell) (l : positive).

Lemma bind_Ok {A B : Type} (m : M A) (k : A -> M B) h h' (a : A) :
  m h = (Ok a, h') -> (m ≫= k) h = k a h'.
Proof. intros E. unfold mbind, M_bind, bindM. now rewrite E. Qed.

Lemma bind_Err {A B : Type} (m : M A) (k : A -> M B) h h' (e : error) :
  m h = (Err e, h') -> (m ≫= k) h = (Err e, h').
Proof. intros E. unfold mbind, M_bind, bindM. now rewrite E. Qed.

Lemma load_filters_run h l (xs : list Filter) :
  h !! l = Some (FilterArray xs) -> load_filters l h = (Ok xs, h).
Proof. intros E. unfold load_filters, load, mbind, M_bind, bindM. now rewrite E. Qed.

Lemma load_orders_run h l (xs : list Order) :
  h !! l = Some (OrderArray xs) -> load_orders l h = (Ok xs, h).
Proof. intros E. unfold load_orders, load, mbind, M_bind, bindM. now rewrite E. Qed.

Lemma load_strings_run h l (xs : list string) :
  h !! l = Some (StringArray xs) -> load_strings l h = (Ok xs, h).
Proof. intros E. unfold load_strings, load, mbind, M_bind, bindM. now rewrite E. Qed.

Lemma load_values_run h l (xs : list api_Value) :
  h !! l = Some (ValueArray xs) -> load_values l h = (Ok xs, h).
Proof. intros E. unfold load_values, load, mbind, M_bind, bindM. now rewrite E. Qed.

Lemma load_options_run h l (o : Options) :
  h !! l = Some (OptionsObject o) -> load_options l h = (Ok o, h).
Proof. intros E. unfold load_options, load, mbind, M_bind, bindM. now rewrite E. Qed.

Lemma load_query_run h l (r : CollectionReference) (ol : positive) :
  h !! l = Some (QueryObject r ol) -> load_query l h = (Ok (r, ol), h).
Proof. intros E. unfold load_query, load, mbind, M_bind, bindM. now rewrite E. Qed.

Lemma lookup_fresh h : h !! fresh (dom h) = None.
Proof. apply not_elem_of_dom, is_fresh. Qed.

(** An object of the store is still there after an allocation. *)
Lemma lookup_alloc h l (c c' : cell) :
  h !! l = Some c -> <[fresh (dom h) := c']> h !! l = Some c.
Proof.
  intros E. rewrite lookup_insert_ne; [exact E|].
  intros <-. rewrite lookup_fresh in E. discriminate.
Qed.

Lemma alloc_subseteq h (c : cell) : h ⊆ <[fresh (dom h) := c]> h.
Proof. apply insert_subseteq, lookup_fresh. Qed.

Lemma read_cursor_mono h h' (c : option positive) (x : option Cursor) :
  h ⊆ h' -> read_cursor h c = Some x -> read_cursor h' c = Some x.
Proof.
  intros Hsub. destruct c as [c|]; simpl; [|auto].
  destruct (h !! c) as [[| | | |vl b| |]|] eqn:Ec; try discriminate.
  rewrite (lookup_weaken _ _ _ _ Ec Hsub).
  destruct (h !! vl) as [[| | |vs| | |]|] eqn:Ev; try discriminate.
  now rewrite (lookup_weaken _ _ _ _ Ev Hsub).
Qed.

(** What the options read as, spelled out. *)
Lemma read_options_inv h (o : Options) (s : QueryOptions) :
  read_options h o = Some s <->
  h !! o_orderBy o = Some (OrderArray (orderBy s))
  /\ h !! o_filters o = Some (FilterArray (filters s))
  /\ read_cursor h (o_startAt o) = Some (startAt s)
  /\ read_cursor h (o_endAt o) = Some (endAt s)
  /\ o_select o = select s /\ o_from o = from s /\ o_where o = where_ s
  /\ o_offset o = offset s /\ o_limit o = limit s /\ o_reverse o = reverse s.
Proof.
  unfold read_options. split.
  - destruct (h !! o_orderBy o) as [[|os| | | | |]|]; try discriminate.
    destruct (h !! o_filters o) as [[fs| | | | | |]|]; try discriminate.
    destruct (read_cursor h (o_startAt o)) as [sa|]; try discriminate.
    destruct (read_cursor h (o_endAt o)) as [ea|]; try discriminate.
    intros [= <-]. simpl. repeat split.
  - intros (-> & -> & -> & -> & E1 & E2 & E3 & E4 & E5 & E6).
    destruct s; simpl in *. congruence.
Qed.

Lemma read_options_mono h h' (o : Options) (s : QueryOptions) :
  h ⊆ h' -> read_options h o = Some s -> read_options h' o = Some s.
Proof.
  intros Hsub. rewrite !read_options_inv.
  intros (E1 & E2 & E3 & E4 & Hrest). repeat split; try apply Hrest.
  - exact (lookup_weaken _ _ _ _ E1 Hsub).
  - exact (lookup_weaken _ _ _ _ E2 Hsub).
  - exact (read_cursor_mono _ _ _ _ Hsub E3).
  - exact (read_cursor_mono _ _ _ _ Hsub E4).
Qed.

(** [derive] on a query that reads as [q]: if the change gives options that
    read as [s'] (or throws as the change on values does), the new object
    reads as the query with state [s']. *)
Lemma derive_refines h (this : positive) (q : Query)
    (change : CollectionReference -> Options -> M Options)
    (pure : result QueryOptions) :
  read_query h this = Some q ->
  (forall o, read_options h o = Some (state q) ->
             refines_options (change (ref q) o h) pure) ->
  refines_query (derive this change h) (mkQuery (ref q) <$> pure).
Proof.
  unfold read_query. intros Hq Hchange.
  destruct (h !! this) as [[| | | | | |r ol]|] eqn:El; try discriminate.
  destruct (h !! ol) as [[| | | | |o|]|] eqn:Eo; try discriminate.
  destruct (read_options h o) as [s|] eqn:Es; [|discriminate].
  injection Hq as <-. simpl in Hchange. specialize (Hchange o Es).
  unfold derive. rewrite (bind_Ok _ _ _ _ _ (load_query_run _ _ _ _ El)).
  rewrite (bind_Ok _ _ _ _ _ (load_options_run _ _ _ Eo)). simpl.
  unfold refines_options in Hchange.
  destruct (change r o h) as [[o'|e] h1] eqn:Ec; simpl in Hchange.
  - destruct pure as [s'|]; [|contradiction].
    rewrite (bind_Ok _ _ _ _ _ Ec). unfold mbind, M_bind, bindM, alloc. simpl.
    unfold refines_query, read_query. simpl.
    set (l2 := fresh (dom h1)).
    set (h2 := <[l2 := OptionsObject o']> h1).
    rewrite lookup_insert_eq.
    assert (E2 : h2 !! l2 = Some (OptionsObject o')) by apply lookup_insert_eq.
    rewrite (lookup_alloc _ _ _ _ E2).
    rewrite (read_options_mono h1 _ o' s'); [reflexivity| |exact Hchange].
    etransitivity; [apply alloc_subseteq|]. apply alloc_subseteq.
  - destruct pure as [|e']; [contradiction|]. subst e'.
    rewrite (bind_Err _ _ _ _ _ Ec). reflexivity.
Qed.

Ltac read_options_fields Hs :=
  apply read_options_inv; apply read_options_inv in Hs; simpl;
  destruct Hs as (? & ? & ? & ? & ? & ? & ? & ? & ? & ?); repeat split; auto.

Lemma value_eq_undefined (v : value) : v = VUndefined \/ v <> VUndefined.
Proof. destruct v; auto; right; discriminate. Qed.

Lemma Query_limit_refines h (this : positive) (q : Query) (n : number) (b : bool) :
  read_query h this = Some q ->
  refines_query (derive this (fun r o => ret (set_limit o n b)) h)
    (Ok (mkQuery (ref q) (with_limit (state q) n b))).
Proof.
  intros Hq. apply (derive_refines h this q _ (Ok (with_limit (state q) n b)) Hq).
  intros o Hs. unfold refines_options. simpl. read_options_fields Hs.
Qed.

Lemma Query_offset_refines h (this : positive) (q : Query) (n : number) :
  read_query h this = Some q ->
  refines_query (Heap.Query_offset this n h) (pure_call (fun _ => "") (DoOffset n) q).
Proof.
  intros Hq. apply (derive_refines h this q _ (Ok (with_offset (state q) n)) Hq).
  intros o Hs. unfold refines_options. simpl. read_options_fields Hs.
Qed.

Lemma Query_orderBy_refines h (this : positive) (q : Query) (fp : string)
    (d : option OrderByDirection) :
  read_query h this = Some q ->
  refines_query (Heap.Query_orderBy this fp d h)
    (pure_call (fun _ => "") (DoOrderBy fp d) q).
Proof.
  intros Hq.
  apply (derive_refines h this q _
           (Ok (with_orderBy (state q)
                  (orderBy (state q) ++ [mkOrder (mkField fp) (directionOperators d)])))
           Hq).
  intros o Hs. unfold refines_options.
  pose proof (proj1 (read_options_inv _ _ _) Hs) as (Eo & _).
  rewrite (bind_Ok _ _ _ _ _ (load_orders_run _ _ _ Eo)).
  unfold mbind, M_bind, bindM, alloc, ret. simpl.
  apply (read_options_mono _ _ _ _ (alloc_subseteq h
           (OrderArray (orderBy (state q)
                        ++ [mkOrder (mkField fp) (directionOperators d)])))) in Hs.
  read_options_fields Hs. apply lookup_insert_eq.
Qed.

Lemma Query_where_refines h (this : positive) (q : Query) (ids : nat -> string)
    (fp : string) (op : WhereFilterOp) (v : value) :
  read_query h this = Some q ->
  refines_query (Heap.Query_where ids this fp op v h) (pure_call ids (DoWhere fp op v) q).
Proof.
  intros Hq. simpl.
  destruct (value_eq_undefined v) as [->|Hv]; [reflexivity|].
  rewrite Query_where_resolved by exact Hv.
  assert (Hd : refines_query
            (derive this (fun r o =>
               v' ← lift (resolveDocumentId ids r fp v);
               fs ← load_filters (o_filters o);
               filters ← alloc (FilterArray (fs ++ [makeFilter fp op v']));
               ret (set_filters o filters)) h)
            (mkQuery (ref q) <$>
               (v' ← resolveDocumentId ids (ref q) fp v;
                Ok (with_filters (state q) (filters (state q) ++ [makeFilter fp op v']))))).
  { apply (derive_refines h this q _ _ Hq). intros o Hs. unfold refines_options.
    destruct (resolveDocumentId ids (ref q) fp v) as [v'|e] eqn:Er.
    - rewrite (bind_Ok _ _ h h v') by reflexivity.
      pose proof (proj1 (read_options_inv _ _ _) Hs) as (_ & Ef & _).
      rewrite (bind_Ok _ _ _ _ _ (load_filters_run _ _ _ Ef)).
      unfold mbind, M_bind, bindM, alloc, ret. simpl.
      apply (read_options_mono _ _ _ _ (alloc_subseteq h
               (FilterArray (filters (state q) ++ [makeFilter fp op v'])))) in Hs.
      read_options_fields Hs. apply lookup_insert_eq.
    - rewrite (bind_Err _ _ h h e) by reflexivity. reflexivity. }
  unfold Heap.Query_where.
  destruct (resolveDocumentId ids (ref q) fp v) as [v'|e]; destruct v; try exact Hd;
    congruence.
Qed.

Lemma Query_select_refines h (this : positive) (q : Query) (fieldPaths : list string) :
  read_query h this = Some q ->
  refines_query (Heap.Query_select this fieldPaths h)
    (pure_call (fun _ => "") (DoSelect fieldPaths) q).
Proof.
  intros Hq. unfold Heap.Query_select.
  set (paths := match fieldPaths with [] => [documentId] | _ => fieldPaths end).
  set (args := fresh (dom h)).
  unfold mbind at 1, M_bind at 1, bindM at 1, alloc at 1. simpl. fold args.
  set (h1 := <[args := StringArray fieldPaths]> h).
  assert (E1 : h1 !! args = Some (StringArray fieldPaths)) by apply lookup_insert_eq.
  rewrite (bind_Ok _ _ _ _ _ (load_strings_run _ _ _ E1)).
  assert (Hafter : exists h2, h ⊆ h2 /\ h2 !! args = Some (StringArray paths)
            /\ ((match fieldPaths with
                 | [] => push_string args documentId
                 | _ => ret tt
                 end) h1 = (Ok tt, h2))).
  { destruct fieldPaths as [|p ps].
    - exists (<[args := StringArray [documentId]]> h1). split; [|split].
      + unfold h1. rewrite insert_insert_eq. apply alloc_subseteq.
      + apply lookup_insert_eq.
      + unfold push_string. now rewrite (bind_Ok _ _ _ _ _ (load_strings_run _ _ _ E1)).
    - exists h1. split; [apply alloc_subseteq|]. split; [exact E1|reflexivity]. }
  destruct Hafter as (h2 & Hsub & E2 & Hpush).
  rewrite (bind_Ok _ _ _ _ _ Hpush).
  apply (derive_refines h2 this q _
           (Ok (with_select (state q) (map mkField paths)))
           (read_query_mono _ _ _ _ Hsub Hq)).
  intros o Hs. unfold refines_options.
  rewrite (bind_Ok _ _ _ _ _ (load_strings_run _ _ _ E2)). simpl.
  read_options_fields Hs.
Qed.

Lemma push_order_run h l (xs : list Order) (x : Order) :
  h !! l = Some (OrderArray xs) ->
  push_order l x h = (Ok tt, <[l := OrderArray (xs ++ [x])]> h).
Proof.
  intros E. unfold push_order. now rewrite (bind_Ok _ _ _ _ _ (load_orders_run _ _ _ E)).
Qed.

Lemma push_value_run h l (xs : list api_Value) (x : api_Value) :
  h !! l = Some (ValueArray xs) ->
  push_value l x h = (Ok tt, <[l := ValueArray (xs ++ [x])]> h).
Proof.
  intros E. unfold push_value. now rewrite (bind_Ok _ _ _ _ _ (load_values_run _ _ _ E)).
Qed.

Lemma firstInequality_cases (fs : list Filter) :
  firstInequality fs = [] \/ exists x, firstInequality fs = [x].
Proof.
  induction fs as [|[f u|f op v|op gs] fs IH]; simpl; auto.
  destruct (inequalityFilters op); eauto.
Qed.

(** [getFieldOrders] on the store ends with a new array that holds the
    field orders of the state. *)
Lemma getFieldOrders_run h (o : Options) (s : QueryOptions) :
  read_options h o = Some s ->
  exists fo h1, Heap.getFieldOrders o h = (Ok fo, h1)
    /\ h ⊆ h1 /\ h1 !! fo = Some (OrderArray (value_getFieldOrders s)).
Proof.
  intros Hs. pose proof (proj1 (read_options_inv _ _ _) Hs) as (Eo & Ef & _).
  unfold Heap.getFieldOrders.
  rewrite (bind_Ok _ _ _ _ _ (load_orders_run _ _ _ Eo)).
  unfold mbind at 1, M_bind at 1, bindM at 1, alloc at 1. simpl.
  set (fo := fresh (dom h)).
  set (h1 := <[fo := OrderArray (orderBy s)]> h).
  assert (Hfo : h !! fo = None) by apply lookup_fresh.
  assert (E1 : h1 !! fo = Some (OrderArray (orderBy s))) by apply lookup_insert_eq.
  set (start := match orderBy s with [] => firstInequality (filters s) | os => os end).
  assert (Hstep : exists h2, h ⊆ h2 /\ h2 !! fo = Some (OrderArray start)
            /\ (match orderBy s with
                 | [] =>
                     fs ← load_filters (o_filters o);
                     match firstInequality fs with
                     | first :: _ => push_order fo first
                     | [] => ret tt
                     end
                 | _ => ret tt
                 end) h1 = (Ok tt, h2)).
  { subst start. destruct (orderBy s) as [|x xs] eqn:Eos.
    - assert (Ef1 : h1 !! o_filters o = Some (FilterArray (filters s))).
      { apply lookup_alloc, Ef. }
      rewrite (bind_Ok _ _ _ _ _ (load_filters_run _ _ _ Ef1)).
      destruct (firstInequality_cases (filters s)) as [->|[x ->]].
      + exists h1. split; [apply alloc_subseteq|]. split; [exact E1|reflexivity].
      + exists (<[fo := OrderArray ([] ++ [x])]> h1). split; [|split].
        * unfold h1. rewrite insert_insert_eq. apply alloc_subseteq.
        * apply lookup_insert_eq.
        * now apply push_order_run.
    - exists h1. split; [apply alloc_subseteq|]. split; [exact E1|reflexivity]. }
  destruct Hstep as (h2 & Hsub & E2 & Hrun).
  rewrite (bind_Ok _ _ _ _ _ Hrun).
  rewrite (bind_Ok _ _ _ _ _ (load_orders_run _ _ _ E2)).
  assert (Hnone : existsb (fun x => field_strict_equals (field x) documentId) start = false).
  { generalize start. induction start0; simpl; auto. }
  rewrite Hnone. simpl.
  rewrite (bind_Ok _ _ _ _ _ (push_order_run _ _ _ _ E2)).
  eexists. eexists. split; [reflexivity|]. split.
  - apply insert_subseteq_r; [exact Hfo|exact Hsub].
  - rewrite lookup_insert_eq, getFieldOrders_appends. reflexivity.
Qed.

(** The loop on the store pushes what the loop on values computes. *)
Lemma cursorLoop_run (ids : nat -> string) (c : CollectionReference)
    (os : list Order) (vs : list value) (i : nat) (vals : positive)
    (acc : list api_Value) h :
  h !! vals = Some (ValueArray acc) ->
  match cursorValues ids c os vs i with
  | Ok xs => cursorLoop ids c os vs i vals h = (Ok tt, <[vals := ValueArray (acc ++ xs)]> h)
  | Err e => exists acc', cursorLoop ids c os vs i vals h
                          = (Err e, <[vals := ValueArray acc']> h)
  end.
Proof.
  revert os i acc h. induction vs as [|v vs IH]; intros os i acc h Hv.
  - simpl. rewrite app_nil_r, insert_id by exact Hv. reflexivity.
  - destruct os as [|o os].
    + simpl. exists acc. now rewrite insert_id.
    + cbn [cursorValues cursorLoop].
      set (r := match v with
                | VString s =>
                    if field_strict_equals (field o) documentId
                    then VReference <$> CollectionReference_doc c (Some s) (ids i)
                    else Ok v
                | _ => Ok v
                end).
      destruct r as [fv'|e].
      * rewrite (bind_Ok _ _ h h fv') by reflexivity.
        assert (Hnext : fv' <> VUndefined ->
                  match (xs ← cursorValues ids c os vs (S i); Ok (encodeValue fv' :: xs)) with
                  | Ok xs =>
                      (_ ← push_value vals (encodeValue fv');
                       cursorLoop ids c os vs (S i) vals) h
                      = (Ok tt, <[vals := ValueArray (acc ++ xs)]> h)
                  | Err e => exists acc',
                      (_ ← push_value vals (encodeValue fv');
                       cursorLoop ids c os vs (S i) vals) h
                      = (Err e, <[vals := ValueArray acc']> h)
                  end).
        { intros _. rewrite (bind_Ok _ _ _ _ _ (push_value_run _ _ _ _ Hv)).
          specialize (IH os (S i) (acc ++ [encodeValue fv'])
                        (<[vals := ValueArray (acc ++ [encodeValue fv'])]> h)
                        (lookup_insert_eq _ _ _)).
          destruct (cursorValues ids c os vs (S i)) as [xs|e]; simpl.
          - rewrite IH, insert_insert_eq, <- app_assoc. reflexivity.
          - destruct IH as [acc' IH]. exists acc'. now rewrite IH, insert_insert_eq. }
        destruct fv'; try (apply Hnext; discriminate).
        simpl. exists acc. now rewrite insert_id.
      * rewrite (bind_Err _ _ h h e) by reflexivity. simpl.
        exists acc. now rewrite insert_id.
Qed.

Lemma createCursor_refines h (r : CollectionReference) (o : Options)
    (s : QueryOptions) (ids : nat -> string) (args : list value) (b : bool) :
  read_options h o = Some s ->
  h ⊆ (Heap.createCursor ids r o args b h).2
  /\ refines_cursor (Heap.createCursor ids r o args b h)
       (value_createCursor ids (mkQuery r s) args b).
Proof.
  intros Hs. destruct (getFieldOrders_run h o s Hs) as (fo & h1 & Hrun & Hsub1 & Efo).
  remember (Heap.createCursor ids r o args b h) as out eqn:Eout.
  unfold Heap.createCursor in Eout.
  rewrite (bind_Ok _ _ _ _ _ Hrun), (bind_Ok _ _ _ _ _ (load_orders_run _ _ _ Efo)) in Eout.
  unfold value_createCursor, refines_cursor. cbn [state ref].
  revert Eout.
  set (fv := match args with
             | [VSnapshot snap] => extractFieldValues snap (value_getFieldOrders s)
             | _ => Ok args
             end).
  destruct fv as [fieldValues|e]; intros Eout.
  2: { rewrite (bind_Err _ _ h1 h1 e) in Eout by reflexivity. subst out. now split. }
  rewrite (bind_Ok _ _ h1 h1 fieldValues) in Eout by reflexivity. cbv beta in Eout.
  revert Eout. simpl.
  destruct (length (value_getFieldOrders s) <? length fieldValues)%nat; intros Eout;
    [subst out; now split|].
  unfold mbind at 1, M_bind at 1, bindM at 1, alloc at 1 in Eout. simpl in Eout.
  set (vals := fresh (dom h1)) in Eout.
  set (h2 := <[vals := ValueArray []]> h1) in Eout.
  unfold mbind at 1, M_bind at 1, bindM at 1, alloc at 1 in Eout. simpl in Eout.
  set (cursor := fresh (dom h2)) in Eout.
  set (h3 := <[cursor := CursorObject vals b]> h2) in Eout.
  assert (E2 : h2 !! vals = Some (ValueArray [])) by apply lookup_insert_eq.
  assert (E3 : h3 !! vals = Some (ValueArray [])) by apply (lookup_alloc _ _ _ _ E2).
  assert (Hne : vals <> cursor).
  { intros E. pose proof (lookup_fresh h2) as Hf. fold cursor in Hf. rewrite <- E in Hf.
    congruence. }
  assert (Hvals : h !! vals = None).
  { apply not_elem_of_dom. intros Hin. apply (is_fresh (dom h1)).
    now apply (subseteq_dom _ _ Hsub1). }
  assert (Hsub3 : h ⊆ h3).
  { etransitivity; [exact Hsub1|]. etransitivity; apply alloc_subseteq. }
  pose proof (cursorLoop_run ids r (value_getFieldOrders s) fieldValues 0 vals [] h3 E3)
    as Hloop.
  destruct (cursorValues ids r (value_getFieldOrders s) fieldValues 0) as [xs|e].
  - rewrite (bind_Ok _ _ _ _ _ Hloop) in Eout. subst out. simpl. split.
    + now apply insert_subseteq_r.
    + rewrite lookup_insert_ne by exact Hne. unfold h3 at 1. rewrite lookup_insert_eq.
      now rewrite lookup_insert_eq.
  - destruct Hloop as [acc' Hloop]. rewrite (bind_Err _ _ _ _ _ Hloop) in Eout.
    subst out. simpl. split.
    + now apply insert_subseteq_r.
    + reflexivity.
Qed.

Lemma cursor_method_refines h (this : positive) (q : Query) (ids : nat -> string)
    (args : list value) (b : bool)
    (set : Options -> positive -> Options) (pure_set : QueryOptions -> Cursor -> QueryOptions) :
  (forall h' o s l c, read_options h' o = Some s ->
                      read_cursor h' (Some l) = Some (Some c) ->
                      read_options h' (set o l) = Some (pure_set s c)) ->
  read_query h this = Some q ->
  refines_query
    (derive this (fun r o => c ← Heap.createCursor ids r o args b; ret (set o c)) h)
    (c ← value_createCursor ids q args b; Ok (mkQuery (ref q) (pure_set (state q) c))).
Proof.
  intros Hset Hq.
  assert (E : (c ← value_createCursor ids q args b;
               Ok (mkQuery (ref q) (pure_set (state q) c)))
              = mkQuery (ref q) <$>
                  (c ← value_createCursor ids q args b; Ok (pure_set (state q) c))).
  { destruct (value_createCursor ids q args b); reflexivity. }
  rewrite E. apply (derive_refines h this q _ _ Hq). intros o Hs.
  destruct (createCursor_refines h (ref q) o (state q) ids args b Hs) as [Hsub Hc].
  unfold refines_cursor in Hc. unfold refines_options.
  replace (mkQuery (ref q) (state q)) with q in Hc by now destruct q.
  destruct (Heap.createCursor ids (ref q) o args b h) as [[l|e] h1] eqn:Ec;
    destruct (value_createCursor ids q args b) as [c|e']; simpl in *; try contradiction.
  - rewrite (bind_Ok _ _ _ _ _ Ec). simpl. apply Hset; [|exact Hc].
    now apply (read_options_mono h).
  - rewrite (bind_Err _ _ _ _ _ Ec). exact Hc.
Qed.

(** Every builder call on an object that reads as [q] gives what the call
    on [q] gives. *)
Lemma run_call_refines h (this : positive) (q : Query) (ids : nat -> string) (c : call) :
  read_query h this = Some q ->
  refines_query (run_call ids c this h) (pure_call ids c q).
Proof.
  intros Hq. destruct c.
  - now apply Query_where_refines.
  - now apply Query_select_refines.
  - now apply Query_orderBy_refines.
  - now apply Query_limit_refines.
  - now apply Query_limit_refines.
  - now apply Query_offset_refines.
  - apply (cursor_method_refines h this q ids args true set_startAt with_startAt);
      [|exact Hq]. intros h' o s l c Hs Hc. read_options_fields Hs.
  - apply (cursor_method_refines h this q ids args false set_startAt with_startAt);
      [|exact Hq]. intros h' o s l c Hs Hc. read_options_fields Hs.
  - apply (cursor_method_refines h this q ids args true set_endAt with_endAt);
      [|exact Hq]. intros h' o s l c Hs Hc. read_options_fields Hs.
  - apply (cursor_method_refines h this q ids args false set_endAt with_endAt);
      [|exact Hq]. intros h' o s l c Hs Hc. read_options_fields Hs.
Qed.

End Refinement.

(** C10.  For a query object that reads as [q] and any builder call on it
    ([where], [select], [orderBy], [limit], [limitToLast], [offset],
    [startAt], [startAfter], [endAt], [endAfter]): the object still reads
    as [q] afterwards and no object of the store has changed; a call that
    returns gives an object that was not in the store, which reads as the
    result of the call on the value [q]; a call that throws throws what the
    call on [q] throws. *)
Theorem builder_call_returns_new_query `{Codec} (ids : nat -> string) (c : Heap.call)
    (h : gmap positive Heap.cell) (this : positive) (q : Query) :
  Heap.read_query h this = Some q ->
  let out := Heap.run_call ids c this h in
  Heap.read_query out.2 this = Some q
  /\ (forall l x, h !! l = Some x -> out.2 !! l = Some x)
  /\ (forall l, out.1 = Ok l ->
        h !! l = None
        /\ exists q', pure_call ids c q = Ok q' /\ Heap.read_query out.2 l = Some q')
  /\ (forall e, out.1 = Err e -> pure_call ids c q = Err e).
Proof.
  intros Hq out.
  destruct (preserves_run_call h ids c this h) as [Hsub Hnew]; [reflexivity|].
  pose proof (run_call_refines h this q ids c Hq) as Href.
  fold out in Hsub, Hnew, Href. unfold refines_query in Href.
  split; [now apply (read_query_mono h)|].
  split; [intros l x Hl; exact (lookup_weaken _ _ _ _ Hl Hsub)|].
  split.
  - intros l Hl. split; [apply not_elem_of_dom, Hnew, Hl|].
    rewrite Hl in Href. destruct (pure_call ids c q) as [q'|]; [eauto|contradiction].
  - intros e He. rewrite He in Href.
    destruct (pure_call ids c q) as [|e']; [contradiction|congruence].
Qed.

Section BuilderExamples.
#[local] Existing Instance Example.codec.

(** The theorem at the collection [users] as an object of a fresh store and
    the call [orderBy('x', 'asc')]. *)
Lemma builder_call_returns_new_query_witness :
  let made := Heap.newCollection Example.users ∅ in
  let users := 4%positive in
  let out := Heap.run_call Example.no_ids (Heap.DoOrderBy "x" (Some asc)) users made.2 in
  made.1 = Ok users
  /\ Heap.read_query out.2 users = Some (collection_query Example.users)
  /\ (forall l x, made.2 !! l = Some x -> out.2 !! l = Some x)
  /\ (forall l, out.1 = Ok l ->
        made.2 !! l = None
        /\ exists q', pure_call Example.no_ids (Heap.DoOrderBy "x" (Some asc))
                        (collection_query Example.users) = Ok q'
                      /\ Heap.read_query out.2 l = Some q')
  /\ (forall e, out.1 = Err e ->
        pure_call Example.no_ids (Heap.DoOrderBy "x" (Some asc))
          (collection_query Example.users) = Err e).
Proof.
  intros made users out. split; [vm_compute; reflexivity|].
  apply (builder_call_returns_new_query Example.no_ids (Heap.DoOrderBy "x" (Some asc))
           made.2 users (collection_query Example.users)).
  vm_compute. reflexivity.
Defined.

End BuilderExamples.

(** * Further properties *)

(** ** Paths of clean segments *)

Section CleanPaths.

Lemma clean_inv (s : string) : clean s = true -> s <> "" /\ no_slash s = true.
Proof.
  unfold clean. destruct s; simpl; [discriminate|]. intros Hs. split; [discriminate|exact Hs].
Qed.

Lemma split_no_slash (s : string) : no_slash s = true -> Path.split s = [s].
Proof.
  induction s as [|c s IH]; simpl; [reflexivity|].
  destruct (Ascii.eqb c Path.slash); simpl; [discriminate|].
  intros Hs. now rewrite (IH Hs).
Qed.

Lemma split_app_slash (x t : string) :
  no_slash x = true -> Path.split (x ++ "/" ++ t) = x :: Path.split t.
Proof.
  induction x as [|c x IH]; simpl; [reflexivity|].
  destruct (Ascii.eqb c Path.slash); simpl; [discriminate|].
  intros Hx. now rewrite (IH Hx).
Qed.

(** Splitting a joined list gives the list back. *)
Lemma split_join (l : list string) :
  l <> [] -> Forall (fun s => no_slash s = true) l -> Path.split (Path.join l) = l.
Proof.
  induction l as [|x l IH]; [easy|]. intros _ Hall.
  inversion Hall as [|? ? Hx Hl]; subst.
  destruct l as [|y l].
  - simpl. now apply split_no_slash.
  - change (Path.join (x :: y :: l)) with (x ++ "/" ++ Path.join (y :: l))%string.
    rewrite split_app_slash by exact Hx. now rewrite IH.
Qed.

Lemma pieces_no_slash (s : string) : Forall (fun p => no_slash p = true) (Path.split s).
Proof.
  induction s as [|c s IH]; simpl; [repeat constructor|].
  destruct (Ascii.eqb c Path.slash) eqn:Ec; [now constructor|].
  pose proof (split_nonempty s) as Hne.
  destruct (Path.split s) as [|w ws]; [easy|].
  inversion IH; subst. constructor; [simpl; now rewrite Ec|assumption].
Qed.

Lemma drop_trailing_clean (s : string) : clean s = true -> Path.drop_trailing s = s.
Proof.
  intros Hc. apply clean_inv in Hc as [Hne Hs].
  induction s as [|c s IH]; [easy|]. simpl in Hs.
  destruct (Ascii.eqb c Path.slash) eqn:Ec; [discriminate|]. simpl in Hs.
  destruct s as [|c' s]; simpl.
  - now rewrite Ec.
  - f_equal. apply IH; [discriminate|exact Hs].
Qed.

Lemma drop_trailing_cons (c : ascii) (s : string) :
  s <> "" -> Path.drop_trailing (String c s) = String c (Path.drop_trailing s).
Proof. destruct s; [easy|reflexivity]. Qed.

Lemma drop_trailing_app (a b : string) :
  b <> "" -> Path.drop_trailing (a ++ b) = (a ++ Path.drop_trailing b)%string.
Proof.
  intros Hb. induction a as [|c a IH]; [reflexivity|].
  change (String c a ++ b)%string with (String c (a ++ b)).
  rewrite drop_trailing_cons, IH; [reflexivity|].
  destruct a; simpl; [exact Hb|discriminate].
Qed.

Lemma join_clean_nonempty (l : list string) :
  l <> [] -> Forall (fun s => clean s = true) l -> Path.join l <> "".
Proof.
  destruct l as [|x l]; [easy|]. intros _ Hall.
  inversion Hall as [|? ? Hx _]; subst. apply clean_inv in Hx as [Hne _].
  destruct l; simpl; [exact Hne|]. destruct x; [contradiction|discriminate].
Qed.

Lemma drop_trailing_join (l : list string) :
  Forall (fun s => clean s = true) l -> Path.drop_trailing (Path.join l) = Path.join l.
Proof.
  induction l as [|x l IH]; [reflexivity|]. intros Hall.
  inversion Hall as [|? ? Hx Hl]; subst.
  destruct l as [|y l]; [simpl; now apply drop_trailing_clean|].
  change (Path.join (x :: y :: l)) with (x ++ "/" ++ Path.join (y :: l))%string.
  rewrite drop_trailing_app by discriminate.
  change ("/" ++ Path.join (y :: l))%string with (String "/" (Path.join (y :: l))).
  assert (Hne : Path.join (y :: l) <> "") by now apply join_clean_nonempty.
  rewrite drop_trailing_cons by exact Hne. now rewrite (IH Hl).
Qed.

(** [trim] leaves the path of clean segments alone. *)
Lemma trim_join (l : list string) :
  Forall (fun s => clean s = true) l -> Path.trim (Path.join l) = Path.join l.
Proof.
  intros Hall. pose proof (drop_trailing_join l Hall) as Hd.
  destruct l as [|x l]; [reflexivity|].
  inversion Hall as [|? ? Hx _]; subst. apply clean_inv in Hx as [Hne Hs].
  destruct x as [|c x]; [contradiction|]. simpl in Hs.
  destruct (Ascii.eqb c Path.slash) eqn:Ec; [discriminate|].
  assert (E : exists t, Path.join (String c x :: l) = String c t).
  { destruct l; simpl; eauto. }
  destruct E as [t E]. rewrite E in *. unfold Path.trim. now rewrite Ec.
Qed.

Lemma clean_no_slash (l : list string) :
  Forall (fun s => clean s = true) l -> Forall (fun s => no_slash s = true) l.
Proof.
  intros Hall. eapply Forall_impl; [exact Hall|].
  intros s Hs. now apply clean_inv in Hs.
Qed.

Lemma filter_Boolean_clean (l : list string) :
  Forall (fun s => clean s = true) l -> Path.filter_Boolean l = l.
Proof.
  induction 1 as [|x l Hx Hl IH]; [reflexivity|].
  unfold Path.filter_Boolean in *. simpl. rewrite IH.
  apply clean_inv in Hx as [Hne _]. destruct x; [contradiction|reflexivity].
Qed.

(** The segments of a path of clean segments, as both constructors compute
    them from the string. *)
Lemma segments_of_join (l : list string) :
  Forall (fun s => clean s = true) l ->
  Path.filter_Boolean (Path.split (Path.trim (Path.join l))) = l
  /\ (l <> [] -> Path.split (Path.trim (Path.join l)) = l).
Proof.
  intros Hall. rewrite trim_join by exact Hall. destruct l as [|x l].
  - split; [reflexivity|easy].
  - rewrite split_join; [|discriminate|now apply clean_no_slash].
    split; [now apply filter_Boolean_clean|reflexivity].
Qed.

End CleanPaths.

(** ** References: strings, segments, parents and children *)

Section ReferenceFacts.

Lemma string_app_assoc (a b c : string) : ((a ++ b) ++ c = a ++ (b ++ c))%string.
Proof.
  induction a as [|x a IH]; [reflexivity|].
  change (String x ((a ++ b) ++ c) = String x (a ++ (b ++ c)))%string. now rewrite IH.
Qed.

Lemma string_app_nil_r (a : string) : (a ++ "" = a)%string.
Proof.
  induction a as [|x a IH]; [reflexivity|].
  change (String x (a ++ "") = String x a)%string. now rewrite IH.
Qed.

Lemma join_snoc (l : list string) (x : string) :
  l <> [] -> Path.join (l ++ [x]) = (Path.join l ++ "/" ++ x)%string.
Proof.
  induction l as [|a l IH]; [easy|]. intros _. destruct l as [|b l]; [reflexivity|].
  change (Path.join ((a :: b :: l) ++ [x]))
    with (a ++ "/" ++ Path.join ((b :: l) ++ [x]))%string.
  rewrite IH by discriminate.
  change (Path.join (a :: b :: l)) with (a ++ "/" ++ Path.join (b :: l))%string.
  rewrite !string_app_assoc. reflexivity.
Qed.

Lemma even_length_snoc {A : Type} (l : list A) (x : A) :
  even_length (l ++ [x]) = negb (even_length l).
Proof.
  unfold even_length. rewrite length_app. simpl.
  rewrite Nat.add_1_r, Nat.even_succ, <- Nat.negb_even. reflexivity.
Qed.

Lemma even_length_app {A : Type} (l k : list A) :
  even_length (l ++ k) = Bool.eqb (even_length l) (even_length k).
Proof.
  unfold even_length. rewrite length_app, Nat.even_add.
  destruct (Nat.even (length l)), (Nat.even (length k)); reflexivity.
Qed.

Lemma removelast_snoc {A : Type} (l : list A) (x : A) : removelast (l ++ [x]) = l.
Proof. apply removelast_last. Qed.

Lemma Forall_clean_snoc (l : list string) (x : string) :
  Forall (fun s => clean s = true) l -> clean x = true ->
  Forall (fun s => clean s = true) (l ++ [x]).
Proof. intros Hl Hx. apply Forall_app. split; [exact Hl|]. now constructor. Qed.

End ReferenceFacts.

(** X1.  A reference built from the path string of clean segments has
    exactly these segments: a document for an even number of them, a
    collection for an odd number, so building a reference again from its
    [path] gives the same reference. *)
Theorem reference_from_path (fs : Firestore) (l : list string)
    (o : option ConsistencyOptions) :
  Forall (fun s => clean s = true) l ->
  (even_length l = true ->
   newDocumentReference fs (PString (Path.join l)) o = Ok (mkDocumentReference fs l o)
   /\ DocumentReference_path (mkDocumentReference fs l o) = Path.join l)
  /\ (even_length l = false ->
      newCollectionReference fs (PString (Path.join l)) o
      = Ok (mkCollectionReference fs l o)
      /\ CollectionReference_path (mkCollectionReference fs l o) = Path.join l).
Proof.
  intros Hall. destruct (segments_of_join l Hall) as [Hf Hs]. split; intros He.
  - unfold newDocumentReference. rewrite Hf, He. now split.
  - unfold newCollectionReference. rewrite Hs, He; [now split|].
    intros ->. discriminate He.
Qed.

Lemma reference_from_path_witness :
  newDocumentReference Example.store_config (PString "users/u1") None
  = Ok (mkDocumentReference Example.store_config ["users"; "u1"] None)
  /\ newCollectionReference Example.store_config (PString "users/u1/posts") None
     = Ok (mkCollectionReference Example.store_config ["users"; "u1"; "posts"] None).
Proof.
  split.
  - apply (proj1 (reference_from_path Example.store_config ["users"; "u1"] None
                    ltac:(repeat constructor))). reflexivity.
  - apply (proj2 (reference_from_path Example.store_config ["users"; "u1"; "posts"] None
                    ltac:(repeat constructor))). reflexivity.
Defined.

(** X2.  Whatever string a document reference is built from, its segments
    are even in number, none is empty and none holds a slash, and building
    a reference from its [path] gives it again. *)
Theorem document_segments_clean (fs : Firestore) (s : string)
    (o : option ConsistencyOptions) (d : DocumentReference) :
  newDocumentReference fs (PString s) o = Ok d ->
  Forall (fun x => clean x = true) (doc_segments d)
  /\ even_length (doc_segments d) = true
  /\ newDocumentReference fs (PString (DocumentReference_path d)) o = Ok d.
Proof.
  unfold newDocumentReference.
  set (l := Path.filter_Boolean (Path.split (Path.trim s))).
  assert (Hall : Forall (fun x => clean x = true) l).
  { subst l. unfold Path.filter_Boolean. apply List.Forall_forall. intros x Hx.
    apply filter_In in Hx as [Hin Ht]. unfold clean. rewrite Ht. simpl.
    pose proof (pieces_no_slash (Path.trim s)) as Hp.
    rewrite List.Forall_forall in Hp. now apply Hp. }
  destruct (even_length l) eqn:He; simpl; [|discriminate].
  intros [= <-]. simpl. split; [exact Hall|]. split; [exact He|].
  apply (proj1 (reference_from_path fs l o Hall)). exact He.
Qed.

Lemma document_segments_clean_witness :
  Forall (fun x => clean x = true) ["users"; "u1"]
  /\ even_length ["users"; "u1"] = true
  /\ newDocumentReference Example.store_config (PString "users/u1") None
     = Ok (mkDocumentReference Example.store_config ["users"; "u1"] None).
Proof.
  apply (document_segments_clean Example.store_config "/users//u1/" None
           (mkDocumentReference Example.store_config ["users"; "u1"] None)).
  reflexivity.
Defined.

Section ParentsAndChildren.

Lemma trim_clean (s : string) : clean s = true -> Path.trim s = s.
Proof. intros Hs. apply (trim_join [s]). now constructor. Qed.

Lemma pieces_of_clean (s : string) : clean s = true -> Path.split (Path.trim s) = [s].
Proof.
  intros Hs. rewrite trim_clean by exact Hs. apply split_no_slash.
  now apply clean_inv in Hs.
Qed.

(** The path of the parent, as both [parent] getters compute it. *)
Lemma parent_path (l : list string) (x : string) :
  Forall (fun s => clean s = true) l -> clean x = true ->
  Path.join (Path.slice_init (Path.split (Path.join (l ++ [x])))) = Path.join l.
Proof.
  intros Hl Hx. rewrite split_join.
  - unfold Path.slice_init. now rewrite removelast_snoc.
  - now destruct l.
  - apply clean_no_slash. now apply Forall_clean_snoc.
Qed.

End ParentsAndChildren.

(** X3.  In a collection of clean segments, [doc(id)] with a clean [id]
    gives the document with [id] appended, whose [id] is [id], whose path
    is the path of the collection, a slash and [id], and whose [parent] is
    the collection. *)
Theorem doc_then_parent (c : CollectionReference) (id fresh : string) :
  Forall (fun s => clean s = true) (col_segments c) ->
  even_length (col_segments c) = false ->
  clean id = true ->
  exists d,
    CollectionReference_doc c (Some id) fresh = Ok d
    /\ doc_segments d = col_segments c ++ [id]
    /\ DocumentReference_id d = Some id
    /\ DocumentReference_path d = (CollectionReference_path c ++ "/" ++ id)%string
    /\ DocumentReference_parent d
       = Ok (mkCollectionReference (col_firestore c) (col_segments c) None).
Proof.
  intros Hall Hodd Hid.
  exists (mkDocumentReference (col_firestore c) (col_segments c ++ [id]) None).
  assert (Hne : col_segments c <> []) by (intros E; rewrite E in Hodd; discriminate).
  pose proof (clean_inv id Hid) as [Hid_ne _].
  split; [|split; [reflexivity|split; [|split]]].
  - unfold CollectionReference_doc. destruct id as [|a id']; [contradiction|].
    unfold newDocumentReference. rewrite pieces_of_clean by exact Hid.
    now rewrite even_length_snoc, Hodd.
  - unfold DocumentReference_id, last_or_null. simpl. rewrite last_snoc.
    destruct id; [contradiction|reflexivity].
  - unfold DocumentReference_path, CollectionReference_path. simpl.
    now apply join_snoc.
  - unfold DocumentReference_parent, DocumentReference_path. simpl.
    rewrite parent_path by assumption.
    apply (proj2 (reference_from_path (col_firestore c) (col_segments c) None Hall)).
    exact Hodd.
Qed.

Lemma doc_then_parent_witness :
  exists d,
    CollectionReference_doc Example.users (Some "u1") "generated" = Ok d
    /\ doc_segments d = ["users"; "u1"]
    /\ DocumentReference_id d = Some "u1"
    /\ DocumentReference_path d = "users/u1"
    /\ DocumentReference_parent d = Ok Example.users.
Proof.
  apply (doc_then_parent Example.users "u1" "generated").
  - repeat constructor.
  - reflexivity.
  - reflexivity.
Defined.

(** X4.  Under a document of clean segments (the root included),
    [collection(name)] with a clean [name] gives the collection with
    [name] appended, and the [parent] of that collection is the
    document. *)
Theorem collection_then_parent (d : DocumentReference) (name : string) :
  Forall (fun s => clean s = true) (doc_segments d) ->
  even_length (doc_segments d) = true ->
  clean name = true ->
  exists c,
    DocumentReference_collection d name = Ok c
    /\ col_segments c = doc_segments d ++ [name]
    /\ CollectionReference_id c = Some name
    /\ CollectionReference_parent c
       = Ok (mkDocumentReference (doc_firestore d) (doc_segments d) None).
Proof.
  intros Hall Heven Hname.
  exists (mkCollectionReference (doc_firestore d) (doc_segments d ++ [name]) None).
  pose proof (clean_inv name Hname) as [Hname_ne _].
  split; [|split; [reflexivity|split]].
  - unfold DocumentReference_collection, newCollectionReference.
    rewrite pieces_of_clean by exact Hname. now rewrite even_length_snoc, Heven.
  - unfold CollectionReference_id, last_or_null. simpl. rewrite last_snoc.
    destruct name; [contradiction|reflexivity].
  - unfold CollectionReference_parent, CollectionReference_path. simpl.
    rewrite parent_path by assumption.
    apply (proj1 (reference_from_path (doc_firestore d) (doc_segments d) None Hall)).
    exact Heven.
Qed.

Lemma collection_then_parent_witness :
  exists c,
    DocumentReference_collection (mkDocumentReference Example.store_config [] None) "users"
    = Ok c
    /\ col_segments c = ["users"]
    /\ CollectionReference_id c = Some "users"
    /\ CollectionReference_parent c = Ok (mkDocumentReference Example.store_config [] None).
Proof.
  apply (collection_then_parent (mkDocumentReference Example.store_config [] None) "users").
  - constructor.
  - reflexivity.
  - reflexivity.
Defined.

(** X5.  Children alternate: under a collection, [doc(path)] needs a path
    of an odd number of segments and [collection(path)] an even number (so
    a collection directly under a collection is refused); under a
    document, [collection(path)] needs an odd number.  The other parity is
    an [InvalidPath] error. *)
Theorem children_alternate (c : CollectionReference) (d : DocumentReference)
    (path fresh : string) :
  let pieces := Path.split (Path.trim path) in
  (even_length (col_segments c) = false -> path <> "" ->
   is_ok (CollectionReference_doc c (Some path) fresh) = negb (even_length pieces)
   /\ (even_length pieces = true ->
       fails_with InvalidPath (CollectionReference_doc c (Some path) fresh))
   /\ is_ok (CollectionReference_collection c path) = even_length pieces
   /\ (even_length pieces = false ->
       fails_with InvalidPath (CollectionReference_collection c path)))
  /\ (even_length (doc_segments d) = true ->
      is_ok (DocumentReference_collection d path) = negb (even_length pieces)
      /\ (even_length pieces = true ->
          fails_with InvalidPath (DocumentReference_collection d path))).
Proof.
  intros pieces. split.
  - intros Hodd Hne.
    unfold CollectionReference_doc, CollectionReference_collection,
      newDocumentReference, newCollectionReference.
    destruct path as [|a p]; [contradiction|]. fold pieces.
    rewrite even_length_app, Hodd.
    destruct (even_length pieces); simpl; repeat split; try discriminate; intros _;
      eexists; split; reflexivity.
  - intros Heven. unfold DocumentReference_collection, newCollectionReference.
    fold pieces. rewrite even_length_app, Heven.
    destruct (even_length pieces); simpl; repeat split; try discriminate; intros _;
      eexists; split; reflexivity.
Qed.

Lemma children_alternate_witness :
  (is_ok (CollectionReference_doc Example.users (Some "u1/posts") "generated") = false
   /\ is_ok (CollectionReference_collection Example.users "posts") = false
   /\ is_ok (CollectionReference_collection Example.users "u1/posts") = true)
  /\ fails_with InvalidPath
       (DocumentReference_collection
          (mkDocumentReference Example.store_config ["users"; "u1"] None) "posts/p1").
Proof.
  pose proof (children_alternate Example.users
                (mkDocumentReference Example.store_config ["users"; "u1"] None)
                "u1/posts" "generated") as [Hc _].
  pose proof (children_alternate Example.users
                (mkDocumentReference Example.store_config ["users"; "u1"] None)
                "posts" "generated") as [Hc' _].
  pose proof (children_alternate Example.users
                (mkDocumentReference Example.store_config ["users"; "u1"] None)
                "posts/p1" "generated") as [_ Hd].
  destruct (Hc eq_refl ltac:(discriminate)) as (H1 & _ & H3 & _).
  destruct (Hc' eq_refl ltac:(discriminate)) as (_ & _ & H3' & _).
  destruct (Hd eq_refl) as (_ & H2).
  split; [split; [exact H1|split; [exact H3'|exact H3]]|].
  apply H2. reflexivity.
Defined.

(** X6.  On one store, documents of clean segments with the same qualified
    path have the same segments: the name [batchGet] sends and looks up
    identifies the document. *)
Theorem qualifiedPath_injective (d1 d2 : DocumentReference) :
  doc_firestore d1 = doc_firestore d2 ->
  Forall (fun s => clean s = true) (doc_segments d1) ->
  Forall (fun s => clean s = true) (doc_segments d2) ->
  DocumentReference_qualifiedPath d1 = DocumentReference_qualifiedPath d2 ->
  doc_segments d1 = doc_segments d2.
Proof.
  unfold DocumentReference_qualifiedPath. intros -> H1 H2 E.
  apply String.app_inj in E. injection E as E.
  change (Path.join (doc_segments d1) = Path.join (doc_segments d2)) in E.
  destruct (doc_segments d1) as [|x l1] eqn:E1, (doc_segments d2) as [|y l2] eqn:E2.
  - reflexivity.
  - exfalso. apply (join_clean_nonempty (y :: l2)); [discriminate|exact H2|].
    symmetry. exact E.
  - exfalso. apply (join_clean_nonempty (x :: l1)); [discriminate|exact H1|exact E].
  - assert (Hs : Path.split (Path.join (x :: l1)) = Path.split (Path.join (y :: l2)))
      by now rewrite E.
    rewrite !split_join in Hs; try discriminate; try now apply clean_no_slash.
    exact Hs.
Qed.

Lemma qualifiedPath_injective_witness :
  doc_segments (mkDocumentReference Example.store_config ["users"; "u1"] None)
  = doc_segments
      (mkDocumentReference Example.store_config ["users"; "u1"]
         (Some (mkConsistency None None (Some "t"))) ).
Proof.
  apply qualifiedPath_injective.
  - reflexivity.
  - repeat constructor.
  - repeat constructor.
  - reflexivity.
Defined.

Section TrimmedPaths.

(** One slash in front, one at the end, or both: [trim] removes them. *)
Lemma trim_slashes (l : list string) (p : string) :
  Forall (fun s => clean s = true) l -> l <> [] ->
  p = Path.join l \/ p = ("/" ++ Path.join l)%string
  \/ p = (Path.join l ++ "/")%string \/ p = ("/" ++ Path.join l ++ "/")%string ->
  Path.trim p = Path.join l.
Proof.
  intros Hall Hne Hp.
  assert (Hend : Path.drop_trailing (Path.join l ++ "/") = Path.join l).
  { rewrite drop_trailing_app by discriminate. apply string_app_nil_r. }
  assert (Hhead : exists c t, Path.join l = String c t /\ Ascii.eqb c Path.slash = false).
  { destruct l as [|x l]; [contradiction|].
    inversion Hall as [|? ? Hx _]; subst. apply clean_inv in Hx as [Hx Hs].
    destruct x as [|c x]; [contradiction|]. simpl in Hs.
    destruct (Ascii.eqb c Path.slash) eqn:Ec; [discriminate|].
    exists c. destruct l; simpl; eauto. }
  destruct Hp as [-> | [-> | [-> | ->]]].
  - now apply trim_join.
  - change (Path.trim ("/" ++ Path.join l))
      with (Path.drop_trailing (Path.join l)). now apply drop_trailing_join.
  - destruct Hhead as (c & t & E & Ec). rewrite E in *.
    change (Path.trim (String c t ++ "/"))
      with (if Ascii.eqb c Path.slash then Path.drop_trailing (t ++ "/")
            else Path.drop_trailing (String c t ++ "/")).
    rewrite Ec. exact Hend.
  - exact Hend.
Qed.

End TrimmedPaths.

(** X7.  On the path of clean segments, with or without one slash in front
    and one at the end, [new Reference] gives a reference with exactly
    these segments, a document for an even number and a collection for an
    odd number, whose [path] is the segments joined. *)
Theorem Reference_of_clean_path (fs : Firestore) (l : list string) (p : string) :
  Forall (fun s => clean s = true) l -> l <> [] ->
  p = Path.join l \/ p = ("/" ++ Path.join l)%string
  \/ p = (Path.join l ++ "/")%string \/ p = ("/" ++ Path.join l ++ "/")%string ->
  exists r, newReference fs (PString p) = Ok r
    /\ ref_segments r = l
    /\ is_document r = even_length l
    /\ ref_path r = Path.join l.
Proof.
  intros Hall Hne Hp.
  destruct (newReference_segments fs (PString p)) as (r & Hr & Hs & Hd).
  simpl in Hs, Hd. rewrite (trim_slashes l p Hall Hne Hp) in Hs, Hd.
  rewrite split_join in Hs, Hd; try assumption; try now apply clean_no_slash.
  exists r. repeat split; try assumption.
  destruct r; simpl in *; unfold DocumentReference_path, CollectionReference_path;
    now rewrite Hs.
Qed.

Lemma Reference_of_clean_path_witness :
  exists r, newReference Example.store_config (PString "/users/u1/posts/") = Ok r
    /\ ref_segments r = ["users"; "u1"; "posts"]
    /\ is_document r = false
    /\ ref_path r = "users/u1/posts".
Proof.
  apply (Reference_of_clean_path Example.store_config ["users"; "u1"; "posts"]).
  - repeat constructor.
  - discriminate.
  - right. right. right. reflexivity.
Defined.

(** ** Cursors that are accepted *)

Section AcceptedCursors.
Context `{Codec}.

Lemma cursorValues_literals (ids : nat -> string) (c : CollectionReference)
    (os : list Order) (vs : list value) (i : nat) :
  ~ In VUndefined vs ->
  (length vs <= length os)%nat ->
  cursorValues ids c os vs i = Ok (map encodeValue vs).
Proof.
  revert os i. induction vs as [|v vs IH]; intros os i Hno Hlen; [reflexivity|].
  destruct os as [|o os]; [simpl in Hlen; lia|]. simpl in Hlen.
  assert (Hv : v <> VUndefined) by (intros ->; apply Hno; now left).
  assert (Hrest : ~ In VUndefined vs) by (intros Hin; apply Hno; now right).
  cbn [cursorValues]. unfold field_strict_equals.
  rewrite (IH os (S i) Hrest ltac:(lia)).
  destruct v; try reflexivity. contradiction.
Qed.

Lemma createCursor_literals (ids : nat -> string) (q : Query) (args : list value)
    (b : bool) :
  literal_values args ->
  ~ In VUndefined args ->
  (length args <= length (getFieldOrders (state q)))%nat ->
  createCursor ids q args b = Ok (mkCursor (map encodeValue args) b).
Proof.
  intros Hlit Hno Hlen. unfold createCursor.
  assert (E : (match args with
               | [VSnapshot s] => extractFieldValues s (getFieldOrders (state q))
               | _ => Ok args
               end) = Ok args).
  { destruct args as [|[] [|]]; try reflexivity. now destruct (Hlit s). }
  rewrite E. simpl.
  destruct (Nat.ltb_spec (length (getFieldOrders (state q))) (length args)); [lia|].
  now rewrite cursorValues_literals.
Qed.

Lemma extractFieldValues_defined (s : DocumentSnapshot) (os : list Order) :
  (forall o, In o os -> fieldPath (field o) <> documentId ->
             snapshot_get s (fieldPath (field o)) <> VUndefined) ->
  extractFieldValues s os = Ok (map (snapshot_value s) os)
  /\ ~ In VUndefined (map (snapshot_value s) os).
Proof.
  induction os as [|o os IH]; intros Hdef; [split; [reflexivity|easy]|].
  destruct IH as [IH Hno]; [intros o' Ho'; apply Hdef; now right|].
  assert (Ho : snapshot_value s o <> VUndefined).
  { unfold snapshot_value. destruct (String.eqb_spec (fieldPath (field o)) documentId);
      [discriminate|]. apply Hdef; [now left|assumption]. }
  split.
  - simpl. rewrite IH. unfold snapshot_value in *.
    destruct (String.eqb (fieldPath (field o)) documentId); [reflexivity|].
    destruct (snapshot_get s (fieldPath (field o))); try reflexivity. contradiction.
  - simpl. intros [E|Hin]; [now apply Ho|now apply Hno].
Qed.

End AcceptedCursors.

(** X8.  Literal cursor values are accepted as they are: when none is
    [undefined] and there are no more of them than field orders, each cursor
    method returns the query with the cursor of the encoded values in the
    order given; [startAt] and [endAt] set the flag [before], [startAfter]
    and [endAfter] clear it.  A string given for the document-id order is
    encoded as a string, not as a reference. *)
Theorem cursor_of_literals `{Codec} (ids : nat -> string) (q : Query) (args : list value) :
  literal_values args ->
  ~ In VUndefined args ->
  (length args <= length (getFieldOrders (state q)))%nat ->
  Query_startAt ids q args
  = Ok (mkQuery (ref q) (with_startAt (state q) (mkCursor (map encodeValue args) true)))
  /\ Query_startAfter ids q args
     = Ok (mkQuery (ref q) (with_startAt (state q) (mkCursor (map encodeValue args) false)))
  /\ Query_endAt ids q args
     = Ok (mkQuery (ref q) (with_endAt (state q) (mkCursor (map encodeValue args) true)))
  /\ Query_endAfter ids q args
     = Ok (mkQuery (ref q) (with_endAt (state q) (mkCursor (map encodeValue args) false))).
Proof.
  intros Hlit Hno Hlen.
  unfold Query_startAt, Query_startAfter, Query_endAt, Query_endAfter.
  rewrite !createCursor_literals by assumption. repeat split.
Qed.

(** X9.  A cursor taken from a document snapshot holds one value per field
    order of the query: the field of the snapshot for each ordering field
    and the reference of the snapshot for the document-id order, which
    comes last.  It is accepted as soon as the snapshot has a value for
    every ordering field. *)
Theorem cursor_of_snapshot `{Codec} (ids : nat -> string) (q : Query)
    (s : DocumentSnapshot) (b : bool) :
  (forall o, In o (getFieldOrders (state q)) -> fieldPath (field o) <> documentId ->
             snapshot_get s (fieldPath (field o)) <> VUndefined) ->
  exists c, createCursor ids q [VSnapshot s] b = Ok c
    /\ before c = b
    /\ values c = map (fun o => encodeValue (snapshot_value s o)) (getFieldOrders (state q))
    /\ length (values c) = length (getFieldOrders (state q))
    /\ last (values c) = Some (encodeValue (VReference (snap_ref s))).
Proof.
  intros Hdef.
  destruct (extractFieldValues_defined s (getFieldOrders (state q)) Hdef) as [He Hno].
  unfold createCursor. rewrite He. simpl. rewrite length_map, Nat.ltb_irrefl.
  rewrite cursorValues_literals; [|exact Hno|now rewrite length_map]. simpl.
  eexists. split; [reflexivity|]. simpl. rewrite map_map.
  split; [reflexivity|]. split; [reflexivity|]. split; [apply length_map|].
  rewrite getFieldOrders_appends, map_app. simpl. rewrite last_snoc. reflexivity.
Qed.

Section AcceptedCursorExamples.
#[local] Existing Instance Example.codec.

Lemma cursor_of_literals_witness :
  let q := Query_orderBy (collection_query Example.users) "x" None in
  Query_startAt Example.no_ids q [VNumber (Finite 3 1)]
  = Ok (mkQuery Example.users (with_startAt (state q) (mkCursor [integerValue 3] true)))
  /\ Query_startAfter Example.no_ids q [VNumber (Finite 3 1)]
     = Ok (mkQuery Example.users (with_startAt (state q) (mkCursor [integerValue 3] false)))
  /\ Query_endAt Example.no_ids q [VNumber (Finite 3 1)]
     = Ok (mkQuery Example.users (with_endAt (state q) (mkCursor [integerValue 3] true)))
  /\ Query_endAfter Example.no_ids q [VNumber (Finite 3 1)]
     = Ok (mkQuery Example.users (with_endAt (state q) (mkCursor [integerValue 3] false))).
Proof.
  intros q.
  exact (cursor_of_literals Example.no_ids q [VNumber (Finite 3 1)]
           ltac:(intros s; discriminate)
           ltac:(intros [E|[]]; discriminate E)
           ltac:(vm_compute; lia)).
Defined.

Lemma cursor_of_snapshot_witness :
  let q := Query_orderBy (collection_query Example.users) "x" None in
  let u2 := mkDocumentReference Example.store_config ["users"; "u2"] None in
  let snap := mkDocumentSnapshot u2 (Some (Example.user "u2" 2 2)) None in
  exists c, createCursor Example.no_ids q [VSnapshot snap] false = Ok c
    /\ before c = false
    /\ values c = map (fun o => encodeValue (snapshot_value snap o)) (getFieldOrders (state q))
    /\ length (values c) = length (getFieldOrders (state q))
    /\ last (values c) = Some (encodeValue (VReference (snap_ref snap))).
Proof.
  intros q u2 snap. apply (cursor_of_snapshot Example.no_ids q snap false).
  intros o [<-|[<-|[]]] Hne; [discriminate|]. now contradiction Hne.
Defined.

End AcceptedCursorExamples.

(** ** Chains of builder calls *)

Section Chains.
Context `{Codec}.

Lemma where_all_other_fields (ids : nat -> string) (cs : list clause) (q : Query) :
  Forall (fun c : clause => c.1.1 <> documentId /\ c.2 <> VUndefined) cs ->
  where_all ids q cs
  = Ok (mkQuery (ref q)
          (with_filters (state q)
             (filters (state q) ++ map (fun c : clause => makeFilter c.1.1 c.1.2 c.2) cs))).
Proof.
  revert q. induction cs as [|[[fp op] v] cs IH]; intros q Hall.
  - simpl. rewrite app_nil_r. destruct q as [r []]; reflexivity.
  - inversion Hall as [|? ? [Hfp Hv] Hrest]; subst. simpl in Hfp, Hv.
    cbn [where_all]. rewrite Query_where_resolved by exact Hv.
    rewrite resolveDocumentId_other_field by exact Hfp.
    change ((Ok (add_filter q (makeFilter fp op v)) : result Query)
            ≫= (fun q' => where_all ids q' cs))
      with (where_all ids (add_filter q (makeFilter fp op v)) cs).
    rewrite (IH _ Hrest). unfold add_filter. simpl. now rewrite <- app_assoc.
Qed.

End Chains.

(** X10.  Calls of [where] accumulate: after any number of them (on fields
    other than the document id, with defined values) the query has its
    earlier filters followed by one filter per call, in the order of the
    calls, and nothing else of its state has changed.  Started from a
    collection, the query sent has no [where] for no call, the filter
    itself for one call, and for more the [AND] composite of all of them in
    call order. *)
Theorem where_accumulates `{Codec} (ids : nat -> string) (q : Query) (cs : list clause) :
  Forall (fun c : clause => c.1.1 <> documentId /\ c.2 <> VUndefined) cs ->
  let added := map (fun c : clause => makeFilter c.1.1 c.1.2 c.2) cs in
  where_all ids q cs
  = Ok (mkQuery (ref q) (with_filters (state q) (filters (state q) ++ added)))
  /\ (forall col, q = collection_query col ->
        exists sq q', where_all ids q cs = Ok q' /\ compile (state q') = Ok sq
          /\ sq_orderBy sq = [] /\ sq_limit sq = None
          /\ (added = [] -> sq_where sq = None)
          /\ (forall f, added = [f] -> sq_where sq = Some f)
          /\ (forall f g rest, added = f :: g :: rest ->
                sq_where sq = Some (compositeFilter AND added))).
Proof.
  intros Hall added. pose proof (where_all_other_fields ids cs q Hall) as Hw.
  fold added in Hw. split; [exact Hw|].
  intros col ->. rewrite Hw. eexists. eexists. split; [reflexivity|].
  unfold compile. simpl. split; [reflexivity|]. repeat split.
  - now intros ->.
  - now intros f ->.
  - now intros f g rest ->.
Qed.

Section ChainExamples.
#[local] Existing Instance Example.codec.

Lemma where_accumulates_witness :
  let q := collection_query Example.users in
  let cs : list clause :=
    [("age", op_gt, VNumber (Finite 25 1)); ("status", op_eq, VString "active")] in
  where_all Example.no_ids q cs
  = Ok (mkQuery Example.users
          (with_filters (state q)
             [fieldFilter (mkField "age") GREATER_THAN (integerValue 25);
              fieldFilter (mkField "status") EQUAL (stringValue "active")])).
Proof.
  intros q cs.
  exact (proj1 (where_accumulates Example.no_ids q cs
                  ltac:(repeat constructor; discriminate))).
Defined.

End ChainExamples.


(** ** Filters on the document id *)

Section DocumentIdFilters.
Context `{Codec}.

Lemma makeFilter_reference (fp : string) (op : WhereFilterOp) (d : DocumentReference) :
  makeFilter fp op (VReference d)
  = fieldFilter (mkField fp) (comparisonOperators op) (encodeValue (VReference d)).
Proof. unfold makeFilter. now destruct op. Qed.

Lemma doc_of_clean (c : CollectionReference) (id fresh : string) :
  even_length (col_segments c) = false -> clean id = true ->
  CollectionReference_doc c (Some id) fresh
  = Ok (mkDocumentReference (col_firestore c) (col_segments c ++ [id]) None).
Proof.
  intros Hodd Hid. pose proof (clean_inv id Hid) as [Hne _].
  unfold CollectionReference_doc. destruct id as [|a id']; [contradiction|].
  unfold newDocumentReference. rewrite pieces_of_clean by exact Hid.
  now rewrite even_length_snoc, Hodd.
Qed.

Lemma doc_of_nothing (c : CollectionReference) (fresh : string) :
  even_length (col_segments c) = false -> clean fresh = true ->
  CollectionReference_doc c (Some "") fresh
  = Ok (mkDocumentReference (col_firestore c) (col_segments c ++ [fresh]) None).
Proof.
  intros Hodd Hid. unfold CollectionReference_doc, newDocumentReference.
  rewrite pieces_of_clean by exact Hid. now rewrite even_length_snoc, Hodd.
Qed.

Lemma doc_of_two (c : CollectionReference) (a b fresh : string) :
  even_length (col_segments c) = false -> clean a = true -> clean b = true ->
  CollectionReference_doc c (Some (Path.join [a; b])) fresh
  = Err (DocumentSegmentsOdd (Path.join (col_segments c ++ [a; b]))).
Proof.
  intros Hodd Ha Hb.
  assert (Hall : Forall (fun s => clean s = true) [a; b]) by now repeat constructor.
  assert (Hne : Path.join [a; b] <> "").
  { pose proof (clean_inv a Ha) as [Hane _]. simpl. destruct a; [contradiction|easy]. }
  unfold CollectionReference_doc.
  destruct (Path.join [a; b]) as [|x t] eqn:E; [contradiction|]. rewrite <- E.
  unfold newDocumentReference. rewrite trim_join by exact Hall.
  rewrite split_join; [|easy|now apply clean_no_slash].
  rewrite even_length_app, Hodd. reflexivity.
Qed.

End DocumentIdFilters.

(** X12.  [where] on the document id with a string compares with a
    reference, never with the string: a clean id becomes the document of
    that id in the anchor collection; the empty string is falsy for [doc],
    so the filter compares with a document of a newly generated id; and a
    path of two clean segments names a collection, which [doc] refuses with
    an [InvalidPath] error, so no query is built.  On any other field the
    same string is encoded as it is. *)
Theorem where_documentId `{Codec} (ids : nat -> string) (q : Query)
    (op : WhereFilterOp) (id other : string) :
  even_length (col_segments (ref q)) = false ->
  clean id = true ->
  let under x :=
    VReference (mkDocumentReference (col_firestore (ref q)) (col_segments (ref q) ++ [x]) None) in
  Query_where ids q documentId op (VString id)
  = Ok (add_filter q (fieldFilter (mkField documentId) (comparisonOperators op)
                        (encodeValue (under id))))
  /\ (clean (ids 0%nat) = true ->
      Query_where ids q documentId op (VString "")
      = Ok (add_filter q (fieldFilter (mkField documentId) (comparisonOperators op)
                            (encodeValue (under (ids 0%nat))))))
  /\ (clean other = true ->
      exists e, Query_where ids q documentId op (VString (Path.join [id; other])) = Err e
                /\ kind e = InvalidPath)
  /\ (forall fp, fp <> documentId ->
      Query_where ids q fp op (VString id)
      = Ok (add_filter q (fieldFilter (mkField fp) (comparisonOperators op)
                            (encodeValue (VString id))))).
Proof.
  intros Hodd Hid under. repeat split.
  - unfold Query_where, resolveDocumentId. simpl.
    rewrite doc_of_clean by assumption. simpl. now rewrite makeFilter_reference.
  - intros Hfresh. unfold Query_where, resolveDocumentId. simpl.
    rewrite doc_of_nothing by assumption. simpl. now rewrite makeFilter_reference.
  - intros Hother. eexists. split.
    + unfold Query_where, resolveDocumentId.
      change (String.eqb documentId documentId) with true. cbv iota.
      rewrite doc_of_two by assumption. reflexivity.
    + reflexivity.
  - intros fp Hfp. rewrite Query_where_resolved by discriminate.
    rewrite resolveDocumentId_other_field by exact Hfp.
    unfold makeFilter. now destruct op.
Qed.

Section DocumentIdFilterExamples.
#[local] Existing Instance Example.codec.

Lemma where_documentId_witness :
  Query_where Example.no_ids (collection_query Example.users) documentId op_eq (VString "u1")
  = Ok (add_filter (collection_query Example.users)
          (fieldFilter (mkField documentId) EQUAL
             (referenceValue "projects/demo/databases/(default)/documents/users/u1"))).
Proof.
  exact (proj1 (where_documentId Example.no_ids (collection_query Example.users) op_eq
                  "u1" "x" ltac:(reflexivity) ltac:(reflexivity))).
Defined.

End DocumentIdFilterExamples.

(** ** What [get] makes of a response *)

Section ReadResults.
Context `{Codec}.

Lemma string_length_app (p s : string) :
  String.length (p ++ s) = (String.length p + String.length s)%nat.
Proof. induction p as [|a p IH]; simpl; [reflexivity|]. now rewrite IH. Qed.

Lemma prefix_app (p s : string) : String.prefix p (p ++ s) = true.
Proof.
  induction p as [|a p IH]; simpl; [now destruct s|].
  destruct (ascii_dec a a); [exact IH|contradiction].
Qed.

Lemma substring_all (s : string) : String.substring 0 (String.length s) s = s.
Proof. induction s as [|a s IH]; simpl; [reflexivity|]. now rewrite IH. Qed.

Lemma substring_app (p s : string) :
  String.substring (String.length p) (String.length s) (p ++ s) = s.
Proof. induction p as [|a p IH]; simpl; [apply substring_all|exact IH]. Qed.

Lemma replace_first_unfold (p s : string) :
  replace_first p s
  = if String.prefix p s
    then String.substring (String.length p) (String.length s - String.length p) s
    else match s with
         | EmptyString => EmptyString
         | String c s' => String c (replace_first p s')
         end.
Proof. now destruct s. Qed.

(** [(p + s).replace(p, '')] is [s]. *)
Lemma replace_first_prefix (p s : string) : replace_first p (p ++ s) = s.
Proof.
  rewrite replace_first_unfold, prefix_app, string_length_app.
  replace (String.length p + String.length s - String.length p)%nat
    with (String.length s) by lia.
  apply substring_app.
Qed.

Lemma doc_of_slash_id (c : CollectionReference) (id fresh : string) :
  even_length (col_segments c) = false -> clean id = true ->
  CollectionReference_doc c (Some ("/" ++ id)%string) fresh
  = Ok (mkDocumentReference (col_firestore c) (col_segments c ++ [id]) None).
Proof.
  intros Hodd Hid. change ("/" ++ id)%string with (String "/" id).
  unfold CollectionReference_doc, newDocumentReference.
  change (Path.trim (String "/" id)) with (Path.drop_trailing id).
  rewrite drop_trailing_clean by exact Hid.
  rewrite split_no_slash by (now apply clean_inv in Hid).
  now rewrite even_length_snoc, Hodd.
Qed.

Lemma documents_of_length (l : list RunQueryResponse) :
  (length (documents_of l) <= length l)%nat.
Proof.
  induction l as [|e l IH]; simpl; [lia|].
  destruct (document e); simpl; lia.
Qed.

Lemma documents_of_In (l : list RunQueryResponse) (d : Document) (t : option string) :
  In (d, t) (documents_of l) -> exists e, In e l /\ document e = Some d /\ rq_readTime e = t.
Proof.
  unfold documents_of. rewrite in_flat_map. intros (e & He & Hin). exists e.
  destruct (document e) as [d'|]; [|contradiction].
  destruct Hin as [[= -> ->]|[]]. now repeat split.
Qed.

Lemma process_documents (ids : nat -> string) (q : Query)
    (first : RunQueryResponse) (rest : list RunQueryResponse) :
  even_length (col_segments (ref q)) = false ->
  rq_error first = None ->
  (forall e d, In e (first :: rest) -> document e = Some d ->
     exists id, clean id = true
       /\ decodePath (name d) = (CollectionReference_path (ref q) ++ "/" ++ id)%string) ->
  let kept := if truthy_count (skippedResults first) then rest else first :: rest in
  let kept := if reverse (state q) then rev kept else kept in
  exists ds,
    process ids q (first :: rest) = Ok (mkQuerySnapshot q (rq_readTime first) (length kept) ds)
    /\ Forall2 (snapshot_under (ref q)) (documents_of kept) ds
    /\ (length ds <= length kept)%nat.
Proof.
  intros Hodd Herr Hdocs kept0 kept.
  assert (Hkept : forall e, In e kept -> In e (first :: rest)).
  { intros e. subst kept kept0.
    destruct (reverse (state q)); [rewrite <- in_rev|];
      destruct (truthy_count (skippedResults first)); simpl; tauto. }
  assert (Hgen : no_generated_ids (ref q) kept).
  { intros e d He Hd. destruct (Hdocs e d (Hkept e He) Hd) as (id & Hid & ->).
    rewrite replace_first_prefix. discriminate. }
  destruct (mapR_pointwise (fun p => materialize (ref q) (fst p) (snd p) "")
              (snapshot_under (ref q)) (documents_of kept)) as (ds & Hds & Hall).
  { intros [d t] Hin. destruct (documents_of_In _ _ _ Hin) as (e & He & Hd & Ht).
    destruct (Hdocs e d (Hkept e He) Hd) as (id & Hid & Hname).
    eexists. split.
    - unfold materialize. simpl. rewrite Hname, replace_first_prefix.
      rewrite doc_of_slash_id by assumption. reflexivity.
    - exists id. now split. }
  exists ds. split; [|split].
  - unfold process. rewrite Herr. fold kept0. fold kept.
    rewrite materialize_all_mapR by exact Hgen. now rewrite Hds.
  - exact Hall.
  - rewrite <- (Forall2_length _ _ _ Hall). apply documents_of_length.
Qed.

End ReadResults.

(** X13.  When the service answers a query with a non-empty list whose
    first entry reports no error and whose documents lie directly under the
    collection, [get] returns a snapshot with the read time of the first
    entry and, for each entry that has a document, in the order of the
    response (reversed for a [limitToLast] query), the snapshot of
    [doc(id)] in that collection with the entry's document and read time.
    An entry whose [skippedResults] is not zero is dropped when it comes
    first; [size] is the number of entries that are left, with or without a
    document, so it can exceed the number of documents. *)
Theorem get_reads_documents `{Codec} `{Runtime} (st : Store) (q : Query)
    (sq : StructuredQuery) (parent : DocumentReference)
    (first : RunQueryResponse) (rest : list RunQueryResponse) :
  even_length (col_segments (ref q)) = false ->
  compile (state q) = Ok sq ->
  CollectionReference_parent (ref q) = Ok parent ->
  fetch (log st)
    (mkRequest (request_path (config st) (DocumentReference_path parent ++ ":runQuery"))
       (RunQueryRequest sq (transaction st)))
  = Ok (RunQueryResponses (first :: rest)) ->
  rq_error first = None ->
  (forall e d, In e (first :: rest) -> document e = Some d ->
     exists id, clean id = true
       /\ decodePath (name d) = (CollectionReference_path (ref q) ++ "/" ++ id)%string) ->
  let kept := if truthy_count (skippedResults first) then rest else first :: rest in
  let kept := if reverse (state q) then rev kept else kept in
  exists ds,
    fst (Query_get st q) = Ok (mkQuerySnapshot q (rq_readTime first) (length kept) ds)
    /\ Forall2 (snapshot_under (ref q)) (documents_of kept) ds
    /\ (length ds <= length kept)%nat.
Proof.
  intros Hodd Hsq Hparent Hfetch Herr Hdocs kept0 kept.
  destruct (process_documents (fun i => createId (drawn st + i)) q first rest
              Hodd Herr Hdocs) as (ds & Hp & Hall & Hlen).
  exists ds. split; [|split; assumption].
  unfold Query_get. rewrite Hsq, Hparent. unfold request. rewrite Hfetch. simpl.
  exact Hp.
Qed.

Section ReadResultExamples.
#[local] Existing Instance Example.codec.
#[local] Existing Instance Example.runtime.

Lemma get_reads_documents_witness :
  exists ds,
    fst (Query_get Example.store
           (Query_limit (Query_orderBy (collection_query Example.users) "x" (Some desc))
              (Finite 2 1)))
    = Ok (mkQuerySnapshot
            (Query_limit (Query_orderBy (collection_query Example.users) "x" (Some desc))
               (Finite 2 1))
            (Some "t0") 2 ds)
    /\ Forall2 (snapshot_under Example.users)
         [(Example.user "u4" 4 2, Some "t0"); (Example.user "u3" 3 1, Some "t0")] ds
    /\ (length ds <= 2)%nat.
Proof.
  eapply (get_reads_documents Example.store
            (Query_limit (Query_orderBy (collection_query Example.users) "x" (Some desc))
               (Finite 2 1))
            _ _ (Example.entry (Example.user "u4" 4 2)) [Example.entry (Example.user "u3" 3 1)]).
  - reflexivity.
  - reflexivity.
  - reflexivity.
  - reflexivity.
  - reflexivity.
  - intros e d [<-|[<-|[]]] [= <-]; [exists "u4"|exists "u3"]; split; reflexivity.
Defined.

End ReadResultExamples.

Section ReadErrors.
Context `{Codec}.

Lemma materialize_all_same (ids : nat -> string) (c : CollectionReference)
    (l l' : list RunQueryResponse) (i : nat) :
  Forall2 (fun e e' => document e = document e' /\ rq_readTime e = rq_readTime e') l l' ->
  materialize_all ids c l i = materialize_all ids c l' i.
Proof.
  intros Hall. revert i. induction Hall as [|e e' l l' [Hd Ht] _ IH]; intros i;
    [reflexivity|].
  simpl. rewrite <- Hd, <- Ht. destruct (document e); [|apply IH].
  now rewrite (IH (S i)).
Qed.

Lemma Forall2_rev {A B : Type} (P : A -> B -> Prop) (l : list A) (k : list B) :
  Forall2 P l k -> Forall2 P (rev l) (rev k).
Proof.
  induction 1 as [|x y l k Hxy _ IH]; simpl; [constructor|].
  apply Forall2_app; [exact IH|now repeat constructor].
Qed.

End ReadErrors.

(** X14.  Of the errors a response reports, [get] raises only that of the
    first entry, with its message.  When the first entry reports none, the
    outcome depends on the later entries only through their documents and
    read times: an error or a [skippedResults] count in a later entry is
    never looked at.  An empty response is a runtime [TypeError], from
    reading the read time of the first entry. *)
Theorem get_raises_first_error `{Codec} (ids : nat -> string) (q : Query)
    (first : RunQueryResponse) (rest rest' : list RunQueryResponse) :
  Forall2 (fun e e' => document e = document e' /\ rq_readTime e = rq_readTime e')
    rest rest' ->
  (forall msg, rq_error first = Some msg ->
     process ids q (first :: rest) = Err (ResultError msg)
     /\ kind (ResultError msg) = RemoteError /\ message (ResultError msg) = msg)
  /\ (rq_error first = None ->
      process ids q (first :: rest) = process ids q (first :: rest'))
  /\ fails_with RuntimeError (process ids q []).
Proof.
  intros Hall. split; [|split].
  - intros msg Hmsg. unfold process. now rewrite Hmsg.
  - intros Hnone. unfold process. rewrite Hnone.
    assert (Hfirst : Forall2 (fun e e' => document e = document e'
                                          /\ rq_readTime e = rq_readTime e')
                       (first :: rest) (first :: rest')) by now constructor.
    destruct (truthy_count (skippedResults first)), (reverse (state q)).
    + rewrite (materialize_all_same ids (ref q) (rev rest) (rev rest') 0)
        by now apply Forall2_rev.
      now rewrite !length_rev, (Forall2_length _ _ _ Hall).
    + rewrite (materialize_all_same ids (ref q) rest rest' 0) by exact Hall.
      now rewrite (Forall2_length _ _ _ Hall).
    + rewrite (materialize_all_same ids (ref q) (rev (first :: rest)) (rev (first :: rest')) 0)
        by now apply Forall2_rev.
      now rewrite !length_rev, (Forall2_length _ _ _ Hfirst).
    + rewrite (materialize_all_same ids (ref q) (first :: rest) (first :: rest') 0)
        by exact Hfirst.
      now rewrite (Forall2_length _ _ _ Hfirst).
  - eexists. split; reflexivity.
Qed.

Section ReadErrorExamples.
#[local] Existing Instance Example.codec.

Lemma get_raises_first_error_witness :
  let q := collection_query Example.users in
  let ok := Example.entry (Example.user "u1" 1 1) in
  let failed := mkRunQueryResponse None (Some "t0") None (Some "deadline exceeded") in
  process Example.no_ids q [ok; failed]
  = process Example.no_ids q [ok; mkRunQueryResponse None (Some "t0") None None]
  /\ process Example.no_ids q [failed; ok] = Err (ResultError "deadline exceeded").
Proof.
  intros q ok failed.
  pose proof (get_raises_first_error Example.no_ids q ok [failed]
                [mkRunQueryResponse None (Some "t0") None None]
                ltac:(repeat constructor)) as [_ [Hlater _]].
  pose proof (get_raises_first_error Example.no_ids q failed [ok] [ok]
                ltac:(repeat constructor)) as [Hfirst _].
  split; [exact (Hlater eq_refl)|exact (proj1 (Hfirst _ eq_refl))].
Defined.

End ReadErrorExamples.

(** ** Reads of documents by name *)

Section DocumentReads.
Context `{Codec} `{Runtime}.

Lemma result_key_error (res : BatchGetResponse) (e : error) :
  result_key res = Err e -> kind e = RuntimeError.
Proof.
  unfold result_key. destruct (missing res) as [[|]|], (found res); intros [=]; now subst.
Qed.

Lemma fill_docMap_error (l : list BatchGetResponse) (m0 : gmap string BatchGetResponse)
    (e : error) :
  fill_docMap m0 l = Err e -> kind e = RuntimeError.
Proof.
  revert m0. induction l as [|r l IH]; intros m0; simpl; [discriminate|].
  destruct (result_key r) as [k|e'] eqn:Ek; simpl.
  - apply IH.
  - intros [= <-]. exact (result_key_error r e' Ek).
Qed.

Lemma fill_docMap_stops (l : list BatchGetResponse) (m0 : gmap string BatchGetResponse)
    (res : BatchGetResponse) :
  In res l -> is_ok (result_key res) = false -> is_ok (fill_docMap m0 l) = false.
Proof.
  revert m0. induction l as [|r l IH]; intros m0 Hin Hbad; [destruct Hin|].
  destruct Hin as [<-|Hin]; simpl.
  - destruct (result_key r); [discriminate|reflexivity].
  - destruct (result_key r); [|reflexivity]. simpl. now apply IH.
Qed.

Lemma fill_docMap_keys (l : list BatchGetResponse) (m0 m : gmap string BatchGetResponse) :
  fill_docMap m0 l = Ok m ->
  forall k res, m !! k = Some res ->
    m0 !! k = Some res \/ (In res l /\ result_key res = Ok k).
Proof.
  revert m0. induction l as [|r l IH]; intros m0; simpl.
  - intros [= ->]. auto.
  - destruct (result_key r) as [k0|e'] eqn:Ek; simpl; [|discriminate].
    intros Hm k res Hres. destruct (IH _ Hm k res Hres) as [Hold|[Hin Hkey]].
    + destruct (decide (k0 = k)) as [<-|Hne].
      * rewrite lookup_insert_eq in Hold. injection Hold as <-. right. now split; [left|].
      * rewrite lookup_insert_ne in Hold by exact Hne. now left.
    + right. now split; [right|].
Qed.

Lemma snapshot_of_error (m : gmap string BatchGetResponse) (r : DocumentReference)
    (e : error) :
  snapshot_of m r = Err e -> kind e = RuntimeError.
Proof. unfold snapshot_of. destruct (m !! _); intros [=]; now subst. Qed.

Lemma mapR_stops {A B : Type} (f : A -> result B) (l : list A) (x : A) :
  (forall y e, f y = Err e -> kind e = RuntimeError) ->
  In x l -> is_ok (f x) = false -> fails_with RuntimeError (mapR f l).
Proof.
  intros Hkind. induction l as [|y l IH]; intros Hin Hbad; [destruct Hin|].
  destruct Hin as [<-|Hin]; simpl.
  - destruct (f y) as [b|e] eqn:E; [discriminate|]. exists e. split; [reflexivity|eauto].
  - destruct (f y) as [b|e] eqn:E; simpl.
    + destruct (IH Hin Hbad) as (e & -> & Hk). exists e. now split.
    + exists e. split; [reflexivity|eauto].
Qed.

End DocumentReads.

(** X15.  [batchGet] relies on the response being complete.  An entry that
    has neither [missing] nor [found] (such as one that carries only the id
    of a new transaction), or a requested document for which the response
    has no entry, makes it fail with a runtime [TypeError]; no snapshot is
    returned, not even for the documents that were answered. *)
Theorem batchGet_incomplete_response `{Codec} `{Runtime} (st : Store)
    (refs : list DocumentReference) (fields : option (list string))
    (consistency : option ConsistencyOptions) (response : list BatchGetResponse) :
  fetch (log st)
    (mkRequest (request_path (config st) ":batchGet")
       (batchGet_request st refs fields consistency))
  = Ok (BatchGetResponses response) ->
  (exists res, In res response /\ found res = None
               /\ (missing res = None \/ missing res = Some ""))
  \/ (exists r, In r refs
        /\ forall res, In res response ->
             result_key res <> Ok (DocumentReference_qualifiedPath r)) ->
  fails_with RuntimeError (fst (Firestore_batchGet st refs fields consistency)).
Proof.
  intros Hfetch Hbad. unfold Firestore_batchGet, request. rewrite Hfetch. simpl.
  destruct (fill_docMap ∅ response) as [m|e] eqn:Em; simpl.
  2: { exists e. split; [reflexivity|]. exact (fill_docMap_error _ _ _ Em). }
  destruct Hbad as [(res & Hin & Hfound & Hmissing)|(r & Hin & Hnone)].
  - pose proof (fill_docMap_stops response ∅ res Hin) as Hstop. rewrite Em in Hstop.
    assert (is_ok (result_key res) = false) as Hk
      by (unfold result_key; rewrite Hfound; now destruct Hmissing as [-> | ->]).
    specialize (Hstop Hk). discriminate.
  - apply (mapR_stops (snapshot_of m) refs r (snapshot_of_error m) Hin).
    unfold snapshot_of.
    destruct (m !! DocumentReference_qualifiedPath r) as [res|] eqn:El; [|reflexivity].
    destruct (fill_docMap_keys _ _ _ Em _ _ El) as [Hempty|[Hres Hkey]].
    + rewrite lookup_empty in Hempty. discriminate.
    + now destruct (Hnone res Hres).
Qed.

(** X16.  [DocumentReference.get] asks [batchGet] for the one document.
    The request names its qualified path and carries the token of the
    running transaction of the store; a [transaction] given in the
    reference's own options is never sent.  When the response holds the
    entry of that document, the call returns a snapshot whose reference is
    the reference itself: with the document when it was found, and without
    one, but with no error, when it is missing. *)
Theorem DocumentReference_get_outcomes `{Codec} `{Runtime} (st : Store)
    (d : DocumentReference) (fields : option (list string)) (res : BatchGetResponse) :
  let body :=
    BatchGetRequest [DocumentReference_qualifiedPath d] fields
      (doc_transactionOptions d ≫= c_newTransaction)
      (doc_transactionOptions d ≫= c_readTime) (transaction st) in
  fetch (log st) (mkRequest (request_path (config st) ":batchGet") body)
  = Ok (BatchGetResponses [res]) ->
  result_key res = Ok (DocumentReference_qualifiedPath d) ->
  let out := DocumentReference_get st d fields in
  log (snd out) = log st ++ [mkRequest (request_path (config st) ":batchGet") body]
  /\ transaction (snd out) = transaction st
  /\ fst out = Ok (Some (mkDocumentSnapshot d (result_document res) (bg_readTime res)))
  /\ (forall m, missing res = Some m -> m <> "" -> result_document res = None)
  /\ (missing res = None \/ missing res = Some "" -> result_document res = found res).
Proof.
  intros body Hfetch Hkey out. subst out.
  unfold DocumentReference_get, Firestore_batchGet, request.
  change (batchGet_request st [d] fields (doc_transactionOptions d)) with body.
  rewrite Hfetch. simpl. rewrite Hkey. simpl.
  unfold snapshot_of. rewrite lookup_insert_eq. simpl.
  repeat split.
  - intros m Hm Hne. unfold result_document. rewrite Hm. now destruct m.
  - intros [Hm|Hm]; unfold result_document; now rewrite Hm.
Qed.

Section DocumentReadExamples.
#[local] Existing Instance Example.codec.
#[local] Existing Instance Example.runtime.

Lemma batchGet_incomplete_response_witness :
  let u1 := mkDocumentReference Example.store_config ["users"; "u1"] None in
  let u9 := mkDocumentReference Example.store_config ["users"; "u9"] None in
  fails_with RuntimeError
    (fst (Firestore_batchGet (H0 := Faulty.runtime) Example.store [u1; u9] None None)).
Proof.
  intros u1 u9.
  apply (batchGet_incomplete_response (H0 := Faulty.runtime) Example.store [u1; u9]
           None None [mkBatchGetResponse (Some (Example.user "u1" 1 1)) None (Some "t0")]).
  - reflexivity.
  - right. exists u9. split; [simpl; tauto|].
    intros res [<-|[]]. vm_compute. discriminate.
Defined.

Lemma DocumentReference_get_outcomes_witness :
  let u9 := mkDocumentReference Example.store_config ["users"; "u9"] None in
  fst (DocumentReference_get Example.store u9 None)
  = Ok (Some (mkDocumentSnapshot u9 None (Some "t0"))).
Proof.
  intros u9.
  exact (proj1 (proj2 (proj2
    (DocumentReference_get_outcomes (H := Example.codec) (H0 := Example.runtime)
       Example.store u9 None
       (mkBatchGetResponse None (Some (Example.qualified "u9")) (Some "t0"))
       ltac:(reflexivity) ltac:(reflexivity))))).
Defined.

End DocumentReadExamples.

(** ** Transactions whose requests fail *)

(** X17.  [runTransaction] sends two requests of its own, and the failure
    of either is the failure of the call.  When [beginTransaction] fails,
    the update function is not run and the store is as before, but for the
    request sent.  When the update function has returned and [commit]
    fails, its result is lost and the store keeps the token and the pending
    writes of the transaction: later reads of that store still carry the
    token. *)
Theorem runTransaction_request_fails `{Codec} `{Runtime} {T : Type} (st : Store)
    (body : Body T) (options : option TransactionOptions) (e : error) :
  let begin := mkRequest (request_path (config st) ":beginTransaction")
                 (BeginTransactionRequest options) in
  let started tok :=
    mkStore (config st) (Some tok) (Some []) (log st ++ [begin]) (drawn st) in
  (fetch (log st) begin = Err e ->
   Firestore_runTransaction st body options
   = (Err e, mkStore (config st) (transaction st) (writes st) (log st ++ [begin]) (drawn st)))
  /\ (forall tok t st1,
        fetch (log st) begin = Ok (BeginTransactionResponse (Some tok)) ->
        run_body body (started tok) = (Ok t, st1) ->
        let commit := mkRequest (request_path (config st) ":commit")
                        (CommitRequest (writes st1) (Some tok)) in
        fetch (log st1) commit = Err e ->
        Firestore_runTransaction st body options
        = (Err e, mkStore (config st) (Some tok) (writes st1) (log st1 ++ [commit]) (drawn st1))
        /\ forall refs fields consistency,
             batchGet_request (snd (Firestore_runTransaction st body options))
               refs fields consistency
             = BatchGetRequest (map DocumentReference_qualifiedPath refs) fields
                 (consistency ≫= c_newTransaction) (consistency ≫= c_readTime) (Some tok)).
Proof.
  intros begin started. split.
  - intros Hfetch. unfold Firestore_runTransaction, request. fold begin. now rewrite Hfetch.
  - intros tok t st1 Hbegin Hbody commit Hcommit.
    assert (Hrun : Firestore_runTransaction st body options
                   = (Err e, mkStore (config st) (Some tok) (writes st1)
                               (log st1 ++ [commit]) (drawn st1))).
    { pose proof (run_body_trace body (started tok) tok eq_refl) as Htrace.
      rewrite Hbody in Htrace. simpl in Htrace. destruct Htrace as (Htok & Hconfig & _).
      unfold Firestore_runTransaction, request. fold begin. rewrite Hbegin.
      change (set_transaction _ (Some tok) (Some [])) with (started tok).
      rewrite Hbody. cbv beta iota zeta. rewrite Htok, Hconfig. fold commit.
      now rewrite Hcommit. }
    split; [exact Hrun|]. intros refs fields consistency. now rewrite Hrun.
Qed.

Section FailingTransactionExamples.
#[local] Existing Instance Example.codec.
#[local] Existing Instance Faulty.runtime.

Lemma runTransaction_request_fails_witness :
  let begin options := mkRequest "projects/demo/databases/(default)/documents:beginTransaction"
                         (BeginTransactionRequest options) in
  let commit := mkRequest "projects/demo/databases/(default)/documents:commit"
                  (CommitRequest (Some []) (Some "tx-ro")) in
  Firestore_runTransaction Example.store (Return 1%nat) None
  = (Err (StatusError 503 "unavailable"),
     mkStore Example.store_config None None [begin None] 0)
  /\ Firestore_runTransaction Example.store (Return 1%nat) (Some (readOnly None))
     = (Err (StatusError 409 "aborted"),
        mkStore Example.store_config (Some "tx-ro") (Some [])
          [begin (Some (readOnly None)); commit] 0).
Proof.
  intros begin commit. split.
  - exact (proj1 (runTransaction_request_fails (H := Example.codec) (H0 := Faulty.runtime)
                    Example.store (Return 1%nat) None (StatusError 503 "unavailable"))
             eq_refl).
  - exact (proj1 (proj2 (runTransaction_request_fails (H := Example.codec)
                           (H0 := Faulty.runtime) Example.store (Return 1%nat)
                           (Some (readOnly None)) (StatusError 409 "aborted"))
                    "tx-ro" 1%nat _ eq_refl eq_refl eq_refl)).
Defined.

End FailingTransactionExamples.

(** ** Where a query is sent *)

Section RequestPaths.

Lemma join_head (c : ascii) (a : string) (rest : list string) :
  exists t, Path.join (String c a :: rest) = String c t.
Proof. destruct rest as [|b rest]; simpl; eauto. Qed.

Lemma clean_head (s : string) :
  clean s = true -> exists c t, s = String c t /\ c <> Path.slash.
Proof.
  destruct s as [|c t]; [discriminate|]. intros Hs. exists c, t. split; [reflexivity|].
  intros ->. apply clean_inv in Hs. destruct Hs as [_ Hs]. discriminate Hs.
Qed.

Lemma CollectionReference_parent_clean (c : CollectionReference) (l : list string)
    (name : string) :
  col_segments c = l ++ [name] ->
  Forall (fun s => clean s = true) l -> clean name = true -> even_length l = true ->
  CollectionReference_parent c = Ok (mkDocumentReference (col_firestore c) l None).
Proof.
  intros Hsegs Hl Hname Heven. unfold CollectionReference_parent, CollectionReference_path.
  rewrite Hsegs, parent_path by assumption.
  now apply (proj1 (reference_from_path (col_firestore c) l None Hl)).
Qed.

End RequestPaths.

(** X18.  [get] on a collection of clean segments sends one [runQuery]
    request, with the query compiled from the state and the token of the
    store, to the path of the parent document under the base path: the
    base path itself for a top-level collection, and the qualified path of
    the parent document otherwise.  The slash between the two is left out
    when the first segment starts with a colon. *)
Theorem get_request_path `{Codec} `{Runtime} (st : Store) (q : Query)
    (sq : StructuredQuery) (l : list string) (name : string) :
  col_segments (ref q) = l ++ [name] ->
  Forall (fun s => clean s = true) l -> clean name = true -> even_length l = true ->
  compile (state q) = Ok sq ->
  let parent := mkDocumentReference (config st) l None in
  log (snd (Query_get st q))
  = log st ++ [mkRequest (basePath (config st) ++ separator l
                          ++ DocumentReference_path parent ++ ":runQuery")
                 (RunQueryRequest sq (transaction st))]
  /\ (l = [] -> separator l = "" /\ DocumentReference_path parent = "")
  /\ ((forall t rest, l <> String ":" t :: rest) -> l <> [] ->
      (basePath (config st) ++ separator l ++ DocumentReference_path parent ++ ":runQuery"
       = DocumentReference_qualifiedPath parent ++ ":runQuery")%string).
Proof.
  intros Hsegs Hl Hname Heven Hsq parent.
  assert (Hpath : request_path (config st) (Path.join l ++ ":runQuery")
                  = (basePath (config st) ++ separator l ++ Path.join l ++ ":runQuery")%string).
  { destruct l as [|a rest]; [reflexivity|].
    inversion Hl as [|? ? Ha _]; subst.
    destruct (clean_head a Ha) as (c & t & -> & Hc).
    destruct (join_head c t rest) as (u & Hu). rewrite Hu.
    unfold request_path, separator.
    change ((String c u ++ ":runQuery")%string) with (String c (u ++ ":runQuery")).
    cbv iota. destruct (Ascii.eqb c ":") eqn:Ecolon; [reflexivity|].
    apply Ascii.eqb_neq in Hc. unfold Path.slash in Hc. rewrite Hc. reflexivity. }
  split; [|split].
  - unfold Query_get. rewrite Hsq.
    rewrite (CollectionReference_parent_clean (ref q) l name Hsegs Hl Hname Heven).
    unfold request.
    change (DocumentReference_path (mkDocumentReference (col_firestore (ref q)) l None))
      with (Path.join l).
    rewrite Hpath.
    destruct (fetch _ _) as [[]|]; reflexivity.
  - now intros ->.
  - intros Hcolon Hne. unfold DocumentReference_qualifiedPath, DocumentReference_path.
    cbn [doc_firestore doc_segments]. rewrite !string_app_assoc.
    destruct l as [|[|c t] rest]; [contradiction|reflexivity|].
    unfold separator. destruct (Ascii.eqb c ":") eqn:Ecolon; [|reflexivity].
    apply Ascii.eqb_eq in Ecolon. subst c. now destruct (Hcolon t rest).
Qed.

Section RequestPathExamples.
#[local] Existing Instance Example.codec.
#[local] Existing Instance Example.runtime.

Lemma get_request_path_witness :
  let posts := mkCollectionReference Example.store_config ["users"; "u1"; "posts"] None in
  exists sq,
    log (snd (Query_get Example.store (collection_query posts)))
    = [mkRequest "projects/demo/databases/(default)/documents/users/u1:runQuery"
         (RunQueryRequest sq None)].
Proof.
  intros posts. eexists.
  exact (proj1 (get_request_path (H := Example.codec) (H0 := Example.runtime)
                  Example.store (collection_query posts) _ ["users"; "u1"] "posts"
                  eq_refl ltac:(repeat constructor) eq_refl eq_refl eq_refl)).
Defined.

End RequestPathExamples.

(** ** Listings *)

Section Listings.

Lemma join_app (a b : list string) :
  a <> [] -> b <> [] ->
  Path.join (a ++ b) = (Path.join a ++ "/" ++ Path.join b)%string.
Proof.
  intros Ha Hb. induction a as [|x a IH]; [contradiction|].
  destruct a as [|y a].
  - destruct b as [|z b]; [contradiction|reflexivity].
  - change (Path.join ((x :: y :: a) ++ b))
      with (x ++ "/" ++ Path.join ((y :: a) ++ b))%string.
    rewrite IH by discriminate.
    change (Path.join (x :: y :: a)) with (x ++ "/" ++ Path.join (y :: a))%string.
    now rewrite !string_app_assoc.
Qed.

Lemma mapR_all {A B : Type} (f : A -> result B) (g : A -> B) (l : list A) :
  Forall (fun x => f x = Ok (g x)) l -> mapR f l = Ok (map g l).
Proof.
  induction 1 as [|x l Hx _ IH]; [reflexivity|]. simpl. now rewrite Hx, IH.
Qed.

Lemma mapR_fails {A B : Type} (k : error_kind) (f : A -> result B) (l : list A) (x : A) :
  (forall y e, f y = Err e -> kind e = k) ->
  In x l -> is_ok (f x) = false -> fails_with k (mapR f l).
Proof.
  intros Hkind. induction l as [|y l IH]; intros Hin Hbad; [destruct Hin|].
  destruct Hin as [<-|Hin]; simpl.
  - destruct (f y) as [b|e] eqn:E; [discriminate|]. exists e. split; [reflexivity|eauto].
  - destruct (f y) as [b|e] eqn:E; simpl.
    + destruct (IH Hin Hbad) as (e & -> & Hk). exists e. now split.
    + exists e. split; [reflexivity|eauto].
Qed.

Lemma newDocumentReference_error (fs : Firestore) (p : PathArg)
    (o : option ConsistencyOptions) (e : error) :
  newDocumentReference fs p o = Err e -> kind e = InvalidPath.
Proof.
  unfold newDocumentReference. destruct (negb _); intros [=]. now subst.
Qed.

(** The segments of the base path the constructor of [Firestore] builds. *)
Lemma basePath_segments (settings : Settings) :
  exists db,
    basePath (newFirestore settings)
    = Path.join ["projects"; projectId settings; "databases"; db; "documents"]
    /\ (db = "(default)" \/ (databaseId settings = Some db /\ db <> "")).
Proof.
  unfold newFirestore. cbn [basePath].
  destruct (databaseId settings) as [[|c t]|].
  - exists "(default)". split; [reflexivity|now left].
  - exists (String c t). split; [reflexivity|right; now split].
  - exists "(default)". split; [reflexivity|now left].
Qed.

Lemma even_length_five {A : Type} (a b c d e : A) (l : list A) :
  even_length ([a; b; c; d; e] ++ l) = negb (even_length l).
Proof.
  unfold even_length.
  change (Nat.even (length ([a; b; c; d; e] ++ l))) with (Nat.even (S (length l))).
  now rewrite Nat.even_succ, <- Nat.negb_even.
Qed.

End Listings.

(** X19.  [listDocuments] builds each reference from the name the service
    gives the document.  That name is the qualified path, of five more
    segments than the path in the database, so for a document of the
    collection the constructor counts an odd number of segments: one such
    document in the response makes the call fail with an invalid-path
    error.  A response without [documents] is a runtime [TypeError], and an
    empty list gives no references. *)
Theorem listDocuments_rejects_qualified_names (settings : Settings)
    (c : CollectionReference) (ds : list Document) (d : Document) (id : string) :
  clean (projectId settings) = true ->
  (forall db, databaseId settings = Some db -> db <> "" -> clean db = true) ->
  col_firestore c = newFirestore settings ->
  Forall (fun s => clean s = true) (col_segments c) ->
  even_length (col_segments c) = false ->
  clean id = true ->
  In d ds ->
  name d = (CollectionReference_qualifiedPath c ++ "/" ++ id)%string ->
  fails_with InvalidPath (listDocuments_result c (Some ds))
  /\ fails_with RuntimeError (listDocuments_result c None)
  /\ listDocuments_result c (Some []) = Ok [].
Proof.
  intros Hproject Hdb Hfs Hsegs Hodd Hid Hin Hname. split; [|split].
  2: { eexists. split; reflexivity. }
  2: { reflexivity. }
  unfold listDocuments_result.
  apply (mapR_fails InvalidPath _ ds d); [|exact Hin|].
  { intros y e. apply newDocumentReference_error. }
  destruct (basePath_segments settings) as (db & Hbase & Hdefault).
  assert (Hne : col_segments c <> []) by (intros E; rewrite E in Hodd; discriminate).
  set (base := ["projects"; projectId settings; "databases"; db; "documents"]) in *.
  assert (Hall : Forall (fun s => clean s = true) (base ++ col_segments c ++ [id])).
  { apply Forall_app. split.
    - subst base. repeat constructor; try exact Hproject.
      destruct Hdefault as [->|[Hsome Hnonempty]]; [reflexivity|now apply Hdb].
    - now apply Forall_clean_snoc. }
  assert (Hjoined : name d = Path.join (base ++ col_segments c ++ [id])).
  { rewrite Hname. unfold CollectionReference_qualifiedPath. rewrite Hfs, Hbase.
    rewrite join_app; [|discriminate|now destruct (col_segments c)].
    rewrite join_snoc by exact Hne. now rewrite !string_app_assoc. }
  unfold newDocumentReference. rewrite Hjoined.
  rewrite (proj1 (segments_of_join _ Hall)).
  subst base. rewrite even_length_five, even_length_snoc, Hodd. reflexivity.
Qed.

Lemma listDocuments_rejects_qualified_names_witness :
  let users := mkCollectionReference
                 (newFirestore (mkSettings "demo" None)) ["users"] None in
  fails_with InvalidPath
    (listDocuments_result users
       (Some [mkDocument "projects/demo/databases/(default)/documents/users/u1" []])).
Proof.
  intros users.
  exact (proj1 (listDocuments_rejects_qualified_names (mkSettings "demo" None) users
                  [mkDocument "projects/demo/databases/(default)/documents/users/u1" []]
                  (mkDocument "projects/demo/databases/(default)/documents/users/u1" [])
                  "u1" eq_refl ltac:(intros db [=]) eq_refl ltac:(repeat constructor)
                  eq_refl eq_refl ltac:(now left) eq_refl)).
Defined.

(** X20.  [listCollections] returns, for the clean ids the service names,
    the collections of these ids under the document, in the order of the
    response; the parent of each is the document.  A response without
    [collectionIds] is a runtime [TypeError]. *)
Theorem listCollections_children (d : DocumentReference) (ids : list string) :
  Forall (fun s => clean s = true) (doc_segments d) ->
  even_length (doc_segments d) = true ->
  Forall (fun s => clean s = true) ids ->
  let child id := mkCollectionReference (doc_firestore d) (doc_segments d ++ [id]) None in
  listCollections_result d (Some ids) = Ok (map child ids)
  /\ (forall id, In id ids ->
        CollectionReference_id (child id) = Some id
        /\ CollectionReference_parent (child id)
           = Ok (mkDocumentReference (doc_firestore d) (doc_segments d) None))
  /\ fails_with RuntimeError (listCollections_result d None).
Proof.
  intros Hsegs Heven Hids child. split; [|split].
  - unfold listCollections_result. apply mapR_all.
    eapply Forall_impl; [exact Hids|]. intros id Hid. simpl in Hid.
    unfold DocumentReference_collection, newCollectionReference.
    rewrite pieces_of_clean by exact Hid. now rewrite even_length_snoc, Heven.
  - intros id Hin. rewrite List.Forall_forall in Hids. specialize (Hids id Hin). split.
    + unfold CollectionReference_id, last_or_null. simpl. rewrite last_snoc.
      destruct id; [discriminate|reflexivity].
    + now apply (CollectionReference_parent_clean (child id) (doc_segments d) id).
  - eexists. split; reflexivity.
Qed.

Lemma listCollections_children_witness :
  let u1 := mkDocumentReference Example.store_config ["users"; "u1"] None in
  listCollections_result u1 (Some ["posts"; "likes"])
  = Ok [mkCollectionReference Example.store_config ["users"; "u1"; "posts"] None;
        mkCollectionReference Example.store_config ["users"; "u1"; "likes"] None].
Proof.
  intros u1.
  exact (proj1 (listCollections_children u1 ["posts"; "likes"]
                  ltac:(repeat constructor) eq_refl ltac:(repeat constructor))).
Defined.

(** ** The HTTP layer *)

Section ServiceFacts.
Context {Json : Type}.

Lemma set_named (name value : string) (ps : Service.URLSearchParams) :
  List.filter (Service.named name) (Service.set name value ps) = [(name, value)].
Proof.
  assert (Hself : Service.named name (name, value) = true)
    by (unfold Service.named; simpl; apply String.eqb_refl).
  assert (Hnone : forall l,
            List.filter (Service.named name)
              (List.filter (fun q => negb (Service.named name q)) l) = []).
  { induction l as [|q l IH]; [reflexivity|]. simpl.
    destruct (Service.named name q) eqn:E; simpl; [exact IH|]. now rewrite E. }
  induction ps as [|p ps IH]; simpl.
  - now rewrite Hself.
  - destruct (Service.named name p) eqn:E; simpl.
    + now rewrite Hself, Hnone.
    + now rewrite E.
Qed.

Lemma set_others (name value : string) (ps : Service.URLSearchParams) :
  List.filter (fun q => negb (Service.named name q)) (Service.set name value ps)
  = List.filter (fun q => negb (Service.named name q)) ps.
Proof.
  assert (Hself : Service.named name (name, value) = true)
    by (unfold Service.named; simpl; apply String.eqb_refl).
  assert (Hidem : forall l,
            List.filter (fun q => negb (Service.named name q))
              (List.filter (fun q => negb (Service.named name q)) l)
            = List.filter (fun q => negb (Service.named name q)) l).
  { induction l as [|q l IH]; [reflexivity|]. simpl.
    destruct (Service.named name q) eqn:E; simpl; [exact IH|]. now rewrite E, IH. }
  induction ps as [|p ps IH]; simpl.
  - now rewrite Hself.
  - destruct (Service.named name p) eqn:E; simpl.
    + now rewrite Hself, Hidem.
    + now rewrite E, IH.
Qed.

Lemma request_calls (fetch : Service.Init -> result (Service.Data (Json := Json)))
    (svc : Service.FirebaseService) (m : Service.HTTPMethod) (path : option string)
    (searchOrBody : Service.SearchOrBody) (body : Service.BodyArg)
    (authorized : Service.Authorized) (init : Service.Init) :
  In init (snd (Service.request fetch svc m path searchOrBody body authorized)) ->
  Service.url init = (Service.apiUrl svc ++ Service.rooted path)%string
  /\ Service.search init
     = Service.set "key" (Service.apiKey svc)
         (match searchOrBody with Service.Search ps => ps | _ => [] end)
  /\ Service.method init = m.
Proof.
  unfold Service.request.
  destruct body; destruct (Service.authorization svc _) as [header|e]; simpl;
    intros Hin; first [contradiction|destruct Hin as [<-|[]]; now repeat split].
Qed.

End ServiceFacts.

(** X21.  Every call of [fetch] that [request] makes goes to the service's
    URL followed by the path, with a slash between them unless the path is
    empty or starts with a slash or a colon, and carries the API key of the
    service as its one [key] parameter: a [key] among the search parameters
    of the caller is replaced, and the caller's other parameters are sent
    as they are, in their order. *)
Theorem request_sets_key {Json : Type}
    (fetch : Service.Init -> result (Service.Data (Json := Json)))
    (svc : Service.FirebaseService) (m : Service.HTTPMethod) (path : string)
    (searchOrBody : Service.SearchOrBody) (body : Service.BodyArg)
    (authorized : Service.Authorized) (init : Service.Init) :
  In init (snd (Service.request fetch svc m (Some path) searchOrBody body authorized)) ->
  let given := match searchOrBody with Service.Search ps => ps | _ => [] end in
  List.filter (Service.named "key") (Service.search init) = [("key", Service.apiKey svc)]
  /\ List.filter (fun q => negb (Service.named "key" q)) (Service.search init)
     = List.filter (fun q => negb (Service.named "key" q)) given
  /\ (path = "" \/ String.prefix "/" path = true \/ String.prefix ":" path = true ->
      Service.url init = (Service.apiUrl svc ++ path)%string)
  /\ (path <> "" -> String.prefix "/" path = false -> String.prefix ":" path = false ->
      Service.url init = (Service.apiUrl svc ++ "/" ++ path)%string).
Proof.
  intros Hin given. destruct (request_calls _ _ _ _ _ _ _ _ Hin) as (Hurl & Hsearch & _).
  rewrite Hsearch, Hurl. split; [apply set_named|]. split; [apply set_others|].
  assert (Hfirst : forall c t (x : ascii),
            String.prefix (String x "") (String c t) = Ascii.eqb c x).
  { intros c t x. simpl. destruct (ascii_dec x c) as [->|Hne].
    - destruct t; now rewrite Ascii.eqb_refl.
    - symmetry. apply Ascii.eqb_neq. congruence. }
  split.
  - intros [->|Hp]; [reflexivity|]. destruct path as [|c t]; [reflexivity|].
    unfold Service.rooted. rewrite !Hfirst in Hp.
    destruct Hp as [-> | ->]; [now rewrite orb_true_r|reflexivity].
  - intros Hne Hslash Hcolon. destruct path as [|c t]; [contradiction|].
    unfold Service.rooted. rewrite Hfirst in Hslash, Hcolon. now rewrite Hslash, Hcolon.
Qed.

Lemma request_sets_key_witness :
  let svc := Service.mkService "https://example.test/v1" "k-1" (fun _ => Ok "t") in
  let sent := Service.mkInit "https://example.test/v1/users"
                [("pageSize", "10"); ("key", "k-1")] Service.GET (None : option string)
                (Some "Bearer t") in
  List.filter (Service.named "key") (Service.search sent) = [("key", "k-1")].
Proof.
  intros svc sent.
  exact (proj1 (request_sets_key (fun _ => Ok (Service.Payload "{}")) svc Service.GET "users"
                  (Service.Search [("pageSize", "10"); ("key", "stale"); ("key", "older")])
                  Service.NoBody Service.Unset sent ltac:(now left))).
Defined.

(** X22.  Who is authorized.  [userRequest] sends its one call without an
    [Authorization] header and never consults the token getter, so it does
    not depend on it.  [request] without [authorized] sends the default
    token of the service as a bearer token, and sends nothing when the
    getter fails; with a scope it sends the token of that scope.  A string
    in the place of the body is the scope, and the body is then the third
    argument. *)
Theorem request_authorization {Json : Type}
    (fetch : Service.Init -> result (Service.Data (Json := Json)))
    (svc : Service.FirebaseService) (m : Service.HTTPMethod) (path : option string)
    (searchOrBody : Service.SearchOrBody) (body : option Json) (scope : string) :
  let arg := match body with Some o => Service.BodyObject o | None => Service.NoBody end in
  (exists init,
     snd (Service.userRequest fetch svc m path searchOrBody body) = [init]
     /\ Service.Authorization init = None
     /\ forall tokens,
          Service.userRequest fetch
            (Service.mkService (Service.apiUrl svc) (Service.apiKey svc) tokens)
            m path searchOrBody body
          = Service.userRequest fetch svc m path searchOrBody body)
  /\ (forall e, Service.getToken svc None = Err e ->
        Service.request fetch svc m path searchOrBody arg Service.Unset = (Err e, []))
  /\ (forall tok, Service.getToken svc None = Ok tok ->
        exists init,
          snd (Service.request fetch svc m path searchOrBody arg Service.Unset) = [init]
          /\ Service.Authorization init = Some ("Bearer " ++ tok)%string)
  /\ (forall tok, Service.getToken svc (Some scope) = Ok tok ->
        exists init,
          snd (Service.request fetch svc m path searchOrBody arg (Service.Scope scope))
          = [init]
          /\ Service.Authorization init = Some ("Bearer " ++ tok)%string)
  /\ Service.request fetch svc m path searchOrBody (Service.BodyString scope) Service.Unset
     = Service.request fetch svc m path searchOrBody Service.NoBody (Service.Scope scope).
Proof.
  intros arg. subst arg. destruct body as [o|].
  all: split; [eexists; split; [reflexivity|split; [reflexivity|intros tokens; reflexivity]]|].
  all: split; [intros e He; unfold Service.request, Service.authorization; now rewrite He|].
  all: split; [intros tok Htok; eexists; unfold Service.request, Service.authorization;
               rewrite Htok; split; reflexivity|].
  all: split; [intros tok Htok; eexists; unfold Service.request, Service.authorization;
               rewrite Htok; split; reflexivity|reflexivity].
Qed.

Lemma request_authorization_witness :
  let svc := Service.mkService "https://example.test/v1" "k-1"
               (fun scope => match scope with
                             | Some _ => Ok "scoped"
                             | None => Err (Thrown "no key")
                             end) in
  Service.request (fun _ => Ok (Service.Payload "{}")) svc Service.POST
    (Some "accounts:lookup") Service.Absent (Service.BodyObject "{}") Service.Unset
  = (Err (Thrown "no key"), []).
Proof.
  intros svc.
  exact (proj1 (proj2 (request_authorization (fun _ => Ok (Service.Payload "{}")) svc
                         Service.POST (Some "accounts:lookup") Service.Absent (Some "{}")
                         "scope"))
           (Thrown "no key") eq_refl).
Defined.

Section FirestoreRequests.
Context {Json : Type}.

Lemma request_path_projects (settings : Settings) (path : string) :
  exists t, request_path (newFirestore settings) path = String "p" t.
Proof.
  unfold request_path, newFirestore. cbn [basePath].
  destruct path as [|c u]; [eexists; reflexivity|].
  destruct (Ascii.eqb c ":" || Ascii.eqb c "/"); eexists; reflexivity.
Qed.

End FirestoreRequests.

(** X23.  A request of a [Firestore] built from its settings goes to
    [https://firestore.googleapis.com/v1/] followed by the base path and
    the path of the request, with the default token of the service and
    the body given.  What [fetch] answers decides the outcome: data with
    an [error] is thrown as a [StatusError] of its code and message, other
    data is returned, and a failure of [fetch] is the failure of the
    request. *)
Theorem Firestore_request_url {Json : Type}
    (fetch : Service.Init -> result (Service.Data (Json := Json)))
    (key : string) (tokens : option string -> result string) (settings : Settings)
    (m : Service.HTTPMethod) (path : string) (searchOrBody : Service.SearchOrBody)
    (body : option Json) (tok : string) :
  tokens None = Ok tok ->
  let svc := Service.firestoreService key tokens in
  let fs := newFirestore settings in
  let out := Service.Firestore_request fetch svc fs m (Some path) searchOrBody body in
  exists init,
    snd out = [init]
    /\ Service.url init
       = ("https://firestore.googleapis.com/v1/" ++ request_path fs path)%string
    /\ Service.Authorization init = Some ("Bearer " ++ tok)%string
    /\ Service.body init
       = match body, searchOrBody with
         | None, Service.Object o => Some o
         | _, _ => body
         end
    /\ (forall code message, fetch init = Ok (Service.WithError code message) ->
          fst out = Err (StatusError code message))
    /\ (forall d, fetch init = Ok (Service.Payload d) -> fst out = Ok d)
    /\ (forall e, fetch init = Err e -> fst out = Err e).
Proof.
  intros Htok svc fs out. subst out.
  destruct (request_path_projects settings path) as (t & Ht).
  unfold Service.Firestore_request, Service.request, Service.authorization. fold fs.
  destruct body as [o|]; cbn [Service.getToken svc Service.firestoreService];
    rewrite Htok; simpl; eexists; (split; [reflexivity|]);
    (split; [unfold Service.rooted; fold fs; unfold fs; rewrite Ht; reflexivity|]);
    (split; [reflexivity|]); (split; [reflexivity|]);
    repeat split; intros; match goal with E : fetch _ = _ |- _ => now rewrite E end.
Qed.

Lemma Firestore_request_url_witness :
  let answer (init : Service.Init (Json := string)) :=
    Ok (Service.WithError 404 "not found" : Service.Data (Json := string)) in
  let out :=
    Service.Firestore_request answer (Service.firestoreService "k-1" (fun _ => Ok "t"))
      (newFirestore (mkSettings "demo" None)) Service.GET (Some "users/u1")
      Service.Absent None in
  exists init,
    snd out = [init]
    /\ Service.url init
       = "https://firestore.googleapis.com/v1/projects/demo/databases/(default)/documents/users/u1"
    /\ Service.Authorization init = Some "Bearer t"
    /\ fst out = Err (StatusError 404 "not found").
Proof.
  intros answer out.
  destruct (Firestore_request_url answer "k-1" (fun _ => Ok "t") (mkSettings "demo" None)
              Service.GET "users/u1" Service.Absent None "t" eq_refl)
    as (init & Hsent & Hurl & Hauth & _ & Herror & _).
  exists init. split; [exact Hsent|]. split; [exact Hurl|]. split; [exact Hauth|].
  exact (Herror 404%Z "not found" eq_refl).
Defined.

(** ** Tokens *)

Section TokenFacts.
Context `{Tokens.Platform}.

Lemma Claim_eqb_eq (a b : Tokens.Claim) : Tokens.Claim_eqb a b = true <-> a = b.
Proof.
  destruct a as [s|n], b as [t|m]; simpl; split; try discriminate.
  - intros E. apply String.eqb_eq in E. now subst.
  - intros [= ->]. apply String.eqb_refl.
  - intros E. apply Z.eqb_eq in E. now subst.
  - intros [= ->]. apply Z.eqb_refl.
Qed.

Lemma Map_get_set_eq {V : Type} (m : Tokens.Map V) (k : Tokens.Claim) (v : V) :
  Tokens.Map_get (Tokens.Map_set m k v) k = Some v.
Proof.
  assert (Hk : Tokens.Claim_eqb k k = true) by now apply Claim_eqb_eq.
  unfold Tokens.Map_get. induction m as [|[k' v'] m IH]; simpl.
  - now rewrite Hk.
  - destruct (Tokens.Claim_eqb k' k) eqn:E; simpl; [now rewrite Hk|]. rewrite E. exact IH.
Qed.

Lemma Map_get_set_ne {V : Type} (m : Tokens.Map V) (k other : Tokens.Claim) (v : V) :
  other <> k ->
  Tokens.Map_get (Tokens.Map_set m k v) other = Tokens.Map_get m other.
Proof.
  intros Hne.
  assert (Hk : Tokens.Claim_eqb k other = false).
  { destruct (Tokens.Claim_eqb k other) eqn:E; [|reflexivity].
    apply Claim_eqb_eq in E. now subst. }
  unfold Tokens.Map_get. induction m as [|[k' v'] m IH]; simpl.
  - now rewrite Hk.
  - destruct (Tokens.Claim_eqb k' k) eqn:E; simpl.
    + apply Claim_eqb_eq in E. subst k'. now rewrite Hk.
    + destruct (Tokens.Claim_eqb k' other); [reflexivity|exact IH].
Qed.

(** What a call of [getOauthToken] leaves alone. *)
Lemma getOauthToken_frame (account : Tokens.ServiceAccount) (scope : Tokens.Claim)
    (st : Tokens.State) :
  let st' := snd (Tokens.getOauthToken account scope st) in
  Tokens.token st' = Tokens.token st /\ Tokens.tokenExp st' = Tokens.tokenExp st
  /\ (Tokens.reads st <= Tokens.reads st')%nat
  /\ forall other, other <> scope ->
       Tokens.Map_get (Tokens.tokens st') other = Tokens.Map_get (Tokens.tokens st) other
       /\ Tokens.Map_get (Tokens.tokenExps st') other
          = Tokens.Map_get (Tokens.tokenExps st) other.
Proof.
  unfold Tokens.getOauthToken, Tokens.stale, Tokens.createToken, Tokens.now.
  destruct (Tokens.Map_get (Tokens.tokenExps st) scope) as [e|]; simpl.
  - destruct (e =? 0)%Z; simpl.
    + destruct (Tokens.sign _ _ _); simpl; [|repeat split; lia].
      destruct (Tokens.exchange _); simpl; [|repeat split; lia].
      repeat split; try lia; now apply Map_get_set_ne.
    + destruct (_ >? _)%Z; simpl; [|repeat split; lia].
      destruct (Tokens.sign _ _ _); simpl; [|repeat split; lia].
      destruct (Tokens.exchange _); simpl; [|repeat split; lia].
      repeat split; try lia; now apply Map_get_set_ne.
  - destruct (Tokens.sign _ _ _); simpl; [|repeat split; lia].
    destruct (Tokens.exchange _); simpl; [|repeat split; lia].
    repeat split; try lia; now apply Map_get_set_ne.
Qed.

Lemma backed_call (account : Tokens.ServiceAccount) (service : Tokens.Audience)
    (claims : option Tokens.Claims) (st : Tokens.State) :
  Tokens.backed account service st ->
  Tokens.backed account service (snd (Tokens.getToken account service claims st)).
Proof.
  intros Hst. unfold Tokens.getToken. destruct claims as [claims|].
  - destruct (Tokens.truthy_scope claims) as [scope|].
    + destruct (getOauthToken_frame account scope st) as (Htok & Hexp & Hreads & _).
      intros e He. rewrite Hexp in He. destruct (Hst e He) as (n & tok & H1 & H2 & H3 & H4).
      exists n, tok. rewrite Htok. repeat split; try assumption. simpl. lia.
    + unfold Tokens.createToken, Tokens.now. simpl.
      intros e He. destruct (Hst e He) as (n & tok & H1 & H2 & H3 & H4).
      exists n, tok. simpl. repeat split; try assumption. simpl. lia.
  - assert (Hfresh : Tokens.backed account service
                       (snd (let '(r, st0) := Tokens.createToken account service [] st in
                             match r with
                             | Err e => (Err e, st0)
                             | Ok tok =>
                                 let '(t, st1) := Tokens.now st0 in
                                 (Ok (Some tok),
                                  Tokens.mkState (Tokens.reads st1) (Tokens.signed st1)
                                    (Some tok) (Some (t + Tokens.exp)%Z) (Tokens.tokens st1)
                                    (Tokens.tokenExps st1))
                             end))).
    { unfold Tokens.createToken, Tokens.now. simpl.
      destruct (Tokens.sign _ _ _) as [tok|err] eqn:Es; simpl.
      - intros e [= <-]. exists (Tokens.reads st), tok. repeat split; [exact Es|simpl; lia].
      - intros e He. destruct (Hst e He) as (n & tok & H1 & H2 & H3 & H4).
        exists n, tok. repeat split; try assumption. simpl. lia. }
    unfold Tokens.stale. destruct (Tokens.tokenExp st) as [e0|] eqn:E0; [|exact Hfresh].
    destruct (e0 =? 0)%Z; [exact Hfresh|].
    unfold Tokens.now at 1. cbv beta iota zeta.
    destruct (_ >? _)%Z.
    + unfold Tokens.createToken, Tokens.now. simpl.
      destruct (Tokens.sign _ _ _) as [tok|err] eqn:Es; simpl.
      * intros e [= <-]. exists (S (Tokens.reads st)), tok. repeat split; [exact Es|simpl; lia].
      * intros e He. simpl in He. try rewrite <- E0 in He. destruct (Hst e He) as (n & tok & H1 & H2 & H3 & H4).
        exists n, tok. repeat split; try assumption. simpl. lia.
    + simpl. intros e He. simpl in He. try rewrite <- E0 in He.
      destruct (Hst e He) as (n & tok & H1 & H2 & H3 & H4).
      exists n, tok. repeat split; try assumption. simpl. lia.
Qed.

Lemma reachable_backed (account : Tokens.ServiceAccount) (service : Tokens.Audience)
    (st : Tokens.State) :
  Tokens.reachable account service st -> Tokens.backed account service st.
Proof.
  induction 1 as [|st claims _ IH].
  - intros e [=].
  - now apply backed_call.
Qed.

End TokenFacts.

Section TokenCaches.
Context `{Tokens.Platform}.

Lemma stale_within (e : Z) (st : Tokens.State) :
  e <> 0%Z -> (Tokens.clock (Tokens.reads st) <= e - 60)%Z ->
  Tokens.stale (Some e) st = (false, snd (Tokens.now st)).
Proof.
  intros Hne Hle. unfold Tokens.stale, Tokens.now.
  destruct (e =? 0)%Z eqn:E0; [apply Z.eqb_eq in E0; contradiction|].
  simpl. replace (_ >? _)%Z with false; [reflexivity|].
  symmetry. rewrite Z.gtb_ltb. apply Z.ltb_ge. exact Hle.
Qed.

Lemma getOauthToken_within (account : Tokens.ServiceAccount) (scope : Tokens.Claim)
    (st : Tokens.State) (e : Z) :
  Tokens.Map_get (Tokens.tokenExps st) scope = Some e ->
  e <> 0%Z -> (Tokens.clock (Tokens.reads st) <= e - 60)%Z ->
  Tokens.getOauthToken account scope st
  = (Ok (mjoin (Tokens.Map_get (Tokens.tokens st) scope)), snd (Tokens.now st)).
Proof.
  intros He Hne Hle. unfold Tokens.getOauthToken.
  rewrite He, (stale_within e st Hne Hle). reflexivity.
Qed.

Lemma getOauthToken_stored (account : Tokens.ServiceAccount) (scope : Tokens.Claim)
    (st : Tokens.State) (r : option string) :
  fst (Tokens.getOauthToken account scope st) = Ok r ->
  mjoin (Tokens.Map_get (Tokens.tokens (snd (Tokens.getOauthToken account scope st))) scope)
  = r.
Proof.
  unfold Tokens.getOauthToken, Tokens.stale, Tokens.createToken, Tokens.now.
  destruct (Tokens.Map_get (Tokens.tokenExps st) scope) as [e|]; simpl.
  - destruct (e =? 0)%Z; simpl.
    + destruct (Tokens.sign _ _ _); simpl; [|discriminate].
      destruct (Tokens.exchange _); simpl; [|discriminate].
      intros [= <-]. now rewrite Map_get_set_eq.
    + destruct (_ >? _)%Z; simpl; [|now intros [= <-]].
      destruct (Tokens.sign _ _ _); simpl; [|discriminate].
      destruct (Tokens.exchange _); simpl; [|discriminate].
      intros [= <-]. now rewrite Map_get_set_eq.
  - destruct (Tokens.sign _ _ _); simpl; [|discriminate].
    destruct (Tokens.exchange _); simpl; [|discriminate].
    intros [= <-]. now rewrite Map_get_set_eq.
Qed.

End TokenCaches.

(** X24.  The default token of a getter.  After any calls on the getter,
    with a clock that does not go back, a call without claims that returns
    gives a token that [sign] made for the standard payload of some issue
    time, and that token has, at the first clock reading of the call, at
    least sixty seconds left before its own [exp], less the time its
    signing took.  While the clock is at most sixty seconds before the
    expiry kept, the call returns the kept token and signs nothing.  When
    [sign] succeeds on standard payloads, the call returns. *)
Theorem getToken_margin `{Tokens.Platform} (account : Tokens.ServiceAccount)
    (service : Tokens.Audience) (st : Tokens.State) :
  (forall n, Tokens.clock n <= Tokens.clock (S n))%Z ->
  Tokens.reachable account service st ->
  let signs iat :=
    Tokens.sign (Tokens.standard account service iat) (Tokens.privateKey account)
      (Tokens.privateKeyId account) in
  (forall r st', Tokens.getToken account service None st = (Ok r, st') ->
     exists tok n,
       r = Some tok /\ signs (Tokens.clock n) = Ok tok
       /\ (Tokens.clock (Tokens.reads st) + 60 - (Tokens.clock (S n) - Tokens.clock n)
           <= Tokens.clock n + Tokens.exp)%Z)
  /\ (forall e, Tokens.tokenExp st = Some e -> e <> 0%Z ->
        (Tokens.clock (Tokens.reads st) <= e - 60)%Z ->
        Tokens.getToken account service None st = (Ok (Tokens.token st), snd (Tokens.now st))
        /\ Tokens.signed (snd (Tokens.now st)) = Tokens.signed st)
  /\ ((forall iat, is_ok (signs iat) = true) ->
      is_ok (fst (Tokens.getToken account service None st)) = true).
Proof.
  intros Hmono Hreach signs. pose proof (reachable_backed account service st Hreach) as Hb.
  assert (Hfresh : forall k : nat, (Tokens.reads st <= k)%nat ->
            (Tokens.clock (Tokens.reads st) + 60 - (Tokens.clock (S k) - Tokens.clock k)
             <= Tokens.clock k + Tokens.exp)%Z).
  { intros k Hk. assert (Tokens.clock (Tokens.reads st) <= Tokens.clock k)%Z.
    { induction Hk as [|k Hk IH]; [lia|]. specialize (Hmono k). lia. }
    specialize (Hmono k). unfold Tokens.exp. lia. }
  split; [|split].
  - intros r st'. unfold Tokens.getToken, Tokens.stale.
    destruct (Tokens.tokenExp st) as [e|] eqn:Ee.
    + destruct (e =? 0)%Z eqn:E0.
      * unfold Tokens.createToken, Tokens.now. simpl.
        destruct (Tokens.sign _ _ _) as [tok|err] eqn:Es; simpl; [|discriminate].
        intros [= <- <-]. exists tok, (Tokens.reads st). repeat split; [exact Es|].
        now apply Hfresh.
      * unfold Tokens.now at 1. cbv beta iota zeta.
        destruct (_ >? _)%Z eqn:Egt.
        -- unfold Tokens.createToken, Tokens.now. simpl.
           destruct (Tokens.sign _ _ _) as [tok|err] eqn:Es; simpl; [|discriminate].
           intros [= <- <-]. exists tok, (S (Tokens.reads st)). repeat split; [exact Es|].
           apply Hfresh. lia.
        -- intros [= <- <-]. destruct (Hb e Ee) as (n & tok & Htok & Hs & He & Hn).
           exists tok, n. repeat split; [exact Htok|exact Hs|].
           rewrite Z.gtb_ltb in Egt. apply Z.ltb_ge in Egt. unfold Tokens.exp in *. lia.
    + unfold Tokens.createToken, Tokens.now. simpl.
      destruct (Tokens.sign _ _ _) as [tok|err] eqn:Es; simpl; [|discriminate].
      intros [= <- <-]. exists tok, (Tokens.reads st). repeat split; [exact Es|].
      now apply Hfresh.
  - intros e He Hne Hle. split; [|reflexivity].
    unfold Tokens.getToken. rewrite He, (stale_within e st Hne Hle). reflexivity.
  - intros Hsign. unfold Tokens.getToken, Tokens.stale, Tokens.createToken, Tokens.now.
    destruct (Tokens.tokenExp st) as [e|]; simpl.
    + destruct (e =? 0)%Z; simpl.
      * specialize (Hsign (Tokens.clock (Tokens.reads st))). unfold signs in Hsign.
        now destruct (Tokens.sign _ _ _).
      * destruct (_ >? _)%Z; simpl; [|reflexivity].
        specialize (Hsign (Tokens.clock (S (Tokens.reads st)))). unfold signs in Hsign.
        now destruct (Tokens.sign _ _ _).
    + specialize (Hsign (Tokens.clock (Tokens.reads st))). unfold signs in Hsign.
      now destruct (Tokens.sign _ _ _).
Qed.

(** X25.  Access tokens are kept by scope.  A call for one scope changes
    neither what is kept for another scope nor the default token.  What a
    call returns is what is kept for its scope afterwards, and the next
    call for that scope returns it again, without signing or asking the
    endpoint, while the clock is at most sixty seconds before the expiry
    kept. *)
Theorem getOauthToken_per_scope `{Tokens.Platform} (account : Tokens.ServiceAccount)
    (scope : Tokens.Claim) (st : Tokens.State) :
  let out := Tokens.getOauthToken account scope st in
  (forall other, other <> scope ->
     Tokens.Map_get (Tokens.tokens (snd out)) other = Tokens.Map_get (Tokens.tokens st) other
     /\ Tokens.Map_get (Tokens.tokenExps (snd out)) other
        = Tokens.Map_get (Tokens.tokenExps st) other)
  /\ Tokens.token (snd out) = Tokens.token st
  /\ Tokens.tokenExp (snd out) = Tokens.tokenExp st
  /\ (forall r, fst out = Ok r ->
        mjoin (Tokens.Map_get (Tokens.tokens (snd out)) scope) = r
        /\ forall e, Tokens.Map_get (Tokens.tokenExps (snd out)) scope = Some e ->
             e <> 0%Z -> (Tokens.clock (Tokens.reads (snd out)) <= e - 60)%Z ->
             Tokens.getOauthToken account scope (snd out)
             = (Ok r, snd (Tokens.now (snd out)))
             /\ Tokens.signed (snd (Tokens.now (snd out))) = Tokens.signed (snd out)).
Proof.
  intros out. subst out.
  destruct (getOauthToken_frame account scope st) as (Htok & Hexp & _ & Hother).
  split; [exact Hother|]. split; [exact Htok|]. split; [exact Hexp|].
  intros r Hr. pose proof (getOauthToken_stored account scope st r Hr) as Hkept.
  split; [exact Hkept|]. intros e He Hne Hle. split; [|reflexivity].
  rewrite (getOauthToken_within account scope _ e He Hne Hle). now rewrite Hkept.
Qed.

Section TokenExamples.
#[local] Existing Instance TokenExample.platform.

Lemma getToken_margin_witness :
  exists tok n,
    fst (Tokens.getToken TokenExample.account Tokens.firestore None Tokens.initial)
    = Ok (Some tok)
    /\ tok = "jwt-1000"
    /\ (Tokens.clock 0 + 60 - (Tokens.clock (S n) - Tokens.clock n)
        <= Tokens.clock n + Tokens.exp)%Z.
Proof.
  destruct (proj1 (getToken_margin (H := TokenExample.platform) TokenExample.account
                     Tokens.firestore Tokens.initial
                     ltac:(intros n;
                           change (1000 + Z.of_nat n <= 1000 + Z.of_nat (S n))%Z; lia)
                     (Tokens.reachable_initial TokenExample.account Tokens.firestore))
              (Some "jwt-1000") _ eq_refl) as (tok & n & Hr & _ & Hmargin).
  exists tok, n. split; [now rewrite <- Hr|]. split; [now injection Hr|exact Hmargin].
Defined.

Lemma getOauthToken_per_scope_witness :
  let first := Tokens.getOauthToken TokenExample.account (Tokens.Text "s") Tokens.initial in
  fst first = Ok (Some "access")
  /\ fst (Tokens.getOauthToken TokenExample.account (Tokens.Text "s") (snd first))
     = Ok (Some "access")
  /\ Tokens.signed (snd (Tokens.getOauthToken TokenExample.account (Tokens.Text "s")
                           (snd first)))
     = Tokens.signed (snd first).
Proof.
  intros first.
  destruct (proj2 (proj2 (proj2 (getOauthToken_per_scope (H := TokenExample.platform)
                                   TokenExample.account
                                   (Tokens.Text "s") Tokens.initial)))
              (Some "access") eq_refl) as [_ Hnext].
  destruct (Hnext 4601%Z eq_refl ltac:(discriminate) ltac:(vm_compute; discriminate)) as [Hsame Hsigned].
  split; [reflexivity|]. split.
  - fold first in Hsame. now rewrite Hsame.
  - fold first in Hsame, Hsigned. now rewrite Hsame.
Defined.

End TokenExamples.

Section TokenClaims.
Context `{Tokens.Platform}.

Lemma claim_of_app (a b : Tokens.Claims) (k : string) :
  claim_of (a ++ b) k
  = match claim_of a k with Some v => Some v | None => claim_of b k end.
Proof.
  unfold claim_of. induction a as [|[k' v'] a IH]; simpl; [reflexivity|].
  destruct (String.eqb k' k); [reflexivity|exact IH].
Qed.

Lemma claim_of_assign (o : Tokens.Claims) (k k' : string) (v : Tokens.Claim) :
  claim_of (Tokens.assign k v o) k'
  = if String.eqb k k' then Some v else claim_of o k'.
Proof.
  unfold claim_of. induction o as [|[k0 v0] o IH]; simpl.
  - now destruct (String.eqb k k').
  - destruct (String.eqb k0 k) eqn:E0; simpl.
    + apply String.eqb_eq in E0. subst k0. now destruct (String.eqb k k').
    + destruct (String.eqb k0 k') eqn:E1; simpl.
      * apply String.eqb_eq in E1. subst. rewrite String.eqb_sym in E0. now rewrite E0.
      * exact IH.
Qed.

Lemma claim_of_spread (o claims : Tokens.Claims) (k : string) :
  claim_of (Tokens.spread o claims) k
  = match written claims k with Some v => Some v | None => claim_of o k end.
Proof.
  unfold Tokens.spread, written. revert o.
  induction claims as [|[k0 v0] claims IH]; intros o; simpl; [reflexivity|].
  rewrite IH, claim_of_app, claim_of_assign.
  destruct (claim_of (rev claims) k); [reflexivity|].
  assert (Hone : claim_of [(k0, v0)] k = if String.eqb k0 k then Some v0 else None)
    by (unfold claim_of; simpl; now destruct (String.eqb k0 k)).
  rewrite Hone. now destruct (String.eqb k0 k).
Qed.

End TokenClaims.

(** X26.  A token with claims of its own is signed anew at each call:
    [getToken] with claims that have no truthy [scope] signs one payload
    and changes neither the default token nor the tokens kept by scope.
    In the payload every claim given has the value given, also for the
    keys [aud], [iss], [sub], [iat] and [exp], which it then replaces; a
    key not given has its standard value. *)
Theorem getToken_with_claims `{Tokens.Platform} (account : Tokens.ServiceAccount)
    (service : Tokens.Audience) (claims : Tokens.Claims) (st : Tokens.State) :
  Tokens.truthy_scope claims = None ->
  let out := Tokens.getToken account service (Some claims) st in
  let iat := Tokens.clock (Tokens.reads st) in
  exists payload,
    Tokens.signed (snd out) = Tokens.signed st ++ [payload]
    /\ fst out
       = (Some <$> Tokens.sign payload (Tokens.privateKey account)
                     (Tokens.privateKeyId account))
    /\ (forall k, claim_of payload k
                  = match written claims k with
                    | Some v => Some v
                    | None => claim_of (Tokens.standard account service iat) k
                    end)
    /\ (written claims "exp" = None ->
        claim_of payload "exp" = Some (Tokens.Number (iat + Tokens.exp)))
    /\ Tokens.token (snd out) = Tokens.token st
    /\ Tokens.tokenExp (snd out) = Tokens.tokenExp st
    /\ Tokens.tokens (snd out) = Tokens.tokens st
    /\ Tokens.tokenExps (snd out) = Tokens.tokenExps st.
Proof.
  intros Hscope out iat. subst out. unfold Tokens.getToken. rewrite Hscope.
  unfold Tokens.createToken, Tokens.now. simpl.
  exists (Tokens.spread (Tokens.standard account service iat) claims).
  split; [reflexivity|]. split; [reflexivity|]. split; [|split].
  - intros k. apply claim_of_spread.
  - intros Hexp. rewrite claim_of_spread, Hexp. reflexivity.
  - repeat split.
Qed.

Section TokenClaimExamples.
#[local] Existing Instance TokenExample.platform.

Lemma getToken_with_claims_witness :
  let claims := [("uid", Tokens.Text "u1"); ("exp", Tokens.Number 5)] in
  exists payload,
    Tokens.signed
      (snd (Tokens.getToken TokenExample.account Tokens.auth (Some claims) Tokens.initial))
    = [payload]
    /\ claim_of payload "uid" = Some (Tokens.Text "u1")
    /\ claim_of payload "exp" = Some (Tokens.Number 5)
    /\ claim_of payload "iat" = Some (Tokens.Number 1000).
Proof.
  intros claims.
  destruct (getToken_with_claims (H := TokenExample.platform) TokenExample.account
              Tokens.auth claims Tokens.initial eq_refl)
    as (payload & Hsigned & _ & Hclaims & _).
  exists payload. split; [exact Hsigned|]. split; [|split].
  - exact (Hclaims "uid").
  - exact (Hclaims "exp").
  - exact (Hclaims "iat").
Defined.

End TokenClaimExamples.
